(** * Transition kernels of the SMC^2 epidemic simulator (models.py)

    A shallow embedding of the three NumPy kernels [stochastic_sir_model],
    [stochastic_sirs_model] and [dthp_model], and the properties of the
    specification that are settled on it.

    Modelling conventions.
    - A binary64 value is a real number of the binary64 format, an infinity
      or nan ([fval]).  Every arithmetic operation computes the exact result
      and rounds it to the nearest number of the format, ties to even
      ([rnd]); what is beyond the largest number becomes an infinity, what is
      below half the least positive number becomes zero.  Zero has no sign:
      the two zeros of binary64 are equal in every comparison the kernels
      make, and no kernel divides by a computed zero whose sign matters.
    - [np.exp] and [**] are taken as correctly rounded: the exact value,
      rounded once.
    - [x.astype(int)] is the cast to a 64-bit integer: truncation, and the
      least 64-bit integer for what does not fit.
    - Arrays live in a store [heap] indexed by references; a kernel receives
      references, reads through them and allocates its results, so that
      aliasing and in-place updates ([fill], [*=], [+=]) are visible.
    - A 2-D array is held as the list of its state variables (the columns of
      the particle-major arrays [y] and [state], the rows of the transposed
      copy made by [dthp_model]); each variable is the vector of its values
      over the particles.
    - The process-wide random source of NumPy is part of the world: two
      streams of raw outcomes, consumed by the samplers.  A sampler maps a
      raw outcome into the support of the requested law, and every point of
      the support is the image of some raw outcome, so a statement for all
      worlds is a statement for every outcome of the draws.
    - Every parameter of [theta] is a scalar shared by the whole ensemble;
      the parameters, the time step [dt], the population [N] of the Hawkes
      kernel and the observations are finite numbers. *)

From Stdlib Require Import Reals Lra Lia ZArith String.
From stdpp Require Import gmap strings list.

#[global] Instance Rle_decision : RelDecision Rle := Rle_dec.
#[global] Instance Rlt_decision : RelDecision Rlt := Rlt_dec.
#[global] Instance Req_decision : EqDecision R := Req_dec_T.

(** ** Numbers *)

Module Num.
Local Open Scope R_scope.

(** A binary64 value: a real number, an infinity or nan. *)
Inductive fval : Type :=
  | Fin (x : R)
  | PInf
  | NInf
  | NaN.

(** [2 ** e]. *)
Definition bpow (e : Z) : R := powerRZ 2 e.

(** The binade of [x]: the [e] with [2 ** (e - 1) <= |x| < 2 ** e]. *)
Definition mag (x : R) : Z := (Zfloor (ln (Rabs x) / ln 2) + 1)%Z.

(** The exponent of the unit in the last place of [x]: 53 bits of
    precision, the least exponent [-1074] for the subnormal numbers. *)
Definition cexp (x : R) : Z := Z.max (mag x - 53) (-1074).

(** The nearest integer, ties to the even one. *)
Definition Znearest_even (r : R) : Z :=
  let f := Zfloor r in
  if decide (r - IZR f < 1 / 2) then f
  else if decide (1 / 2 < r - IZR f) then (f + 1)%Z
  else if Z.even f then f else (f + 1)%Z.

(** [x] rounded to 53 bits, the exponent unbounded above. *)
Definition round (x : R) : R :=
  IZR (Znearest_even (x * bpow (- cexp x))) * bpow (cexp x).

(** [x] rounded to binary64: an infinity when the rounded value is beyond
    the largest number of the format. *)
Definition rnd (x : R) : fval :=
  if decide (Rabs (round x) < bpow 1024) then Fin (round x)
  else if decide (0 < round x) then PInf else NInf.

(** [x] is a number of the binary64 format. *)
Definition is_float (x : R) : Prop :=
  exists m e : Z,
    x = IZR m * bpow e /\ (Z.abs m < 2 ^ 53)%Z /\ (-1074 <= e <= 971)%Z.

(** The same with the exponent unbounded above. *)
Definition format (x : R) : Prop :=
  exists m e : Z,
    x = IZR m * bpow e /\ (Z.abs m < 2 ^ 53)%Z /\ (-1074 <= e)%Z.

(** An array entry that is a binary64 value. *)
Definition float (a : fval) : Prop :=
  match a with Fin x => is_float x | _ => True end.

(** An infinity of sign [pos] multiplied by the finite [x]. *)
Definition inf_times (pos : bool) (x : R) : fval :=
  if decide (x = 0) then NaN
  else if decide (0 < x) then (if pos then PInf else NInf)
  else (if pos then NInf else PInf).

Definition fneg (a : fval) : fval :=
  match a with
  | Fin x => Fin (- x)
  | PInf => NInf
  | NInf => PInf
  | NaN => NaN
  end.

Definition fadd (a b : fval) : fval :=
  match a, b with
  | NaN, _ | _, NaN => NaN
  | Fin x, Fin y => rnd (x + y)
  | PInf, NInf | NInf, PInf => NaN
  | PInf, _ | _, PInf => PInf
  | NInf, _ | _, NInf => NInf
  end.

Definition fsub (a b : fval) : fval :=
  match a, b with
  | NaN, _ | _, NaN => NaN
  | Fin x, Fin y => rnd (x - y)
  | PInf, PInf | NInf, NInf => NaN
  | PInf, _ | _, NInf => PInf
  | NInf, _ | _, PInf => NInf
  end.

Definition fmul (a b : fval) : fval :=
  match a, b with
  | NaN, _ | _, NaN => NaN
  | Fin x, Fin y => rnd (x * y)
  | PInf, Fin y | Fin y, PInf => inf_times true y
  | NInf, Fin y | Fin y, NInf => inf_times false y
  | PInf, PInf | NInf, NInf => PInf
  | PInf, NInf | NInf, PInf => NInf
  end.

(** [a / b]; a zero divisor gives [nan] or an infinity (with a warning, not
    an exception). *)
Definition fdiv (a b : fval) : fval :=
  match a, b with
  | NaN, _ | _, NaN => NaN
  | Fin x, Fin y =>
      if decide (y = 0) then
        if decide (x = 0) then NaN
        else if decide (0 < x) then PInf else NInf
      else rnd (x / y)
  | Fin _, (PInf | NInf) => Fin 0
  | PInf, Fin y => if decide (0 <= y) then PInf else NInf
  | NInf, Fin y => if decide (0 <= y) then NInf else PInf
  | (PInf | NInf), (PInf | NInf) => NaN
  end.

(** [np.exp]. *)
Definition fexp (a : fval) : fval :=
  match a with
  | Fin x => rnd (exp x)
  | PInf => PInf
  | NInf => Fin 0
  | NaN => NaN
  end.

(** [a ** k] for a whole exponent [k >= 0]; [a ** 0] is 1 for every [a]. *)
Definition fpow (a : fval) (k : nat) : fval :=
  match k with
  | O => Fin 1
  | S _ =>
      match a with
      | Fin x => rnd (x ^ k)
      | PInf => PInf
      | NInf => if Nat.even k then PInf else NInf
      | NaN => NaN
      end
  end.

(** [np.maximum(a, 0)] for one entry: nan is propagated. *)
Definition fmax0 (a : fval) : fval :=
  match a with
  | Fin x => Fin (Rmax x 0)
  | PInf => PInf
  | NInf => Fin 0
  | NaN => NaN
  end.

(** A 64-bit integer converted to binary64. *)
Definition of_int (k : Z) : fval := rnd (IZR k).

(** Truncation towards zero. *)
Definition trunc (x : R) : Z :=
  if decide (0 <= x) then Zfloor x else Zceil x.

Definition INT64_MIN : Z := (- 2 ^ 63)%Z.

(** [x.astype(int)]: the truncation when it is a 64-bit integer, the least
    64-bit integer otherwise (also for an infinity and for nan). *)
Definition astype_int (a : fval) : Z :=
  match a with
  | Fin x =>
      if decide (- 2 ^ 63 <= trunc x < 2 ^ 63)%Z then trunc x else INT64_MIN
  | _ => INT64_MIN
  end.

(** The largest binary64 number. *)
Definition MAX_FLOAT : R := (IZR (2 ^ 53) - 1) * bpow 971.

(** A raw real outcome as a finite binary64 number. *)
Definition to_float (x : R) : R :=
  round (Rmax (- MAX_FLOAT) (Rmin x MAX_FLOAT)).

(** Element-wise operations on vectors. *)
Definition vadd (u v : list fval) : list fval := zip_with fadd u v.
Definition vsub (u v : list fval) : list fval := zip_with fsub u v.
Definition vmul (u v : list fval) : list fval := zip_with fmul u v.
Definition vscale (c : fval) (u : list fval) : list fval := fmul c <$> u.
Definition vint (ks : list Z) : list fval := of_int <$> ks.

(** [np.maximum(a, 0)], element-wise over a 2-D array. *)
Definition vmax0 (u : list fval) : list fval := fmax0 <$> u.
Definition maximum0 (a : list (list fval)) : list (list fval) := vmax0 <$> a.

End Num.
Export Num.

Arguments fneg : simpl never.
Arguments fadd : simpl never.
Arguments fsub : simpl never.
Arguments fmul : simpl never.
Arguments fdiv : simpl never.
Arguments fexp : simpl never.
Arguments fpow : simpl never.
Arguments fmax0 : simpl never.
Arguments of_int : simpl never.
Arguments astype_int : simpl never.
Arguments rnd : simpl never.
Arguments round : simpl never.
Arguments bpow : simpl never.
Arguments to_float : simpl never.

(** ** Exceptions, the world and the monad of kernels *)

Inductive exn : Type :=
  | KeyError (key : string)
  | ValueError
  | IndexError
  | TypeError.

Inductive res (A : Type) : Type :=
  | Ok (a : A)
  | Raise (e : exn).
Arguments Ok {A} a.
Arguments Raise {A} e.

Definition loc := positive.

(** Objects of the store: a 2-D float array, or a pandas Series of finite
    observations. *)
Inductive pyobj : Type :=
  | Array2 (vars : list (list fval))
  | Series (vals : list R).

Record world : Type := World {
  heap : gmap loc pyobj;
  ints : nat -> nat;   (* raw outcomes for the integer-valued samplers *)
  gauss : nat -> R     (* raw outcomes of the standard normal sampler *)
}.

Definition M (A : Type) : Type := world -> res A * world.

Definition run {A} (m : M A) (w : world) : res A * world := m w.

Definition ret {A} (a : A) : M A := fun w => (Ok a, w).

Definition bind {A B} (m : M A) (f : A -> M B) : M B := fun w =>
  match m w with
  | (Ok a, w') => f a w'
  | (Raise e, w') => (Raise e, w')
  end.

Definition raise {A} (e : exn) : M A := fun w => (Raise e, w).

Notation "x <- m ;; k" := (bind m (fun x => k))
  (at level 100, m at next level, right associativity,
   format "'[v' x  <-  m  ;; '/' k ']'").
Notation "m ;; k" := (bind m (fun _ => k))
  (at level 100, right associativity, format "'[v' m  ;; '/' k ']'").

(** A view: row [i] of the array at [base] (no copy). *)
Record view : Type := View { base : loc; row : nat }.

Module Store.

Definition set_heap (h : gmap loc pyobj) (w : world) : world :=
  World h (ints w) (gauss w).

(** A freshly allocated object. *)
Definition alloc (o : pyobj) : M loc := fun w =>
  let l := fresh (dom (heap w)) in
  (Ok l, set_heap (<[l := o]> (heap w)) w).

(** The variables of the 2-D array at [l]; [TypeError] stands for a
    reference that holds no such array. *)
Definition load_array (l : loc) : M (list (list fval)) := fun w =>
  match heap w !! l with
  | Some (Array2 vars) => (Ok vars, w)
  | _ => (Raise TypeError, w)
  end.

Definition load_series (l : loc) : M (list R) := fun w =>
  match heap w !! l with
  | Some (Series vals) => (Ok vals, w)
  | _ => (Raise TypeError, w)
  end.

(** Reading through a view. *)
Definition read (v : view) : M (list fval) :=
  vars <- load_array (base v) ;;
  match vars !! row v with
  | Some x => ret x
  | None => raise IndexError
  end.

(** In-place update through a view: [v[...] = f(v)]. *)
Definition update (v : view) (f : list fval -> list fval) : M unit :=
  vars <- load_array (base v) ;;
  match vars !! row v with
  | Some x => fun w =>
      (Ok tt, set_heap (<[base v := Array2 (<[row v := f x]> vars)]> (heap w)) w)
  | None => raise IndexError
  end.

End Store.
Export Store.

(** ** The samplers of [numpy.random] *)

Module Sampler.
Local Open Scope R_scope.

Definition take_stream {A} (n : nat) (f : nat -> A) : list A := f <$> seq 0 n.
Definition drop_stream {A} (n : nat) (f : nat -> A) : nat -> A :=
  fun i => f (n + i)%nat.

Definition real_of (a : fval) : R :=
  match a with Fin x => x | _ => 0 end.

(** [p] is accepted by [binomial]: neither [p < 0], [p > 1] nor [nan]. *)
Definition valid_prob (p : fval) : Prop :=
  match p with Fin x => 0 <= x <= 1 | _ => False end.

#[global] Instance valid_prob_dec p : Decision (valid_prob p).
Proof. destruct p; simpl; apply _. Defined.

(** The largest mean [poisson] accepts (POISSON_LAM_MAX of NumPy). *)
Definition POISSON_LAM_MAX : R :=
  IZR (2 ^ 63 - 1) - sqrt (IZR (2 ^ 63 - 1)) * 10.

(** [lam] is accepted by [poisson]. *)
Definition valid_mean (lam : fval) : Prop :=
  match lam with Fin x => 0 <= x <= POISSON_LAM_MAX | _ => False end.

#[global] Instance valid_mean_dec lam : Decision (valid_mean lam).
Proof. destruct lam; simpl; apply _. Defined.

(** The outcome of one binomial draw with [n] trials and success probability
    [p], read off the raw outcome [raw]: [0] when [p = 0], [n] when [p = 1],
    any count of [0..n] otherwise. *)
Definition binomial_draw (n : Z) (p : R) (raw : nat) : Z :=
  if decide (p = 0) then 0%Z
  else if decide (p = 1) then n
  else Z.min (Z.of_nat raw) n.

(** One Poisson draw of mean [lam]: [0] when [lam = 0], any count that is
    a 64-bit integer otherwise. *)
Definition poisson_draw (lam : R) (raw : nat) : Z :=
  if decide (lam = 0) then 0%Z else Z.min (Z.of_nat raw) (2 ^ 63 - 1).

Definition consume_ints (k : nat) (w : world) : world :=
  World (heap w) (drop_stream k (ints w)) (gauss w).

Definition consume_gauss (k : nat) (w : world) : world :=
  World (heap w) (ints w) (drop_stream k (gauss w)).

(** The outcomes of the vectorised draws, read off the raw stream. *)
Definition binomial_draws (n : list Z) (p : list fval) (raws : nat -> nat)
    : list Z :=
  zip_with (fun np raw => binomial_draw np.1 (real_of np.2) raw)
    (zip n p) (take_stream (length n) raws).

Definition binomial_scalar_draws (n : list Z) (p : fval) (raws : nat -> nat)
    : list Z :=
  zip_with (fun k raw => binomial_draw k (real_of p) raw)
    n (take_stream (length n) raws).

Definition poisson_draws (lam : list fval) (raws : nat -> nat) : list Z :=
  zip_with (fun l raw => poisson_draw (real_of l) raw)
    lam (take_stream (length lam) raws).

(** [binomial(n, p)] with one trial count and one probability per particle;
    rejected parameters raise before any outcome is consumed. *)
Definition binomial (n : list Z) (p : list fval) : M (list Z) := fun w =>
  if decide (Forall valid_prob p /\ Forall (fun k => 0 <= k)%Z n) then
    (Ok (binomial_draws n p (ints w)), consume_ints (length n) w)
  else (Raise ValueError, w).

(** [binomial(n, p)] with a scalar probability, broadcast over [n]. *)
Definition binomial_scalar (n : list Z) (p : fval) : M (list Z) := fun w =>
  if decide (valid_prob p /\ Forall (fun k => 0 <= k)%Z n) then
    (Ok (binomial_scalar_draws n p (ints w)), consume_ints (length n) w)
  else (Raise ValueError, w).

(** [poisson(lam, size=lam.shape)]. *)
Definition poisson (lam : list fval) : M (list Z) := fun w =>
  if decide (Forall valid_mean lam) then
    (Ok (poisson_draws lam (ints w)), consume_ints (length lam) w)
  else (Raise ValueError, w).

(** The outcomes of [normal(0, 1, size=k)]: finite binary64 numbers. *)
Definition normal_draws (k : nat) (raws : nat -> R) : list R :=
  to_float <$> take_stream k raws.

(** [normal(0, 1, size=k)]. *)
Definition normal (k : nat) : M (list R) := fun w =>
  (Ok (normal_draws k (gauss w)), consume_gauss k w).

End Sampler.
Export Sampler.

(** ** Parameter dictionaries *)

Module Dict.

(** [dict(zip(keys, values))]: pairs up to the shorter list, a later
    occurrence of a key overriding an earlier one. *)
Definition dict_zip {V} (keys : list string) (values : list V) : gmap string V :=
  foldl (fun d kv => <[kv.1 := kv.2]> d) ∅ (zip keys values).

(** [d[k]]. *)
Definition getitem {V} (d : gmap string V) (k : string) : M V :=
  match d !! k with
  | Some v => ret v
  | None => raise (KeyError k)
  end.

(** [d.get(k, dflt)]. *)
Definition get {V} (d : gmap string V) (k : string) (dflt : V) : V :=
  default dflt (d !! k).

End Dict.
Export Dict.

(** ** Control *)

(** [for a in l: body(a)]. *)
Fixpoint for_each {A} (l : list A) (body : A -> M unit) : M unit :=
  match l with
  | [] => ret tt
  | a :: l' => body a ;; for_each l' body
  end.

(** [range(t)]: empty when [t <= 0]. *)
Definition range (t : Z) : list nat := seq 0 (Z.to_nat t).

Definition zip_with3 {A B C D} (f : A -> B -> C -> D)
    (a : list A) (b : list B) (c : list C) : list D :=
  zip_with (fun ab z => f ab.1 ab.2 z) (zip a b) c.


(** ** The kernels *)

Module Models.
Local Open Scope R_scope.

(** [1 - np.exp(-B * I / N * dt)] for one particle. *)
Definition prob_SI (dt : R) (B I N : fval) : fval :=
  fsub (Fin 1) (fexp (fmul (fdiv (fmul (fneg B) I) N) (Fin dt))).

(** [1 - np.exp(-rate * dt)] for a scalar rate. *)
Definition prob_rate (rate dt : R) : fval :=
  fsub (Fin 1) (fexp (fmul (Fin (- rate)) (Fin dt))).

(** [np.exp(nu_beta * z * dt)], the factor of the geometric random walk. *)
Definition walk_factor (nu_beta dt z : R) : fval :=
  fexp (fmul (fmul (Fin nu_beta) (Fin z)) (Fin dt)).

(** [B * np.exp(nu_beta * z * dt)], the geometric random walk. *)
Definition random_walk (nu_beta dt : R) (B : list fval) (z : list R)
    : list fval :=
  zip_with (fun b g => fmul b (walk_factor nu_beta dt g)) B z.

(** The default [0.1] of [nu_beta]: the binary64 number nearest to 1/10. *)
Definition nu_beta_default : R := round (1 / 10).

(** [x * dt] over a vector. *)
Definition vtimes (dt : R) (u : list fval) : list fval :=
  (fun x => fmul x (Fin dt)) <$> u.

Definition stochastic_sir_model
    (y : loc) (theta : list R) (theta_names : list string) (dt : R) : M loc :=
  (* S, I, R, NI, B = y.T : views of y, only ever read *)
  yT <- load_array y ;;
  match yT with
  | [S_; I_; R_; NI; B] =>
      let N := vadd (vadd S_ I_) R_ in
      let param := dict_zip theta_names theta in
      gamma <- getitem param "gamma" ;;
      let nu_beta := get param "nu_beta" nu_beta_default in
      let P_SI := zip_with3 (prob_SI dt) B I_ N in
      let P_IR := prob_rate gamma dt in
      Y_SI <- binomial (astype_int <$> S_) P_SI ;;
      Y_IR <- binomial_scalar (astype_int <$> I_) P_IR ;;
      let S_next := vsub S_ (vint Y_SI) in
      let I_next := vsub (vadd I_ (vint Y_SI)) (vint Y_IR) in
      let R_next := vadd R_ (vint Y_IR) in
      z <- normal (length B) ;;
      let B_next := random_walk nu_beta dt B z in
      let NI_next := vint Y_SI in
      y_next <- alloc (Array2 [S_next; I_next; R_next; NI_next; B_next]) ;;
      out <- load_array y_next ;;
      alloc (Array2 (maximum0 out))
  | _ => raise ValueError
  end.

(** Natural birth/death rate (an 80-year lifespan, in weeks). *)
Definition mu : fval := fdiv (Fin 1) (Fin (80 * 52)).

Definition stochastic_sirs_model
    (y : loc) (theta : list R) (theta_names : list string) (dt : R) : M loc :=
  yT <- load_array y ;;
  match yT with
  | [S_; I_; R_; NI; B] =>
      let N := vadd (vadd S_ I_) R_ in
      let param := dict_zip theta_names theta in
      gamma <- getitem param "gamma" ;;
      let alpha := get param "alpha" 0 in
      nu_beta <- getitem param "nu_beta" ;;
      let P_SI := zip_with3 (prob_SI dt) B I_ N in
      let P_IR := prob_rate gamma dt in
      let P_RS := prob_rate alpha dt in
      Y_SI <- binomial (astype_int <$> S_) P_SI ;;
      Y_IR <- binomial_scalar (astype_int <$> I_) P_IR ;;
      Y_RS <- binomial_scalar (astype_int <$> R_) P_RS ;;
      let S_next :=
        vadd (vadd (vsub S_ (vint Y_SI))
                   (vtimes dt (vscale mu (vsub N S_))))
             (vint Y_RS) in
      let I_next :=
        vsub (vsub (vadd I_ (vint Y_SI)) (vint Y_IR))
             (vtimes dt (vscale mu I_)) in
      let R_next :=
        vsub (vsub (vadd R_ (vint Y_IR))
                   (vtimes dt (vscale mu R_)))
             (vint Y_RS) in
      z <- normal (length B) ;;
      let B_next := random_walk nu_beta dt B z in
      let NI_next := vint Y_SI in
      y_next <- alloc (Array2 [S_next; I_next; R_next; NI_next; B_next]) ;;
      out <- load_array y_next ;;
      alloc (Array2 (maximum0 out))
  | _ => raise ValueError
  end.

(** The labelled table returned by [dthp_model]. *)
Record dataframe : Type := DataFrame { values : loc; columns : list string }.

(** [pd.DataFrame(a, columns=names)] for an array of three columns. *)
Definition new_dataframe (a : loc) (names : list string) : M dataframe :=
  if decide (length names = 3%nat) then ret (DataFrame a names)
  else raise ValueError.

(** [(1 - C_I / N) * Rt * lm_I] for one particle. *)
Definition poisson_mean (N : R) (C_I Rt lm_I : fval) : fval :=
  fmul (fmul (fsub (Fin 1) (fdiv C_I (Fin N))) Rt) lm_I.

(** [omega_I * (1 - omega_I) ** (t - ti - 1)]. *)
Definition kernel_value (omega_I : R) (t : Z) (ti : nat) : fval :=
  fmul (Fin omega_I)
       (fpow (fsub (Fin 1) (Fin omega_I)) (Z.to_nat (t - Z.of_nat ti - 1))).

(** [Rt * np.exp(nu_beta * z)]. *)
Definition perturb (nu_beta : R) (r : fval) (g : R) : fval :=
  fmul r (fexp (fmul (Fin nu_beta) (Fin g))).

(** [s.iloc[i]] for a non-negative position. *)
Definition iloc (s : list R) (i : nat) : M R :=
  match s !! i with
  | Some x => ret x
  | None => raise IndexError
  end.

(** [observed_data['obs']]. *)
Definition obs_of (observed_data : gmap string loc) : M (list R) :=
  s <- getitem observed_data "obs" ;;
  load_series s.

Definition dthp_model
    (state : loc) (theta : list R) (state_names theta_names : list string)
    (observed_data : gmap string loc) (t : Z) (N : R) : M dataframe :=
  (* lm_I, C_I, Rt = state.T.copy() : views of a fresh copy *)
  st <- load_array state ;;
  c <- alloc (Array2 st) ;;
  match st with
  | [_; _; _] =>
      let lm_I := View c 0 in
      let C_I := View c 1 in
      let Rt := View c 2 in
      let param := dict_zip theta_names theta in
      omega_I <- getitem param "omega_I" ;;
      let nu_beta := get param "nu_beta" nu_beta_default in
      update lm_I (fmap (fun _ => Fin 0)) ;;
      rt <- read Rt ;;
      z <- normal (length rt) ;;
      update Rt (fun x => zip_with (perturb nu_beta) x z) ;;
      for_each (range t) (fun ti =>
        let kernel_values := kernel_value omega_I t ti in
        obs <- obs_of observed_data ;;
        o <- iloc obs ti ;;
        update lm_I (fmap (fun x => fadd x (fmul (Fin o) kernel_values)))) ;;
      c_I <- read C_I ;;
      rt <- read Rt ;;
      lm <- read lm_I ;;
      lm_new <- poisson (zip_with3 (poisson_mean N) c_I rt lm) ;;
      update C_I (fun x => vadd x (vint lm_new)) ;;
      c_I <- read C_I ;;
      rt <- read Rt ;;
      updated_state <- alloc (Array2 [vint lm_new; c_I; rt]) ;;
      new_dataframe updated_state state_names
  | _ => raise ValueError
  end.

End Models.
Export Models.

(** ** The values a run computes

    The intermediate and final values of each kernel as functions of its
    inputs and of the random source; [sir_run_spec], [sirs_run_spec] and
    [dthp_run_spec] below prove that the kernels compute them. *)

Module Values.
Local Open Scope R_scope.

Definition nonneg_counts (n : list Z) : Prop := Forall (fun k => 0 <= k)%Z n.

Section Compartmental.
Variables (w : world) (S_ I_ R_ B : list fval) (gamma alpha nu_beta dt : R).

Definition sir_P_SI : list fval :=
  zip_with3 (prob_SI dt) B I_ (vadd (vadd S_ I_) R_).

Definition sir_Y_SI : list Z :=
  binomial_draws (astype_int <$> S_) sir_P_SI (ints w).

Definition sir_Y_IR : list Z :=
  binomial_scalar_draws (astype_int <$> I_) (prob_rate gamma dt)
    (drop_stream (length (astype_int <$> S_)) (ints w)).

(** The parameters of the two binomial calls of the SIR kernel are
    accepted. *)
Definition sir_good : Prop :=
  (Forall valid_prob sir_P_SI /\ nonneg_counts (astype_int <$> S_)) /\
  (valid_prob (prob_rate gamma dt) /\ nonneg_counts (astype_int <$> I_)).

(** [y_next] of the SIR kernel, before the clamp. *)
Definition sir_next : list (list fval) :=
  [ vsub S_ (vint sir_Y_SI);
    vsub (vadd I_ (vint sir_Y_SI)) (vint sir_Y_IR);
    vadd R_ (vint sir_Y_IR);
    vint sir_Y_SI;
    random_walk nu_beta dt B (normal_draws (length B) (gauss w)) ].

Definition sirs_Y_RS : list Z :=
  binomial_scalar_draws (astype_int <$> R_) (prob_rate alpha dt)
    (drop_stream (length (astype_int <$> I_))
       (drop_stream (length (astype_int <$> S_)) (ints w))).

(** The parameters of the three binomial calls of the SIRS kernel are
    accepted. *)
Definition sirs_good : Prop :=
  sir_good /\
  (valid_prob (prob_rate alpha dt) /\ nonneg_counts (astype_int <$> R_)).

(** [y_next] of the SIRS kernel, before the clamp. *)
Definition sirs_next : list (list fval) :=
  [ vadd (vadd (vsub S_ (vint sir_Y_SI))
               (vtimes dt (vscale mu (vsub (vadd (vadd S_ I_) R_) S_))))
         (vint sirs_Y_RS);
    vsub (vsub (vadd I_ (vint sir_Y_SI)) (vint sir_Y_IR))
         (vtimes dt (vscale mu I_));
    vsub (vsub (vadd R_ (vint sir_Y_IR))
               (vtimes dt (vscale mu R_)))
         (vint sirs_Y_RS);
    vint sir_Y_SI;
    random_walk nu_beta dt B (normal_draws (length B) (gauss w)) ].
End Compartmental.

(** The observed series a call can read: [observed_data['obs']], empty when
    the key or the series is missing. *)
Definition obs_values (w : world) (observed_data : gmap string loc) : list R :=
  match observed_data !! "obs" with
  | Some s => match heap w !! s with Some (Series vals) => vals | _ => [] end
  | None => []
  end.

Definition obs_available (w : world) (observed_data : gmap string loc) : Prop :=
  exists s vals,
    observed_data !! "obs" = Some s /\ heap w !! s = Some (Series vals).

#[global] Instance obs_available_dec w observed_data :
  Decision (obs_available w observed_data).
Proof.
  unfold obs_available.
  destruct (observed_data !! "obs") as [s|] eqn:Hs;
    [destruct (heap w !! s) as [[vars|vals]|] eqn:Hv|].
  - right. intros (s' & vals & [= <-] & Hv'). congruence.
  - left. by exists s, vals.
  - right. intros (s' & vals & [= <-] & Hv'). congruence.
  - right. intros (s' & vals & [=] & Hv').
Defined.

Section Hawkes.
Variables (w : world) (lm C_I Rt : list fval) (obs : list R)
          (omega_I nu_beta : R) (t : Z) (N : R).

Definition dthp_Rt : list fval :=
  zip_with (perturb nu_beta) Rt (normal_draws (length Rt) (gauss w)).

(** One turn of the convolution loop on the accumulator of a particle. *)
Definition conv_step (acc : fval) (ti : nat) : fval :=
  fadd acc (fmul (Fin (default 0 (obs !! ti))) (kernel_value omega_I t ti)).

(** The convolution of the history with the decaying kernel, accumulated
    from 0 in the order of the loop. *)
Definition intensity : fval := foldl conv_step (Fin 0) (range t).

Definition dthp_lm : list fval := (fun _ => intensity) <$> lm.

Definition dthp_means : list fval :=
  zip_with3 (poisson_mean N) C_I dthp_Rt dthp_lm.

Definition dthp_draws : list Z := poisson_draws dthp_means (ints w).

(** [updated_state]. *)
Definition dthp_out : list (list fval) :=
  [ vint dthp_draws; vadd C_I (vint dthp_draws); dthp_Rt ].
End Hawkes.

(** The history is long enough for the loop, the means are accepted by
    [poisson] and the table gets three names. *)
Definition dthp_good (w : world) (state_names : list string)
    (observed_data : gmap string loc) (t : Z) (means : list fval) : Prop :=
  ((0 < t)%Z -> obs_available w observed_data /\
                (t <= Z.of_nat (length (obs_values w observed_data)))%Z) /\
  Forall valid_mean means /\
  length state_names = 3%nat.

(** The body of the convolution loop, on the copy at [c]. *)
Definition conv_body (c : loc) (observed_data : gmap string loc)
    (omega_I : R) (t : Z) (ti : nat) : M unit :=
  let kernel_values := kernel_value omega_I t ti in
  obs <- obs_of observed_data ;;
  o <- iloc obs ti ;;
  update (View c 0) (fmap (fun x => fadd x (fmul (Fin o) kernel_values))).

(** A world whose copy at [c] holds the accumulator [a]. *)
Definition at_copy (c : loc) (C_I Rt : list fval) (h : gmap loc pyobj)
    (ig : nat -> nat) (gs : nat -> R) (a : list fval) : world :=
  World (<[c := Array2 [a; C_I; Rt]]> h) ig gs.

(** Row [i] of a 2-D array: the state of particle [i]. *)
Definition particle (a : list (list fval)) (i : nat) : option (list fval) :=
  mapM (fun var => var !! i) a.

(** A value that is not negative: a non-negative number or the positive
    infinity. *)
Definition nonneg (a : fval) : Prop :=
  match a with Fin x => 0 <= x | PInf => True | _ => False end.

(** A number, as opposed to an infinity or nan. *)
Definition finite (a : fval) : Prop :=
  match a with Fin _ => True | _ => False end.

(** A number of magnitude at most [b]. *)
Definition bounded (b : R) (a : fval) : Prop :=
  match a with Fin x => Rabs x <= b | _ => False end.

(** A value that is not positive: a non-positive number or the negative
    infinity. *)
Definition nonpos (a : fval) : Prop :=
  match a with Fin x => x <= 0 | NInf => True | _ => False end.


(** A rate that is not negative, or nan. *)
Definition nonneg_or_nan (a : fval) : Prop :=
  match a with Fin x => 0 <= x | PInf | NaN => True | NInf => False end.


(** [a <= b] for binary64 values that are not nan. *)
Definition fle (a b : fval) : Prop :=
  match a, b with
  | NaN, _ | _, NaN => False
  | NInf, _ | _, PInf => True
  | Fin x, Fin y => x <= y
  | _, _ => False
  end.

End Values.
Export Values.

(** ** Reasoning about runs *)

Module Logic.

(** [wp m Q w]: running [m] in the world [w] ends in a result and a world
    that satisfy [Q]. Every run ends: [M] is a total function. *)
Definition wp {A} (m : M A) (Q : res A -> world -> Prop) (w : world) : Prop :=
  Q (run m w).1 (run m w).2.

(** The continuation of a postcondition through [bind]. *)
Definition thru {A B} (k : A -> M B) (Q : res B -> world -> Prop)
    : res A -> world -> Prop :=
  fun r w => match r with
             | Ok a => wp (k a) Q w
             | Raise e => Q (Raise e) w
             end.

(** [m] leaves every object of the store [h0] as it is, whatever it
    returns or raises. *)
Definition keeps (h0 : gmap loc pyobj) {A} (m : M A) : Prop :=
  forall w, h0 ⊆ heap w -> h0 ⊆ heap (run m w).2.

End Logic.
Export Logic.

(** ** Concrete calls *)

Module Examples.
Local Open Scope R_scope.

(** The scenario of the specification, with a transmission rate that is a
    binary64 number: one particle with S = 990, I = 10, R = 0, NI = 0,
    B = 0.25; every raw outcome is 2 and every normal outcome 1/2. *)
Definition sir_world : world :=
  World {[ 1%positive :=
             Array2 [[Fin 990]; [Fin 10]; [Fin 0]; [Fin 0]; [Fin (1 / 4)]] ]}
        (fun _ => 2%nat) (fun _ => 1 / 2).

(** One infected individual in a population of one; every raw outcome is
    1, so the individual recovers during the step. *)
Definition sirs_world : world :=
  World {[ 1%positive :=
             Array2 [[Fin 0]; [Fin 1]; [Fin 0]; [Fin 0]; [Fin 1]] ]}
        (fun _ => 1%nat) (fun _ => 1 / 2).

(** One particle with lm_I = 0, the given C_I and Rt, and a history of
    one observation; every raw outcome is 5. *)
Definition hawkes_state (C_I Rt obs : R) : world :=
  World (<[ 1%positive := Array2 [[Fin 0]; [Fin C_I]; [Fin Rt]] ]>
           {[ 2%positive := Series [obs] ]})
        (fun _ => 5%nat) (fun _ => 1 / 2).

(** The same with Rt = 1. *)
Definition hawkes_world (C_I obs : R) : world := hawkes_state C_I 1 obs.

Definition hawkes_data : gmap string loc := {[ "obs" := 2%positive ]}.

Definition hawkes_names : list string := ["lm_I"; "C_I"; "Rt"].

(** omega_I = 1, and nu_beta = 0 so that Rt does not move. *)
Definition hawkes_theta : list R := [1; 0].

Definition hawkes_theta_names : list string := ["omega_I"; "nu_beta"].

(** One particle with S = 2, I = 1 and R = 2 ** 53 and without
    transmission; every raw outcome is 1, so the infected individual
    recovers during the step. *)
Definition large_world : world :=
  World {[ 1%positive :=
             Array2 [[Fin 2]; [Fin 1]; [Fin 9007199254740992]; [Fin 0];
                     [Fin 0]] ]}
        (fun _ => 1%nat) (fun _ => 1 / 2).

(** One particle with lm_I = 0, C_I = 0 and Rt = 1, and a history of three
    zeros. *)
Definition silent_world : world :=
  World (<[ 1%positive := Array2 [[Fin 0]; [Fin 0]; [Fin 1]] ]>
           {[ 2%positive := Series [0; 0; 0] ]})
        (fun _ => 5%nat) (fun _ => 1 / 2).

End Examples.
Export Examples.

(** ** Shapes and further calls *)

Module Shapes.

(** [a.shape == (n, k)], for an array held as the list of its [k]
    variables. *)
Definition has_shape (a : list (list fval)) (n k : nat) : Prop :=
  length a = k /\ Forall (fun v => length v = n) a.

End Shapes.
Export Shapes.

Module MoreExamples.
Local Open Scope R_scope.

(** One particle of the SIR kernels after the epidemic: S = 990, I = 0,
    R = 10, with a stale NI = 7. *)
Definition recovered_world : world :=
  World {[ 1%positive :=
             Array2 [[Fin 990]; [Fin 0]; [Fin 10]; [Fin 7]; [Fin (1 / 4)]] ]}
        (fun _ => 2%nat) (fun _ => 1 / 2).

(** The particle of [sir_world] with a stale NI = 7. *)
Definition stale_world : world :=
  World {[ 1%positive :=
             Array2 [[Fin 990]; [Fin 10]; [Fin 0]; [Fin 7]; [Fin (1 / 4)]] ]}
        (fun _ => 2%nat) (fun _ => 1 / 2).

End MoreExamples.
Export MoreExamples.

(** ** Rules of the logic *)

Module Rules.

Lemma wp_bind {A B} (m : M A) (k : A -> M B) Q w :
  wp m (thru k Q) w -> wp (bind m k) Q w.
Proof.
  unfold wp, thru, run, bind. destruct (m w) as [[a|e] w1]; simpl; auto.
Qed.

Lemma wp_ret {A} (a : A) (Q : res A -> world -> Prop) w :
  Q (Ok a) w -> wp (ret a) Q w.
Proof. done. Qed.


Lemma wp_alloc o (Q : res loc -> world -> Prop) w :
  (forall l, heap w !! l = None ->
     Q (Ok l) (set_heap (<[l := o]> (heap w)) w)) ->
  wp (alloc o) Q w.
Proof.
  intros H. unfold wp, run, alloc. simpl. apply H.
  apply not_elem_of_dom, is_fresh.
Qed.

Lemma wp_load_array l (Q : res (list (list fval)) -> world -> Prop) w :
  (forall vars, heap w !! l = Some (Array2 vars) -> Q (Ok vars) w) ->
  ((forall vars, heap w !! l <> Some (Array2 vars)) -> Q (Raise TypeError) w) ->
  wp (load_array l) Q w.
Proof.
  intros H1 H2. unfold wp, run, load_array.
  destruct (heap w !! l) as [[vars|vals]|] eqn:E; simpl; auto;
    apply H2; congruence.
Qed.

Lemma wp_load_series l (Q : res (list R) -> world -> Prop) w :
  (forall vals, heap w !! l = Some (Series vals) -> Q (Ok vals) w) ->
  ((forall vals, heap w !! l <> Some (Series vals)) -> Q (Raise TypeError) w) ->
  wp (load_series l) Q w.
Proof.
  intros H1 H2. unfold wp, run, load_series.
  destruct (heap w !! l) as [[vars|vals]|] eqn:E; simpl; auto;
    apply H2; congruence.
Qed.

Lemma wp_getitem {V} (d : gmap string V) k (Q : res V -> world -> Prop) w :
  (forall v, d !! k = Some v -> Q (Ok v) w) ->
  (d !! k = None -> Q (Raise (KeyError k)) w) ->
  wp (getitem d k) Q w.
Proof.
  intros H1 H2. unfold wp, run, getitem.
  destruct (d !! k) eqn:E; simpl; auto.
Qed.

Lemma wp_iloc s i (Q : res R -> world -> Prop) w :
  (forall x, s !! i = Some x -> Q (Ok x) w) ->
  (s !! i = None -> Q (Raise IndexError) w) ->
  wp (iloc s i) Q w.
Proof.
  intros H1 H2. unfold wp, run, iloc.
  destruct (s !! i) eqn:E; simpl; auto.
Qed.

Lemma wp_binomial n p (Q : res (list Z) -> world -> Prop) w :
  (Forall valid_prob p -> Forall (fun k => 0 <= k)%Z n ->
   Q (Ok (binomial_draws n p (ints w))) (consume_ints (length n) w)) ->
  (~ (Forall valid_prob p /\ Forall (fun k => 0 <= k)%Z n) ->
   Q (Raise ValueError) w) ->
  wp (binomial n p) Q w.
Proof.
  intros H1 H2. unfold wp, run, binomial.
  case_decide as Hv; simpl; [destruct Hv|]; auto.
Qed.

Lemma wp_binomial_scalar n p (Q : res (list Z) -> world -> Prop) w :
  (valid_prob p -> Forall (fun k => 0 <= k)%Z n ->
   Q (Ok (binomial_scalar_draws n p (ints w))) (consume_ints (length n) w)) ->
  (~ (valid_prob p /\ Forall (fun k => 0 <= k)%Z n) ->
   Q (Raise ValueError) w) ->
  wp (binomial_scalar n p) Q w.
Proof.
  intros H1 H2. unfold wp, run, binomial_scalar.
  case_decide as Hv; simpl; [destruct Hv|]; auto.
Qed.

Lemma wp_poisson lam (Q : res (list Z) -> world -> Prop) w :
  (Forall valid_mean lam ->
   Q (Ok (poisson_draws lam (ints w))) (consume_ints (length lam) w)) ->
  (~ Forall valid_mean lam -> Q (Raise ValueError) w) ->
  wp (poisson lam) Q w.
Proof.
  intros H1 H2. unfold wp, run, poisson. case_decide; simpl; auto.
Qed.

Lemma wp_normal k (Q : res (list R) -> world -> Prop) w :
  Q (Ok (normal_draws k (gauss w))) (consume_gauss k w) ->
  wp (normal k) Q w.
Proof. done. Qed.

Lemma wp_new_dataframe a names (Q : res dataframe -> world -> Prop) w :
  (length names = 3%nat -> Q (Ok (DataFrame a names)) w) ->
  (length names <> 3%nat -> Q (Raise ValueError) w) ->
  wp (new_dataframe a names) Q w.
Proof.
  intros H1 H2. unfold wp, run, new_dataframe. case_decide; simpl; auto.
Qed.


(** Rules for a store whose content at the reference is known. *)

Lemma wp_load_array_at l vars (Q : res (list (list fval)) -> world -> Prop) w :
  heap w !! l = Some (Array2 vars) -> Q (Ok vars) w -> wp (load_array l) Q w.
Proof. intros H HQ. unfold wp, run, load_array. by rewrite H. Qed.

Lemma wp_load_series_at l vals (Q : res (list R) -> world -> Prop) w :
  heap w !! l = Some (Series vals) -> Q (Ok vals) w -> wp (load_series l) Q w.
Proof. intros H HQ. unfold wp, run, load_series. by rewrite H. Qed.

Lemma wp_read_at c i vars x (Q : res (list fval) -> world -> Prop) w :
  heap w !! c = Some (Array2 vars) -> vars !! i = Some x ->
  Q (Ok x) w -> wp (read (View c i)) Q w.
Proof.
  intros H Hx HQ. unfold read. apply wp_bind, (wp_load_array_at _ _ _ _ H).
  unfold thru. cbn. by rewrite Hx.
Qed.

Lemma wp_update_at c i vars x f (Q : res unit -> world -> Prop) h ig gs :
  h !! c = Some (Array2 vars) -> vars !! i = Some x ->
  Q (Ok tt) (World (<[c := Array2 (<[i := f x]> vars)]> h) ig gs) ->
  wp (update (View c i) f) Q (World h ig gs).
Proof.
  intros H Hx HQ. unfold update.
  apply wp_bind, (wp_load_array_at _ vars); [done|].
  unfold thru. cbn. by rewrite Hx.
Qed.

(** A run that returned satisfies what [wp] proves of returned results. *)
Lemma wp_ok_elim {A} (m : M A) (P : A -> world -> Prop) w a w' :
  wp m (fun r w1 => match r with Ok x => P x w1 | Raise _ => True end) w ->
  run m w = (Ok a, w') -> P a w'.
Proof. unfold wp. intros H Hr. by rewrite Hr in H. Qed.

End Rules.
Export Rules.

(** ** What the kernels compute *)

Module Runs.
Local Open Scope R_scope.

Lemma fresh_not_in (h h' : gmap loc pyobj) (l : loc) :
  h ⊆ h' -> h' !! l = None -> h !! l = None.
Proof.
  intros Hsub Hl. destruct (h !! l) eqn:E; [|done].
  eapply lookup_weaken in E; [|done]. congruence.
Qed.

Lemma sir_run_spec w y theta names dt S_ I_ R_ NI B gamma :
  heap w !! y = Some (Array2 [S_; I_; R_; NI; B]) ->
  dict_zip names theta !! "gamma" = Some gamma ->
  wp (stochastic_sir_model y theta names dt)
    (fun r w' =>
       heap w ⊆ heap w' /\
       match r with
       | Ok l =>
           sir_good S_ I_ R_ B gamma dt /\
           heap w !! l = None /\
           heap w' !! l =
             Some (Array2 (maximum0
               (sir_next w S_ I_ R_ B gamma
                  (get (dict_zip names theta) "nu_beta" nu_beta_default) dt)))
       | Raise e => e = ValueError /\ ~ sir_good S_ I_ R_ B gamma dt
       end) w.
Proof.
  intros Hy Hg. unfold stochastic_sir_model.
  apply wp_bind, (wp_load_array_at _ _ _ _ Hy). unfold thru.
  apply wp_bind, wp_getitem; [|congruence].
  intros ? [= <-]%(eq_trans (eq_sym Hg)). unfold thru.
  apply wp_bind, wp_binomial; unfold thru.
  2:{ intros Hn. split; [done|]. split; [done|]. unfold sir_good. tauto. }
  intros Hp1 Hn1.
  apply wp_bind, wp_binomial_scalar; unfold thru.
  2:{ intros Hn. split; [done|]. split; [done|]. unfold sir_good. tauto. }
  intros Hp2 Hn2.
  apply wp_bind, wp_normal. unfold thru.
  apply wp_bind, wp_alloc. intros l1 Hl1. unfold thru.
  apply wp_bind, (wp_load_array_at _
    (sir_next w S_ I_ R_ B gamma
       (get (dict_zip names theta) "nu_beta" nu_beta_default) dt)).
  { cbn. by rewrite lookup_insert_eq. }
  unfold thru. apply wp_alloc. intros l2 Hl2. cbn in *.
  assert (heap w ⊆ <[l1 := Array2
    (sir_next w S_ I_ R_ B gamma
       (get (dict_zip names theta) "nu_beta" nu_beta_default) dt)]> (heap w)) as Hsub
    by (by apply insert_subseteq).
  split; [etrans; [exact Hsub|by apply insert_subseteq]|].
  split; [done|]. split; [by eapply fresh_not_in|].
  by rewrite lookup_insert_eq.
Qed.

Lemma sirs_run_spec w y theta names dt S_ I_ R_ NI B gamma nu_beta :
  heap w !! y = Some (Array2 [S_; I_; R_; NI; B]) ->
  dict_zip names theta !! "gamma" = Some gamma ->
  dict_zip names theta !! "nu_beta" = Some nu_beta ->
  wp (stochastic_sirs_model y theta names dt)
    (fun r w' =>
       heap w ⊆ heap w' /\
       match r with
       | Ok l =>
           sirs_good S_ I_ R_ B gamma
             (get (dict_zip names theta) "alpha" 0) dt /\
           heap w !! l = None /\
           heap w' !! l =
             Some (Array2 (maximum0
               (sirs_next w S_ I_ R_ B gamma
                  (get (dict_zip names theta) "alpha" 0) nu_beta dt)))
       | Raise e =>
           e = ValueError /\
           ~ sirs_good S_ I_ R_ B gamma
               (get (dict_zip names theta) "alpha" 0) dt
       end) w.
Proof.
  intros Hy Hg Hnu. unfold stochastic_sirs_model.
  apply wp_bind, (wp_load_array_at _ _ _ _ Hy). unfold thru.
  apply wp_bind, wp_getitem; [|congruence].
  intros ? [= <-]%(eq_trans (eq_sym Hg)). unfold thru.
  apply wp_bind, wp_getitem; [|congruence].
  intros ? [= <-]%(eq_trans (eq_sym Hnu)). unfold thru.
  set (alpha := get (dict_zip names theta) "alpha" 0).
  apply wp_bind, wp_binomial; unfold thru.
  2:{ intros Hn. split; [done|]. split; [done|].
      unfold sirs_good, sir_good. tauto. }
  intros Hp1 Hn1.
  apply wp_bind, wp_binomial_scalar; unfold thru.
  2:{ intros Hn. split; [done|]. split; [done|].
      unfold sirs_good, sir_good. tauto. }
  intros Hp2 Hn2.
  apply wp_bind, wp_binomial_scalar; unfold thru.
  2:{ intros Hn. split; [done|]. split; [done|]. unfold sirs_good. tauto. }
  intros Hp3 Hn3.
  apply wp_bind, wp_normal. unfold thru.
  apply wp_bind, wp_alloc. intros l1 Hl1. unfold thru.
  apply wp_bind, (wp_load_array_at _
    (sirs_next w S_ I_ R_ B gamma alpha nu_beta dt)).
  { cbn. by rewrite lookup_insert_eq. }
  unfold thru. apply wp_alloc. intros l2 Hl2. cbn in *.
  assert (heap w ⊆ <[l1 := Array2
    (sirs_next w S_ I_ R_ B gamma alpha nu_beta dt)]> (heap w)) as Hsub
    by (by apply insert_subseteq).
  split; [etrans; [exact Hsub|by apply insert_subseteq]|].
  split; [done|]. split; [by eapply fresh_not_in|].
  by rewrite lookup_insert_eq.
Qed.

Lemma range_in_bounds (t : Z) (n : nat) :
  Forall (fun ti => ti < n)%nat (range t) <-> ((0 < t)%Z -> (t <= Z.of_nat n)%Z).
Proof.
  unfold range. rewrite Forall_seq. split.
  - intros H Ht. destruct (Z.to_nat t) as [|k] eqn:E; [lia|].
    specialize (H k). lia.
  - intros H j Hj. lia.
Qed.

(** The convolution loop when the history can be read: it adds the turns of
    [l] to the accumulator of every particle, or stops at the first position
    beyond the history. *)
Lemma wp_conv_loop c od omega_I t lm C_I Rt h ig gs s obs (l : list nat)
    (acc : fval) (Q : res unit -> world -> Prop) :
  h !! c = None ->
  od !! "obs" = Some s -> h !! s = Some (Series obs) ->
  (Forall (fun ti => ti < length obs)%nat l ->
   Q (Ok tt) (at_copy c C_I Rt h ig gs
                ((fun _ : fval => foldl (conv_step obs omega_I t) acc l) <$> lm))) ->
  (~ Forall (fun ti => ti < length obs)%nat l ->
   forall a, Q (Raise IndexError) (at_copy c C_I Rt h ig gs a)) ->
  wp (for_each l (conv_body c od omega_I t)) Q
     (at_copy c C_I Rt h ig gs ((fun _ : fval => acc) <$> lm)).
Proof.
  intros Hc Hs Hobs. revert acc.
  induction l as [|ti l IH]; intros acc HOk HErr.
  { apply wp_ret. simpl in HOk. auto. }
  assert (s <> c) as Hsc by congruence.
  simpl. apply wp_bind. unfold conv_body at 1.
  apply wp_bind. unfold obs_of. apply wp_bind, wp_getitem; [|congruence].
  intros ? [= <-]%(eq_trans (eq_sym Hs)). unfold thru at 1.
  apply (wp_load_series_at _ obs).
  { cbn. by rewrite lookup_insert_ne. }
  unfold thru at 1. apply wp_bind, wp_iloc; unfold thru at 1.
  2:{ intros Hn. cbn. apply HErr. rewrite Forall_cons. intros [Hlt _].
      apply lookup_lt_is_Some in Hlt. rewrite Hn in Hlt. by destruct Hlt. }
  intros o Ho. unfold at_copy.
  eapply wp_update_at; [apply lookup_insert_eq|done|].
  cbn. rewrite insert_insert_eq, <- list_fmap_compose.
  assert ((fun x => fadd x (fmul (Fin o) (kernel_value omega_I t ti))) ∘ (fun _ : fval => acc)
          = fun _ => conv_step obs omega_I t acc ti) as ->.
  { unfold conv_step. by rewrite Ho. }
  apply (IH (conv_step obs omega_I t acc ti)).
  - intros Hl. cbn. apply HOk. constructor; [|done].
    by apply lookup_lt_Some in Ho.
  - intros Hl a. apply HErr. rewrite Forall_cons. tauto.
Qed.

(** The loop when the history cannot be read: its first turn raises. *)
Lemma wp_conv_loop_unavailable c od omega_I t C_I Rt h ig gs a l
    (Q : res unit -> world -> Prop) :
  h !! c = None ->
  ~ obs_available (World h ig gs) od ->
  (l = [] -> Q (Ok tt) (at_copy c C_I Rt h ig gs a)) ->
  (l <> [] -> forall e, Q (Raise e) (at_copy c C_I Rt h ig gs a)) ->
  wp (for_each l (conv_body c od omega_I t)) Q (at_copy c C_I Rt h ig gs a).
Proof.
  intros Hc Hna HOk HErr. destruct l as [|ti l]; [by apply wp_ret, HOk|].
  simpl. apply wp_bind. unfold conv_body at 1, obs_of.
  apply wp_bind, wp_bind, wp_getitem; unfold thru; [|by intros; apply HErr].
  intros s Hs. apply wp_load_series; [|by intros; apply HErr].
  intros vals Hv. exfalso. apply Hna. exists s, vals. split; [done|].
  cbn in *. destruct (decide (s = c)) as [->|Hne].
  - by rewrite lookup_insert_eq in Hv.
  - by rewrite lookup_insert_ne in Hv.
Qed.

Lemma dthp_run_spec w state theta state_names theta_names observed_data t N
    lm C_I Rt omega_I :
  heap w !! state = Some (Array2 [lm; C_I; Rt]) ->
  dict_zip theta_names theta !! "omega_I" = Some omega_I ->
  wp (dthp_model state theta state_names theta_names observed_data t N)
    (fun r w' =>
       heap w ⊆ heap w' /\
       match r with
       | Ok df =>
           dthp_good w state_names observed_data t
             (dthp_means w lm C_I Rt (obs_values w observed_data) omega_I
                (get (dict_zip theta_names theta) "nu_beta" nu_beta_default) t N) /\
           columns df = state_names /\
           heap w !! values df = None /\
           heap w' !! values df =
             Some (Array2
               (dthp_out w lm C_I Rt (obs_values w observed_data) omega_I
                  (get (dict_zip theta_names theta) "nu_beta" nu_beta_default) t N))
       | Raise e =>
           ~ dthp_good w state_names observed_data t
               (dthp_means w lm C_I Rt (obs_values w observed_data) omega_I
                  (get (dict_zip theta_names theta) "nu_beta" nu_beta_default) t N)
       end) w.
Proof.
  intros Hst Hom.
  set (nu_beta := get (dict_zip theta_names theta) "nu_beta" nu_beta_default).
  set (obs := obs_values w observed_data).
  set (means := dthp_means w lm C_I Rt obs omega_I nu_beta t N).
  destruct w as [h ig gs]. cbn [heap] in Hst.
  unfold dthp_model.
  apply wp_bind, (wp_load_array_at _ [lm; C_I; Rt]); [done|]. unfold thru.
  apply wp_bind, wp_alloc. intros c Hc. cbn in Hc |- *.
  assert (forall a, h ⊆ <[c := a]> h) as Hframe by (intros; by apply insert_subseteq).
  apply wp_bind, wp_getitem; [|congruence].
  intros ? [= <-]%(eq_trans (eq_sym Hom)). unfold thru.
  apply wp_bind. eapply wp_update_at; [apply lookup_insert_eq|done|].
  cbn. rewrite insert_insert_eq.
  apply wp_bind. eapply wp_read_at; [apply lookup_insert_eq|done|]. cbn.
  apply wp_bind, wp_normal. cbn.
  apply wp_bind. eapply wp_update_at; [apply lookup_insert_eq|done|].
  cbn. rewrite insert_insert_eq.
  change (zip_with _ Rt (normal_draws (length Rt) gs))
    with (dthp_Rt (World h ig gs) Rt nu_beta).
  set (Rt' := dthp_Rt _ Rt nu_beta).
  set (gs' := drop_stream (length Rt) gs).
  set (Q := fun (r : res dataframe) (w' : world) => _ /\ _).
  assert (forall e a, ~ dthp_good (World h ig gs) state_names observed_data t means ->
            Q (Raise e) (at_copy c C_I Rt' h ig gs' a)) as HErr.
  { intros e a Hn. split; [apply Hframe | done]. }
  (* what follows the loop *)
  assert (forall vals : list R,
    obs = vals \/ (t <= 0)%Z ->
    ((0 < t)%Z -> obs_available (World h ig gs) observed_data /\
                  (t <= Z.of_nat (length obs))%Z) ->
    wp (c_I <- read (View c 1);; rt <- read (View c 2);;
        lm0 <- read (View c 0);;
        lm_new <- poisson (zip_with3 (poisson_mean N) c_I rt lm0);;
        update (View c 1) (fun x => vadd x (vint lm_new));;
        c_I0 <- read (View c 1);; rt0 <- read (View c 2);;
        updated_state <- alloc (Array2 [vint lm_new; c_I0; rt0]);;
        new_dataframe updated_state state_names) Q
      (at_copy c C_I Rt' h ig gs'
         ((fun _ => foldl (conv_step vals omega_I t) (Fin 0) (range t)) <$> lm)))
    as HRest.
  { intros vals Hvals Hobs.
    assert (foldl (conv_step vals omega_I t) (Fin 0) (range t)
            = intensity obs omega_I t) as ->.
    { destruct Hvals as [->|Ht]; [done|].
      unfold intensity, range. by replace (Z.to_nat t) with 0%nat by lia. }
    change ((fun _ : fval => intensity obs omega_I t) <$> lm)
      with (dthp_lm lm obs omega_I t).
    unfold at_copy.
    apply wp_bind. eapply wp_read_at; [apply lookup_insert_eq|done|]. cbn.
    apply wp_bind. eapply wp_read_at; [apply lookup_insert_eq|done|]. cbn.
    apply wp_bind. eapply wp_read_at; [apply lookup_insert_eq|done|]. cbn.
    change (zip_with3 (poisson_mean N) C_I Rt' (dthp_lm lm obs omega_I t))
      with means.
    apply wp_bind, wp_poisson; unfold thru.
    2:{ intros Hn. split; [apply Hframe|]. unfold dthp_good. tauto. }
    intros Hmeans. cbn.
    change (poisson_draws means ig)
      with (dthp_draws (World h ig gs) lm C_I Rt obs omega_I nu_beta t N).
    set (draws := dthp_draws _ lm C_I Rt obs omega_I nu_beta t N).
    apply wp_bind. eapply wp_update_at; [apply lookup_insert_eq|done|].
    cbn. rewrite insert_insert_eq.
    apply wp_bind. eapply wp_read_at; [apply lookup_insert_eq|done|]. cbn.
    apply wp_bind. eapply wp_read_at; [apply lookup_insert_eq|done|]. cbn.
    apply wp_bind, wp_alloc. intros l2 Hl2. cbn in Hl2 |- *.
    assert (l2 <> c) as Hne by (intros ->; by rewrite lookup_insert_eq in Hl2).
    rewrite lookup_insert_ne in Hl2 by done.
    apply wp_new_dataframe.
    - intros Hlen. split; cbn.
      + etrans; [apply (Hframe (Array2 [dthp_lm lm obs omega_I t;
                   vadd C_I (vint draws); Rt']))|].
        apply insert_subseteq. by rewrite lookup_insert_ne.
      + split; [done|]. split; [done|]. split; [done|].
        by rewrite lookup_insert_eq.
    - intros Hlen. split; cbn.
      + etrans; [apply (Hframe (Array2 [dthp_lm lm obs omega_I t;
                   vadd C_I (vint draws); Rt']))|].
        apply insert_subseteq. by rewrite lookup_insert_ne.
      + unfold dthp_good. tauto. }
  (* the convolution loop *)
  apply wp_bind.
  change (fun ti => (obs <- obs_of observed_data ;; o <- iloc obs ti ;;
            update (View c 0) (fmap (fun x => fadd x (fmul (Fin o) (kernel_value omega_I t ti))))))
    with (conv_body c observed_data omega_I t).
  change (World (<[c := Array2 [(fun _ : fval => Fin 0) <$> lm; C_I; Rt']]> h) ig gs')
    with (at_copy c C_I Rt' h ig gs' ((fun _ : fval => Fin 0) <$> lm)).
  destruct (decide (obs_available (World h ig gs) observed_data)) as [Hav|Hna].
  - destruct Hav as (s & vals & Hs & Hv).
    assert (obs = vals) as Hobs.
    { unfold obs, obs_values. by rewrite Hs, Hv. }
    eapply wp_conv_loop; [done|exact Hs|exact Hv| |]; unfold thru.
    + intros Hin. apply HRest; [by left|]. rewrite Hobs.
      intros Ht. split; [by exists s, vals|]. by apply range_in_bounds.
    + intros Hin a. apply HErr. intros (Hg & _).
      apply Hin, range_in_bounds. rewrite <- Hobs. intros Ht. by apply Hg.
  - apply wp_conv_loop_unavailable; [done|done| |]; unfold thru.
    + intros Hnil.
      assert (t <= 0)%Z as Ht.
      { unfold range in Hnil. destruct (Z.to_nat t) eqn:E; [lia|done]. }
      replace ((fun _ : fval => Fin 0) <$> lm)
        with ((fun _ : fval => foldl (conv_step obs omega_I t) (Fin 0) (range t)) <$> lm)
        by (by rewrite Hnil).
      apply HRest; [by left|lia].
    + intros Hnn e. apply HErr. intros (Hg & _).
      destruct Hg as [Hg _]; [|done].
      unfold range in Hnn. destruct (Z.to_nat t) eqn:E; [done|lia].
Qed.

End Runs.
Export Runs.

(** ** Runs that return, and runs that raise *)

Module Outcomes.
Local Open Scope R_scope.

Lemma wp_const {A} (m : M A) (P : Prop) w :
  P -> wp m (fun r _ => match r with Ok _ => P | Raise _ => True end) w.
Proof. intros HP. unfold wp. by destruct (run m w).1. Qed.

Lemma wp_cases {A} (m : M A) (Q : res A -> world -> Prop) w :
  wp m Q w -> exists r w', run m w = (r, w') /\ Q r w'.
Proof. unfold wp. destruct (run m w) as [r w'] eqn:E. eauto. Qed.

(** A SIR run that returns was given five variables and a [gamma]. *)
Lemma sir_ok_shape w y theta names dt l w' :
  run (stochastic_sir_model y theta names dt) w = (Ok l, w') ->
  exists S_ I_ R_ NI B gamma,
    heap w !! y = Some (Array2 [S_; I_; R_; NI; B]) /\
    dict_zip names theta !! "gamma" = Some gamma.
Proof.
  apply (wp_ok_elim _ (fun _ _ => _)). unfold stochastic_sir_model.
  apply wp_bind, wp_load_array; [|done]. intros vars Hy. unfold thru.
  destruct vars as [|S_ [|I_ [|R_ [|NI [|B [|]]]]]]; try done.
  apply wp_bind, wp_getitem; [|done]. intros gamma Hg. unfold thru.
  apply wp_const. by exists S_, I_, R_, NI, B, gamma.
Qed.

Lemma sir_ok_inv w y theta names dt l w' :
  run (stochastic_sir_model y theta names dt) w = (Ok l, w') ->
  exists S_ I_ R_ NI B gamma,
    heap w !! y = Some (Array2 [S_; I_; R_; NI; B]) /\
    dict_zip names theta !! "gamma" = Some gamma /\
    sir_good S_ I_ R_ B gamma dt /\
    heap w ⊆ heap w' /\ heap w !! l = None /\
    heap w' !! l =
      Some (Array2 (maximum0
        (sir_next w S_ I_ R_ B gamma
           (get (dict_zip names theta) "nu_beta" nu_beta_default) dt))).
Proof.
  intros Hrun.
  destruct (sir_ok_shape _ _ _ _ _ _ _ Hrun)
    as (S_ & I_ & R_ & NI & B & gamma & Hy & Hg).
  exists S_, I_, R_, NI, B, gamma.
  pose proof (sir_run_spec w y theta names dt _ _ _ _ _ _ Hy Hg) as H.
  unfold wp in H. rewrite Hrun in H. simpl in H. tauto.
Qed.

Lemma sir_returns w y theta names dt S_ I_ R_ NI B gamma :
  heap w !! y = Some (Array2 [S_; I_; R_; NI; B]) ->
  dict_zip names theta !! "gamma" = Some gamma ->
  sir_good S_ I_ R_ B gamma dt ->
  exists l w', run (stochastic_sir_model y theta names dt) w = (Ok l, w').
Proof.
  intros Hy Hg Hgood.
  destruct (wp_cases _ _ _ (sir_run_spec w y theta names dt _ _ _ _ _ _ Hy Hg))
    as ([l|e] & w' & Hrun & _ & H); [by eauto|]. tauto.
Qed.

(** A SIRS run that returns was given five variables, a [gamma] and a
    [nu_beta]. *)
Lemma sirs_ok_shape w y theta names dt l w' :
  run (stochastic_sirs_model y theta names dt) w = (Ok l, w') ->
  exists S_ I_ R_ NI B gamma nu_beta,
    heap w !! y = Some (Array2 [S_; I_; R_; NI; B]) /\
    dict_zip names theta !! "gamma" = Some gamma /\
    dict_zip names theta !! "nu_beta" = Some nu_beta.
Proof.
  apply (wp_ok_elim _ (fun _ _ => _)). unfold stochastic_sirs_model.
  apply wp_bind, wp_load_array; [|done]. intros vars Hy. unfold thru.
  destruct vars as [|S_ [|I_ [|R_ [|NI [|B [|]]]]]]; try done.
  apply wp_bind, wp_getitem; [|done]. intros gamma Hg. unfold thru.
  apply wp_bind, wp_getitem; [|done]. intros nu_beta Hnu. unfold thru.
  apply wp_const. by exists S_, I_, R_, NI, B, gamma, nu_beta.
Qed.

Lemma sirs_ok_inv w y theta names dt l w' :
  run (stochastic_sirs_model y theta names dt) w = (Ok l, w') ->
  exists S_ I_ R_ NI B gamma nu_beta,
    heap w !! y = Some (Array2 [S_; I_; R_; NI; B]) /\
    dict_zip names theta !! "gamma" = Some gamma /\
    dict_zip names theta !! "nu_beta" = Some nu_beta /\
    sirs_good S_ I_ R_ B gamma (get (dict_zip names theta) "alpha" 0) dt /\
    heap w ⊆ heap w' /\ heap w !! l = None /\
    heap w' !! l =
      Some (Array2 (maximum0
        (sirs_next w S_ I_ R_ B gamma
           (get (dict_zip names theta) "alpha" 0) nu_beta dt))).
Proof.
  intros Hrun.
  destruct (sirs_ok_shape _ _ _ _ _ _ _ Hrun)
    as (S_ & I_ & R_ & NI & B & gamma & nu_beta & Hy & Hg & Hnu).
  exists S_, I_, R_, NI, B, gamma, nu_beta.
  pose proof (sirs_run_spec w y theta names dt _ _ _ _ _ _ _ Hy Hg Hnu) as H.
  unfold wp in H. rewrite Hrun in H. simpl in H. tauto.
Qed.

Lemma sirs_returns w y theta names dt S_ I_ R_ NI B gamma nu_beta :
  heap w !! y = Some (Array2 [S_; I_; R_; NI; B]) ->
  dict_zip names theta !! "gamma" = Some gamma ->
  dict_zip names theta !! "nu_beta" = Some nu_beta ->
  sirs_good S_ I_ R_ B gamma (get (dict_zip names theta) "alpha" 0) dt ->
  exists l w', run (stochastic_sirs_model y theta names dt) w = (Ok l, w').
Proof.
  intros Hy Hg Hnu Hgood.
  destruct (wp_cases _ _ _
    (sirs_run_spec w y theta names dt _ _ _ _ _ _ _ Hy Hg Hnu))
    as ([l|e] & w' & Hrun & _ & H); [by eauto|]. tauto.
Qed.

(** A Hawkes run that returns was given three variables and an
    [omega_I]. *)
Lemma dthp_ok_shape w state theta sn tn od t N df w' :
  run (dthp_model state theta sn tn od t N) w = (Ok df, w') ->
  exists lm C_I Rt omega_I,
    heap w !! state = Some (Array2 [lm; C_I; Rt]) /\
    dict_zip tn theta !! "omega_I" = Some omega_I.
Proof.
  apply (wp_ok_elim _ (fun _ _ => _)). unfold dthp_model.
  apply wp_bind, wp_load_array; [|done]. intros vars Hy. unfold thru.
  apply wp_bind, wp_alloc. intros c Hc. unfold thru.
  destruct vars as [|lm [|C_I [|Rt [|]]]]; try done.
  apply wp_bind, wp_getitem; [|done]. intros omega_I Hom. unfold thru.
  apply wp_const. by exists lm, C_I, Rt, omega_I.
Qed.

Lemma dthp_ok_inv w state theta sn tn od t N df w' :
  run (dthp_model state theta sn tn od t N) w = (Ok df, w') ->
  exists lm C_I Rt omega_I,
    heap w !! state = Some (Array2 [lm; C_I; Rt]) /\
    dict_zip tn theta !! "omega_I" = Some omega_I /\
    dthp_good w sn od t
      (dthp_means w lm C_I Rt (obs_values w od) omega_I
         (get (dict_zip tn theta) "nu_beta" nu_beta_default) t N) /\
    columns df = sn /\
    heap w ⊆ heap w' /\ heap w !! values df = None /\
    heap w' !! values df =
      Some (Array2 (dthp_out w lm C_I Rt (obs_values w od) omega_I
                      (get (dict_zip tn theta) "nu_beta" nu_beta_default) t N)).
Proof.
  intros Hrun.
  destruct (dthp_ok_shape _ _ _ _ _ _ _ _ _ _ Hrun)
    as (lm & C_I & Rt & omega_I & Hy & Hom).
  exists lm, C_I, Rt, omega_I.
  pose proof (dthp_run_spec w state theta sn tn od t N _ _ _ _ Hy Hom) as H.
  unfold wp in H. rewrite Hrun in H. simpl in H. tauto.
Qed.

Lemma dthp_returns w state theta sn tn od t N lm C_I Rt omega_I :
  heap w !! state = Some (Array2 [lm; C_I; Rt]) ->
  dict_zip tn theta !! "omega_I" = Some omega_I ->
  dthp_good w sn od t
    (dthp_means w lm C_I Rt (obs_values w od) omega_I
       (get (dict_zip tn theta) "nu_beta" nu_beta_default) t N) ->
  exists df w', run (dthp_model state theta sn tn od t N) w = (Ok df, w').
Proof.
  intros Hy Hom Hgood.
  destruct (wp_cases _ _ _
    (dthp_run_spec w state theta sn tn od t N _ _ _ _ Hy Hom))
    as ([df|e] & w' & Hrun & _ & H); [by eauto|]. tauto.
Qed.

(** With an unacceptable call, the Hawkes kernel raises. *)
Lemma dthp_raises w state theta sn tn od t N lm C_I Rt omega_I :
  heap w !! state = Some (Array2 [lm; C_I; Rt]) ->
  dict_zip tn theta !! "omega_I" = Some omega_I ->
  ~ dthp_good w sn od t
      (dthp_means w lm C_I Rt (obs_values w od) omega_I
         (get (dict_zip tn theta) "nu_beta" nu_beta_default) t N) ->
  exists e w', run (dthp_model state theta sn tn od t N) w = (Raise e, w').
Proof.
  intros Hy Hom Hbad.
  destruct (wp_cases _ _ _
    (dthp_run_spec w state theta sn tn od t N _ _ _ _ Hy Hom))
    as ([df|e] & w' & Hrun & _ & H); [tauto|by eauto].
Qed.

End Outcomes.
Export Outcomes.
(** ** Rounding to binary64 *)


Module FloatFacts.
Local Open Scope R_scope.

Lemma bpow_pos e : 0 < bpow e.
Proof. apply powerRZ_lt. lra. Qed.

Lemma bpow_add a b : bpow (a + b) = bpow a * bpow b.
Proof. apply powerRZ_add. lra. Qed.

Lemma bpow_opp e : bpow (- e) = / bpow e.
Proof. apply powerRZ_neg'. Qed.

Lemma bpow_0 : bpow 0 = 1.
Proof. reflexivity. Qed.

Lemma bpow_exp e : bpow e = exp (IZR e * ln 2).
Proof. unfold bpow. rewrite powerRZ_Rpower by lra. reflexivity. Qed.

Lemma ln2_pos : 0 < ln 2.
Proof. pose proof ln_lt_2. lra. Qed.

Lemma bpow_lt a b : (a < b)%Z -> bpow a < bpow b.
Proof.
  intros H. rewrite !bpow_exp. apply exp_increasing.
  apply Rmult_lt_compat_r; [apply ln2_pos|]. by apply IZR_lt.
Qed.

Lemma bpow_le a b : (a <= b)%Z -> bpow a <= bpow b.
Proof.
  intros H. destruct (Z.eq_dec a b) as [->|Hne]; [lra|].
  left. apply bpow_lt. lia.
Qed.

Lemma bpow_lt_inv a b : bpow a < bpow b -> (a < b)%Z.
Proof.
  intros H. destruct (Z_lt_le_dec a b) as [|Hle]; [done|].
  apply bpow_le in Hle. lra.
Qed.

Lemma bpow_le_inv a b : bpow a <= bpow b -> (a <= b)%Z.
Proof.
  intros H. destruct (Z_le_gt_dec a b) as [|Hgt]; [done|].
  assert (b < a)%Z as Hlt by lia. apply bpow_lt in Hlt. lra.
Qed.

Lemma bpow_IZR e : (0 <= e)%Z -> bpow e = IZR (2 ^ e).
Proof.
  intros He. unfold bpow. rewrite <- (Z2Nat.id e) by done.
  rewrite <- pow_powerRZ, pow_IZR. done.
Qed.

Lemma bpow_1 : bpow 1 = 2.
Proof. rewrite bpow_IZR by lia. reflexivity. Qed.

Lemma bpow_plus_1 e : bpow (e + 1) = 2 * bpow e.
Proof. rewrite bpow_add, bpow_1. ring. Qed.

Lemma bpow_mul_opp e : bpow e * bpow (- e) = 1.
Proof. rewrite <- bpow_add, Z.add_opp_diag_r. apply bpow_0. Qed.

(** ** The magnitude of a real number *)

Lemma mag_spec x : x <> 0 -> bpow (mag x - 1) <= Rabs x < bpow (mag x).
Proof.
  intros Hx. assert (0 < Rabs x) as Hpos by (by apply Rabs_pos_lt).
  unfold mag. set (L := ln (Rabs x) / ln 2).
  pose proof (Zfloor_bound L) as [Hlo Hhi].
  pose proof ln2_pos as H2.
  assert (ln (Rabs x) = L * ln 2) as HL by (unfold L; field; lra).
  assert (Rabs x = exp (L * ln 2)) as HE by (by rewrite <- HL, exp_ln).
  clearbody L. rewrite HE, !bpow_exp.
  replace (Zfloor L + 1 - 1)%Z with (Zfloor L) by lia.
  rewrite plus_IZR. split.
  - destruct Hlo as [Hlo|Hlo].
    + left. apply exp_increasing. by apply Rmult_lt_compat_r.
    + rewrite Hlo. lra.
  - apply exp_increasing. apply Rmult_lt_compat_r; [done|]. simpl. lra.
Qed.

Lemma mag_le_bound x e : x <> 0 -> Rabs x < bpow e -> (mag x <= e)%Z.
Proof.
  intros Hx Hlt. destruct (mag_spec x Hx) as [Hlo _].
  assert (bpow (mag x - 1) < bpow e) as H by lra.
  apply bpow_lt_inv in H. lia.
Qed.

Lemma mag_ge_bound x e : bpow (e - 1) <= Rabs x -> (e <= mag x)%Z.
Proof.
  intros Hle.
  assert (x <> 0) as Hx.
  { intros ->. rewrite Rabs_R0 in Hle. pose proof (bpow_pos (e - 1)). lra. }
  destruct (mag_spec x Hx) as [_ Hhi].
  assert (bpow (e - 1) < bpow (mag x)) as H by lra.
  apply bpow_lt_inv in H. lia.
Qed.

Lemma mag_unique x e : bpow (e - 1) <= Rabs x < bpow e -> mag x = e.
Proof.
  intros [Hlo Hhi]. pose proof (mag_ge_bound x e Hlo).
  assert (x <> 0) as Hx.
  { intros ->. rewrite Rabs_R0 in Hlo. pose proof (bpow_pos (e - 1)). lra. }
  pose proof (mag_le_bound x e Hx Hhi). lia.
Qed.

(** ** Rounding to the nearest integer, ties to even *)

Lemma Znearest_even_cases r :
  (Znearest_even r = Zfloor r /\ r - IZR (Zfloor r) <= 1 / 2) \/
  (Znearest_even r = (Zfloor r + 1)%Z /\ 1 / 2 <= r - IZR (Zfloor r)).
Proof.
  unfold Znearest_even. repeat case_decide; try (left; split; [done|lra]);
    try (right; split; [done|lra]).
  destruct (Z.even (Zfloor r)); [left|right]; split; try done; lra.
Qed.

Lemma Znearest_even_nearest r k :
  Rabs (IZR (Znearest_even r) - r) <= Rabs (IZR k - r).
Proof.
  pose proof (Zfloor_bound r) as [Hlo Hhi].
  assert (IZR k <= IZR (Zfloor r) \/ IZR (Zfloor r) + 1 <= IZR k) as Hk.
  { destruct (Z_le_gt_dec k (Zfloor r)) as [H|H].
    - left. by apply IZR_le.
    - right. rewrite <- (plus_IZR _ 1). apply IZR_le. lia. }
  destruct (Znearest_even_cases r) as [[-> Hd]|[-> Hd]];
    rewrite ?plus_IZR; unfold Rabs; repeat destruct Rcase_abs; simpl in *; lra.
Qed.

Lemma Znearest_even_err r : Rabs (IZR (Znearest_even r) - r) <= 1 / 2.
Proof.
  pose proof (Zfloor_bound r) as [Hlo Hhi].
  destruct (Znearest_even_cases r) as [[-> Hd]|[-> Hd]];
    rewrite ?plus_IZR; unfold Rabs; repeat destruct Rcase_abs; simpl in *; lra.
Qed.

Lemma Znearest_even_IZR k : Znearest_even (IZR k) = k.
Proof.
  pose proof (Znearest_even_nearest (IZR k) k) as H.
  rewrite Rminus_diag, Rabs_R0 in H.
  pose proof (Rabs_pos (IZR (Znearest_even (IZR k)) - IZR k)) as H'.
  assert (Rabs (IZR (Znearest_even (IZR k)) - IZR k) = 0) as H0 by lra.
  destruct (Req_dec (IZR (Znearest_even (IZR k)) - IZR k) 0) as [E|E].
  - apply eq_IZR. lra.
  - apply Rabs_no_R0 in E. done.
Qed.


(** ** Rounding to the format *)

Lemma cexp_ge x : (-1074 <= cexp x)%Z.
Proof. unfold cexp. lia. Qed.

Lemma cexp_mag x : (mag x - 53 <= cexp x)%Z.
Proof. unfold cexp. lia. Qed.

Lemma Rabs_bpow e : Rabs (bpow e) = bpow e.
Proof. apply Rabs_pos_eq. left. apply bpow_pos. Qed.

Lemma round_0 : round 0 = 0.
Proof.
  unfold round. rewrite Rmult_0_l. change 0 with (IZR 0) at 1.
  rewrite Znearest_even_IZR. simpl. ring.
Qed.

Lemma scaled_mul x c : x * bpow (- c) * bpow c = x.
Proof. rewrite Rmult_assoc, (Rmult_comm (bpow (- c))), bpow_mul_opp. ring. Qed.

(** The rounded value is at least as near as any multiple of the unit of
    the binade. *)
Lemma round_multiple x k :
  Rabs (round x - x) <= Rabs (IZR k * bpow (cexp x) - x).
Proof.
  unfold round. set (c := cexp x). set (s := x * bpow (- c)).
  assert (x = s * bpow c) as Hx by (symmetry; apply scaled_mul).
  clearbody s c. subst x.
  replace (IZR (Znearest_even s) * bpow c - s * bpow c)
    with ((IZR (Znearest_even s) - s) * bpow c) by ring.
  replace (IZR k * bpow c - s * bpow c) with ((IZR k - s) * bpow c) by ring.
  rewrite !Rabs_mult, Rabs_bpow.
  apply Rmult_le_compat_r; [left; apply bpow_pos|].
  apply Znearest_even_nearest.
Qed.


Lemma format_0 : format 0.
Proof. exists 0%Z, 0%Z. split; [simpl; ring|]. split; lia. Qed.

Lemma Rabs_IZR_lt m k : (Z.abs m < k)%Z -> Rabs (IZR m) < IZR k.
Proof. intros H. rewrite <- abs_IZR. by apply IZR_lt. Qed.

Lemma format_bound m e :
  (Z.abs m < 2 ^ 53)%Z -> Rabs (IZR m * bpow e) < bpow (53 + e).
Proof.
  intros Hm. rewrite Rabs_mult, Rabs_bpow, bpow_add, (bpow_IZR 53) by lia.
  apply Rmult_lt_compat_r; [apply bpow_pos|]. by apply Rabs_IZR_lt.
Qed.

(** A number of the format is a multiple of the unit of its binade. *)
Lemma format_cexp z : format z -> exists k, z = IZR k * bpow (cexp z).
Proof.
  intros (m & e & Hz & Hm & He).
  destruct (decide (m = 0%Z)) as [->|Hm0].
  { exists 0%Z. rewrite Hz. simpl. ring. }
  assert (z <> 0) as Hz0.
  { rewrite Hz. apply Rmult_integral_contrapositive_currified.
    - by apply not_0_IZR.
    - pose proof (bpow_pos e). lra. }
  assert (cexp z <= e)%Z as Hc.
  { pose proof (mag_le_bound z (53 + e) Hz0) as H.
    rewrite Hz in H at 1. specialize (H (format_bound m e Hm)).
    unfold cexp. lia. }
  exists (m * 2 ^ (e - cexp z))%Z.
  rewrite mult_IZR, <- bpow_IZR by lia.
  rewrite Rmult_assoc, <- bpow_add.
  replace (e - cexp z + cexp z)%Z with e by lia. done.
Qed.

Lemma round_id z : format z -> round z = z.
Proof.
  intros Hf. destruct (format_cexp z Hf) as [k Hk].
  assert (z * bpow (- cexp z) = IZR k) as Hs.
  { rewrite Hk at 1. rewrite Rmult_assoc, bpow_mul_opp. ring. }
  unfold round. rewrite Hs, Znearest_even_IZR. by symmetry.
Qed.

Lemma scaled_bound x : x <> 0 -> Rabs (x * bpow (- cexp x)) < bpow 53.
Proof.
  intros Hx. destruct (mag_spec x Hx) as [_ Hhi].
  rewrite Rabs_mult, Rabs_bpow.
  assert (bpow (- cexp x) <= bpow (53 - mag x)) as Hle.
  { apply bpow_le. pose proof (cexp_mag x). lia. }
  replace 53%Z with (mag x + (53 - mag x))%Z by lia. rewrite bpow_add.
  pose proof (bpow_pos (- cexp x)). pose proof (bpow_pos (53 - mag x)).
  pose proof (Rabs_pos x).
  apply Rle_lt_trans with (Rabs x * bpow (53 - mag x)).
  - by apply Rmult_le_compat_l.
  - by apply Rmult_lt_compat_r.
Qed.

Lemma round_format x : format (round x).
Proof.
  destruct (Req_dec x 0) as [->|Hx]; [rewrite round_0; apply format_0|].
  unfold round. set (c := cexp x). set (s := x * bpow (- c)).
  set (n := Znearest_even s).
  assert (Z.abs n <= 2 ^ 53)%Z as Hn.
  { pose proof (scaled_bound x Hx) as Hs. fold c s in Hs.
    pose proof (Znearest_even_err s) as He. fold n in He.
    rewrite (bpow_IZR 53) in Hs by lia.
    assert (IZR (Z.abs n) < IZR (2 ^ 53 + 1)) as H.
    { rewrite abs_IZR, plus_IZR.
      unfold Rabs in *. repeat destruct Rcase_abs; simpl in *; lra. }
    apply lt_IZR in H. lia. }
  destruct (decide (Z.abs n < 2 ^ 53)%Z) as [Hlt|Hge].
  { exists n, c. split; [done|]. split; [done|apply cexp_ge]. }
  assert (n = 2 ^ 53 \/ n = - 2 ^ 53)%Z as [->| ->] by lia.
  - exists (2 ^ 52)%Z, (c + 1)%Z. rewrite bpow_plus_1.
    replace (2 ^ 53)%Z with (2 * 2 ^ 52)%Z by lia. rewrite mult_IZR.
    split; [ring|]. pose proof (cexp_ge x). fold c in H. split; lia.
  - exists (- 2 ^ 52)%Z, (c + 1)%Z. rewrite bpow_plus_1.
    replace (- 2 ^ 53)%Z with (2 * - 2 ^ 52)%Z by lia. rewrite mult_IZR.
    split; [ring|]. pose proof (cexp_ge x). fold c in H. split; lia.
Qed.

(** The rounded value is a nearest number of the format. *)
Lemma round_nearest x z : format z -> Rabs (round x - x) <= Rabs (z - x).
Proof.
  intros (m & e & Hz & Hm & He).
  destruct (Req_dec x 0) as [->|Hx].
  { rewrite round_0, Rminus_diag, Rabs_R0. apply Rabs_pos. }
  set (c := cexp x).
  destruct (Z_le_gt_dec c e) as [Hce|Hce].
  { pose proof (round_multiple x (m * 2 ^ (e - c))) as H. fold c in H.
    rewrite mult_IZR, <- bpow_IZR, Rmult_assoc, <- bpow_add in H by lia.
    replace (e - c + c)%Z with e in H by lia. by rewrite Hz. }
  assert (c = mag x - 53)%Z as Hc by (unfold c, cexp in *; lia).
  destruct (mag_spec x Hx) as [Hlo _].
  assert (Rabs z < bpow (mag x - 1)) as Hzx.
  { rewrite Hz. eapply Rlt_le_trans; [by apply format_bound|].
    apply bpow_le. lia. }
  assert (bpow (mag x - 1) = IZR (2 ^ 52) * bpow c) as Hw.
  { rewrite <- bpow_IZR, <- bpow_add by lia. f_equal. lia. }
  destruct (Rcase_abs x) as [Hneg|Hpos].
  - pose proof (round_multiple x (- 2 ^ 52)) as H. fold c in H.
    rewrite opp_IZR, Ropp_mult_distr_l_reverse, <- Hw in H.
    rewrite (Rabs_left x) in Hlo by done.
    eapply Rle_trans; [exact H|].
    unfold Rabs in *. repeat destruct Rcase_abs; lra.
  - pose proof (round_multiple x (2 ^ 52)) as H. fold c in H.
    rewrite <- Hw in H.
    rewrite (Rabs_right x) in Hlo by done.
    eapply Rle_trans; [exact H|].
    unfold Rabs in *. repeat destruct Rcase_abs; lra.
Qed.

Lemma round_mono x y : x <= y -> round x <= round y.
Proof.
  intros Hxy. destruct (Rle_lt_dec (round x) (round y)) as [|Hlt]; [done|].
  exfalso.
  pose proof (round_nearest x (round y) (round_format y)) as H1.
  pose proof (round_nearest y (round x) (round_format x)) as H2.
  assert (x = y) as E.
  { unfold Rabs in *. repeat destruct Rcase_abs; lra. }
  subst. lra.
Qed.

Lemma round_nonneg x : 0 <= x -> 0 <= round x.
Proof. intros H. rewrite <- round_0. by apply round_mono. Qed.

Lemma round_nonpos x : x <= 0 -> round x <= 0.
Proof. intros H. rewrite <- round_0. by apply round_mono. Qed.

Lemma round_le_float x b : format b -> x <= b -> round x <= b.
Proof. intros Hb H. rewrite <- (round_id b Hb). by apply round_mono. Qed.

Lemma round_ge_float x b : format b -> b <= x -> b <= round x.
Proof. intros Hb H. rewrite <- (round_id b Hb). by apply round_mono. Qed.


(** Underflow: what is below half the least positive number rounds to 0. *)
Lemma round_small x : Rabs x < bpow (- 1075) -> round x = 0.
Proof.
  intros Hs. destruct (Req_dec x 0) as [->|Hx]; [apply round_0|].
  assert (cexp x = - 1074)%Z as Hc.
  { pose proof (mag_le_bound x _ Hx Hs). unfold cexp. lia. }
  unfold round. rewrite Hc. set (s := x * bpow (- - 1074)).
  assert (Rabs s < 1 / 2) as Hs2.
  { unfold s. rewrite Rabs_mult, Rabs_bpow.
    replace (1 / 2) with (bpow (- 1075) * bpow (- - 1074)).
    - apply Rmult_lt_compat_r; [apply bpow_pos|done].
    - rewrite <- bpow_add. replace (- 1075 + - - 1074)%Z with (- 1)%Z by lia.
      unfold bpow, powerRZ. simpl. lra. }
  pose proof (Znearest_even_nearest s 0) as Hn. simpl in Hn.
  assert (Znearest_even s = 0%Z) as ->; [|simpl; ring].
  assert (-1 < IZR (Znearest_even s) < 1) as [H1 H2].
  { unfold Rabs in *. repeat destruct Rcase_abs; lra. }
  apply lt_IZR in H1, H2. lia.
Qed.


(** ** Binary64 numbers *)

Lemma is_float_format z : is_float z -> format z.
Proof. intros (m & e & Hz & Hm & He). exists m, e. repeat split; [done..|lia]. Qed.

Lemma is_float_bound z : is_float z -> Rabs z < bpow 1024.
Proof.
  intros (m & e & -> & Hm & He).
  eapply Rlt_le_trans; [by apply format_bound|]. apply bpow_le. lia.
Qed.

Lemma format_is_float z : format z -> Rabs z < bpow 1024 -> is_float z.
Proof.
  intros (m & e & Hz & Hm & He) Hb.
  destruct (Z_le_gt_dec e 971) as [Hle|Hgt]; [by exists m, e|].
  exists (m * 2 ^ (e - 971))%Z, 971%Z.
  assert (z = IZR (m * 2 ^ (e - 971)) * bpow 971) as Hz'.
  { rewrite mult_IZR, <- bpow_IZR, Rmult_assoc, <- bpow_add by lia.
    replace (e - 971 + 971)%Z with e by lia. done. }
  split; [done|]. split; [|lia].
  rewrite Hz', Rabs_mult, Rabs_bpow in Hb.
  replace 1024%Z with (53 + 971)%Z in Hb by lia. rewrite bpow_add in Hb.
  apply Rmult_lt_reg_r in Hb; [|apply bpow_pos].
  rewrite <- abs_IZR, bpow_IZR in Hb by lia. by apply lt_IZR in Hb.
Qed.

Lemma is_float_dyadic m e :
  (Z.abs m < 2 ^ 53)%Z -> (-1074 <= e <= 971)%Z -> is_float (IZR m * bpow e).
Proof. intros Hm He. by exists m, e. Qed.

Lemma is_float_IZR k : (Z.abs k <= 2 ^ 53)%Z -> is_float (IZR k).
Proof.
  intros Hk. destruct (decide (Z.abs k < 2 ^ 53)%Z) as [Hlt|Hge].
  { exists k, 0%Z. rewrite bpow_0. split; [ring|]. split; [done|lia]. }
  assert (k = 2 * (k / 2))%Z as Hk2.
  { assert (k = 2 ^ 53 \/ k = - 2 ^ 53)%Z as [->| ->] by lia; reflexivity. }
  exists (k / 2)%Z, 1%Z. rewrite bpow_1.
  split; [rewrite Hk2 at 1; rewrite mult_IZR; ring|]. split; [|lia].
  assert (k = 2 ^ 53 \/ k = - 2 ^ 53)%Z as [->| ->] by lia; reflexivity.
Qed.

Lemma is_float_0 : is_float 0.
Proof. apply (is_float_IZR 0). lia. Qed.

Lemma is_float_1 : is_float 1.
Proof. apply (is_float_IZR 1). lia. Qed.

Lemma is_float_opp x : is_float x -> is_float (- x).
Proof.
  intros (m & e & -> & Hm & He). exists (- m)%Z, e.
  rewrite opp_IZR. split; [ring|]. split; [lia|done].
Qed.

Lemma is_float_bpow e : (-1074 <= e <= 1023)%Z -> is_float (bpow e).
Proof.
  intros He. destruct (Z_le_gt_dec e 971) as [Hle|Hgt].
  - exists 1%Z, e. split; [ring|]. split; lia.
  - exists (2 ^ (e - 971))%Z, 971%Z.
    rewrite <- bpow_IZR, <- bpow_add by lia.
    split; [f_equal; lia|]. split; [|lia].
    rewrite Z.abs_eq by (apply Z.pow_nonneg; lia).
    apply Z.pow_lt_mono_r; lia.
Qed.

(** ** Rounding with overflow *)

Lemma rnd_cases x :
  (rnd x = Fin (round x) /\ Rabs (round x) < bpow 1024) \/
  (rnd x = PInf /\ bpow 1024 <= round x) \/
  (rnd x = NInf /\ round x <= - bpow 1024).
Proof.
  unfold rnd. case_decide as H; [by left|]. right.
  case_decide as H0; [left|right]; (split; [done|]);
    unfold Rabs in H; destruct Rcase_abs; lra.
Qed.

Lemma rnd_not_nan x : rnd x <> NaN.
Proof. unfold rnd. by repeat case_decide. Qed.

Lemma rnd_float x : is_float x -> rnd x = Fin x.
Proof.
  intros Hf. pose proof (is_float_bound x Hf).
  unfold rnd. rewrite (round_id x) by (by apply is_float_format).
  by rewrite decide_True.
Qed.


(** Within the range of a binary64 number, rounding does not overflow. *)
Lemma rnd_bounded x b :
  is_float b -> Rabs x <= b ->
  rnd x = Fin (round x) /\ is_float (round x) /\ Rabs (round x) <= b.
Proof.
  intros Hb Hx.
  assert (- b <= round x <= b) as [H1 H2].
  { split.
    - apply round_ge_float; [by apply is_float_format, is_float_opp|].
      unfold Rabs in Hx. destruct Rcase_abs; lra.
    - apply round_le_float; [by apply is_float_format|].
      unfold Rabs in Hx. destruct Rcase_abs; lra. }
  assert (Rabs (round x) <= b) as Hr
    by (unfold Rabs; destruct Rcase_abs; lra).
  pose proof (is_float_bound b Hb) as Hbb.
  assert (0 <= b) by (pose proof (Rabs_pos x); lra).
  rewrite (Rabs_pos_eq b) in Hbb by done.
  assert (Rabs (round x) < bpow 1024) as Hlt by lra.
  split; [unfold rnd; by rewrite decide_True|].
  split; [|done]. apply format_is_float; [apply round_format|done].
Qed.

Lemma rnd_0 : rnd 0 = Fin 0.
Proof. apply rnd_float, is_float_0. Qed.

Lemma rnd_1 : rnd 1 = Fin 1.
Proof. apply rnd_float, is_float_1. Qed.

End FloatFacts.
Export FloatFacts.

(** ** The arithmetic of binary64 values *)

Module Arith.
Local Open Scope R_scope.

Lemma Rabs_le_inv x b : Rabs x <= b -> - b <= x <= b.
Proof. unfold Rabs. destruct (Rcase_abs x); lra. Qed.

Lemma bpow_pos_IZR e : (0 <= e)%Z -> bpow e = IZR (2 ^ e).
Proof. apply bpow_IZR. Qed.

Lemma bpow_neg_2 : bpow (- 2) = 1 / 4.
Proof. unfold bpow, powerRZ. simpl. lra. Qed.

Lemma bpow_neg_1 : bpow (- 1) = 1 / 2.
Proof. unfold bpow, powerRZ. simpl. lra. Qed.

Lemma bpow_neg_3 : bpow (- 3) = 1 / 8.
Proof. unfold bpow, powerRZ. simpl. lra. Qed.

Lemma is_float_quarter : is_float (1 / 4).
Proof. rewrite <- bpow_neg_2. by apply is_float_bpow. Qed.

Lemma is_float_half : is_float (1 / 2).
Proof. rewrite <- bpow_neg_1. by apply is_float_bpow. Qed.

Lemma is_float_eighth : is_float (1 / 8).
Proof. rewrite <- bpow_neg_3. by apply is_float_bpow. Qed.

Lemma rnd_IZR k : (Z.abs k <= 2 ^ 53)%Z -> rnd (IZR k) = Fin (IZR k).
Proof. intros Hk. by apply rnd_float, is_float_IZR. Qed.

(** Rounding keeps the sign. *)
Lemma rnd_nonneg x : 0 <= x -> nonneg (rnd x).
Proof.
  intros Hx. pose proof (round_nonneg x Hx) as Hr.
  destruct (rnd_cases x) as [[-> _]|[[-> _]|[-> Hn]]]; simpl; try done.
  pose proof (bpow_pos 1024). lra.
Qed.

Lemma rnd_nonpos x : x <= 0 -> nonpos (rnd x).
Proof.
  intros Hx. pose proof (round_nonpos x Hx) as Hr.
  destruct (rnd_cases x) as [[-> _]|[[-> Hp]|[-> _]]]; simpl; try done.
  pose proof (bpow_pos 1024). lra.
Qed.

Lemma rnd_bounded_fin x b :
  is_float b -> Rabs x <= b -> bounded b (rnd x).
Proof.
  intros Hb Hx. destruct (rnd_bounded x b Hb Hx) as (-> & _ & H). done.
Qed.

(** Rounding between two numbers of the format. *)
Lemma rnd_between x a b :
  is_float a -> is_float b -> a <= x <= b ->
  exists y, rnd x = Fin y /\ a <= y <= b /\ is_float y.
Proof.
  intros Ha Hb [H1 H2].
  pose proof (round_ge_float x a (is_float_format _ Ha) H1) as Hl.
  pose proof (round_le_float x b (is_float_format _ Hb) H2) as Hu.
  pose proof (is_float_bound _ Ha) as Ba. pose proof (is_float_bound _ Hb) as Bb.
  assert (Rabs (round x) < bpow 1024) as Hlt.
  { apply Rabs_def1; [apply Rabs_def2 in Bb; lra|apply Rabs_def2 in Ba; lra]. }
  exists (round x). split; [|split; [lra|]].
  - destruct (rnd_cases x) as [[-> _]|[[_ Hp]|[_ Hn]]]; [done| |];
      apply Rabs_def2 in Hlt; lra.
  - apply format_is_float; [apply round_format|done].
Qed.

Lemma rnd_ge_float x b : is_float b -> b <= x -> fle (Fin b) (rnd x).
Proof.
  intros Hb Hx.
  pose proof (round_ge_float x b (is_float_format _ Hb) Hx) as Hl.
  destruct (rnd_cases x) as [[-> _]|[[-> _]|[-> Hn]]]; simpl; try done.
  pose proof (is_float_bound _ Hb) as Bb. apply Rabs_def2 in Bb. lra.
Qed.

Lemma rnd_overflow x : bpow 1024 <= x -> rnd x = PInf.
Proof.
  intros Hx.
  assert (format (bpow 1024)) as Hf.
  { exists 1%Z, 1024%Z. split; [lra|]. split; [done|lia]. }
  pose proof (round_ge_float x _ Hf Hx) as Hl.
  destruct (rnd_cases x) as [[_ H]|[[-> _]|[_ Hn]]]; [|done|].
  - apply Rabs_def2 in H. lra.
  - pose proof (bpow_pos 1024). lra.
Qed.

(** What is below half the least positive number becomes zero. *)
Lemma rnd_underflow x : Rabs x < bpow (- 1075) -> rnd x = Fin 0.
Proof.
  intros Hx. pose proof (round_small x Hx) as H0.
  destruct (rnd_cases x) as [[-> _]|[[_ H]|[_ H]]]; [by rewrite H0| |];
    rewrite H0 in H; pose proof (bpow_pos 1024); lra.
Qed.

(** An odd whole number between 2 ** 53 and 2 ** 54 is halfway between two
    numbers of the format and is rounded to the one whose significand is
    even. *)
Lemma round_tie k :
  (2 ^ 52 <= k < 2 ^ 53)%Z ->
  round (IZR (2 * k + 1)) = IZR (if Z.even k then 2 * k else 2 * k + 2).
Proof.
  intros Hk.
  assert (IZR (2 * k + 1) = 2 * IZR k + 1) as Hx
    by (rewrite plus_IZR, mult_IZR; lra).
  assert (IZR (2 ^ 52) <= IZR k < IZR (2 ^ 53)) as [Hlo Hhi]
    by (split; [apply IZR_le|apply IZR_lt]; lia).
  assert (IZR (2 ^ 53) = 2 * IZR (2 ^ 52)) as H53
    by (rewrite <- mult_IZR; f_equal).
  assert (IZR k + 1 <= IZR (2 ^ 53)) as Hhi'
    by (rewrite <- plus_IZR; apply IZR_le; lia).
  assert (1 <= IZR (2 ^ 52)) as H52 by (apply IZR_le; lia).
  assert (mag (IZR (2 * k + 1)) = 54%Z) as Hm.
  { apply mag_unique. replace (54 - 1)%Z with 53%Z by lia.
    rewrite Rabs_pos_eq by lra. rewrite (bpow_IZR 53) by lia.
    replace 54%Z with (53 + 1)%Z by lia. rewrite bpow_plus_1.
    rewrite (bpow_IZR 53) by lia. lra. }
  unfold round, cexp. rewrite Hm.
  replace (Z.max (54 - 53) (-1074)) with 1%Z by lia.
  assert (IZR (2 * k + 1) * bpow (- (1)) = IZR k + 1 / 2) as ->.
  { change (bpow (- (1))) with (bpow (-1)). rewrite bpow_neg_1. lra. }
  unfold Znearest_even. cbv zeta.
  rewrite (Zfloor_eq k) by lra.
  rewrite decide_False by lra. rewrite decide_False by lra.
  rewrite bpow_1. destruct (Z.even k).
  - rewrite mult_IZR. lra.
  - rewrite !plus_IZR, mult_IZR. lra.
Qed.

Lemma is_float_even k : (Z.abs k < 2 ^ 53)%Z -> is_float (IZR (2 * k)).
Proof.
  intros Hk. rewrite mult_IZR, Rmult_comm, <- bpow_1.
  apply is_float_dyadic; [done|lia].
Qed.

Lemma rnd_tie k :
  (2 ^ 52 <= k < 2 ^ 53 - 1)%Z ->
  rnd (IZR (2 * k + 1)) = Fin (IZR (if Z.even k then 2 * k else 2 * k + 2)).
Proof.
  intros Hk.
  assert (is_float (IZR (if Z.even k then 2 * k else 2 * k + 2))) as Hf.
  { destruct (Z.even k); [apply is_float_even; lia|].
    replace (2 * k + 2)%Z with (2 * (k + 1))%Z by lia.
    apply is_float_even. lia. }
  apply is_float_bound in Hf as Hb.
  destruct (rnd_cases (IZR (2 * k + 1))) as [[-> _]|[[_ H]|[_ H]]];
    rewrite round_tie in * by lia; [done| |]; apply Rabs_def2 in Hb; lra.
Qed.

(** nan comes from nan, from a difference of infinities, from a product of
    zero and an infinity or from a quotient of zeros or of infinities. *)

Lemma fadd_nan_inv a b : fadd a b <> NaN -> a <> NaN /\ b <> NaN.
Proof. destruct a, b; unfold fadd; intros H; split; congruence. Qed.

Lemma fsub_nan_inv a b : fsub a b <> NaN -> a <> NaN /\ b <> NaN.
Proof. destruct a, b; unfold fsub; intros H; split; congruence. Qed.

Lemma fmul_nan_inv a b : fmul a b <> NaN -> a <> NaN /\ b <> NaN.
Proof. destruct a, b; unfold fmul; intros H; split; congruence. Qed.

Lemma fdiv_nan_inv a b : fdiv a b <> NaN -> a <> NaN /\ b <> NaN.
Proof. destruct a, b; unfold fdiv; intros H; split; congruence. Qed.

Lemma fexp_nan_inv a : fexp a <> NaN -> a <> NaN.
Proof. destruct a; unfold fexp; congruence. Qed.

Lemma fneg_nan_inv a : fneg a <> NaN -> a <> NaN.
Proof. destruct a; unfold fneg; congruence. Qed.

Lemma finite_not_nan a : finite a -> a <> NaN.
Proof. by destruct a. Qed.

Lemma bounded_finite b a : bounded b a -> finite a.
Proof. by destruct a. Qed.

Lemma nonneg_not_nan a : nonneg a -> a <> NaN.
Proof. by destruct a. Qed.

Lemma fadd_fin_not_nan a b :
  finite a \/ finite b -> a <> NaN -> b <> NaN -> fadd a b <> NaN.
Proof.
  destruct a, b; unfold fadd; simpl; intros [H|H] Ha Hb; try done;
    apply rnd_not_nan.
Qed.

Lemma fsub_fin_not_nan a b :
  finite a \/ finite b -> a <> NaN -> b <> NaN -> fsub a b <> NaN.
Proof.
  destruct a, b; unfold fsub; simpl; intros [H|H] Ha Hb; try done;
    apply rnd_not_nan.
Qed.

Lemma fmul_fin_not_nan a b : finite a -> finite b -> fmul a b <> NaN.
Proof. destruct a, b; unfold fmul; simpl; try done. intros. apply rnd_not_nan. Qed.

(** Bounds through the operations. *)

Lemma fadd_bounded b1 b2 b a c :
  bounded b1 a -> bounded b2 c -> is_float b -> b1 + b2 <= b ->
  bounded b (fadd a c).
Proof.
  destruct a as [x| | |], c as [y| | |]; simpl; try done.
  intros Hx Hy Hb Hle. unfold fadd. apply rnd_bounded_fin; [done|].
  pose proof (Rabs_triang x y). lra.
Qed.

Lemma fsub_bounded b1 b2 b a c :
  bounded b1 a -> bounded b2 c -> is_float b -> b1 + b2 <= b ->
  bounded b (fsub a c).
Proof.
  destruct a as [x| | |], c as [y| | |]; simpl; try done.
  intros Hx Hy Hb Hle. unfold fsub. apply rnd_bounded_fin; [done|].
  pose proof (Rabs_triang x (- y)). rewrite Rabs_Ropp in *.
  unfold Rminus. lra.
Qed.

Lemma fmul_bounded b1 b2 b a c :
  bounded b1 a -> bounded b2 c -> is_float b -> b1 * b2 <= b ->
  bounded b (fmul a c).
Proof.
  destruct a as [x| | |], c as [y| | |]; simpl; try done.
  intros Hx Hy Hb Hle. unfold fmul. apply rnd_bounded_fin; [done|].
  rewrite Rabs_mult. pose proof (Rabs_pos x). pose proof (Rabs_pos y).
  assert (Rabs x * Rabs y <= b1 * b2) by (apply Rmult_le_compat; lra). lra.
Qed.

Lemma bounded_weaken b b' a : bounded b a -> b <= b' -> bounded b' a.
Proof. destruct a; simpl; try done. lra. Qed.

(** Conversions between integers and binary64. *)

Lemma of_int_bounded k e :
  (Z.abs k <= 2 ^ e)%Z -> (0 <= e <= 1023)%Z -> bounded (bpow e) (of_int k).
Proof.
  intros Hk He. unfold of_int. apply rnd_bounded_fin.
  - apply is_float_bpow. lia.
  - rewrite bpow_IZR by lia. rewrite <- abs_IZR. by apply IZR_le.
Qed.

Lemma of_int_nonneg k : (0 <= k)%Z -> nonneg (of_int k).
Proof. intros Hk. apply rnd_nonneg. by apply IZR_le. Qed.

Lemma of_int_exact k : (Z.abs k <= 2 ^ 53)%Z -> of_int k = Fin (IZR k).
Proof. apply rnd_IZR. Qed.

Lemma of_int_0 : of_int 0 = Fin 0.
Proof. by apply of_int_exact. Qed.

Lemma trunc_IZR k : trunc (IZR k) = k.
Proof.
  unfold trunc. case_decide; [apply ZfloorZ|].
  unfold Zceil. rewrite <- opp_IZR, ZfloorZ. lia.
Qed.


Lemma trunc_neg x : x < 0 -> (trunc x <= 0)%Z /\ x <= IZR (trunc x).
Proof.
  intros Hx. unfold trunc. rewrite decide_False by lra.
  pose proof (Zceil_bound x) as [H1 H2]. split; [|lra].
  apply le_IZR. assert (IZR (Zceil x) < 1) by lra.
  apply lt_IZR in H. apply IZR_le. lia.
Qed.

Lemma astype_int_IZR k :
  (- 2 ^ 63 <= k < 2 ^ 63)%Z -> astype_int (Fin (IZR k)) = k.
Proof.
  intros Hk. unfold astype_int. rewrite trunc_IZR. by rewrite decide_True.
Qed.

(** A cast that is not negative comes from a number below 2 ** 63. *)
Lemma astype_int_nonneg_inv a :
  (0 <= astype_int a)%Z ->
  exists x, a = Fin x /\ - 1 < x < IZR (2 ^ 63) /\
            (0 <= trunc x < 2 ^ 63)%Z /\ astype_int a = trunc x.
Proof.
  destruct a as [x| | |]; unfold astype_int, INT64_MIN; try lia.
  case_decide as Hr; [|lia]. intros Hk. exists x. split; [done|].
  split; [|split; [lia|done]].
  destruct (decide (0 <= x)) as [Hx|Hx].
  - unfold trunc in *. rewrite decide_True in * by done.
    pose proof (Zfloor_bound x) as [H1 H2]. split; [lra|].
    assert (IZR (Zfloor x) + 1 <= IZR (2 ^ 63)); [|lra].
    rewrite <- plus_IZR. apply IZR_le. lia.
  - apply Rnot_le_lt in Hx. destruct (trunc_neg x Hx) as [H1 H2].
    assert (trunc x = 0%Z) as H0 by lia. rewrite H0 in H2.
    unfold trunc in H0. rewrite decide_False in H0 by lra.
    pose proof (Zceil_bound x) as [H3 H4]. rewrite H0 in H3.
    split; [lra|]. assert (0 < IZR (2 ^ 63)) by (apply IZR_lt; lia). lra.
Qed.

Lemma astype_int_bounded a :
  (0 <= astype_int a)%Z -> bounded (bpow 63) a.
Proof.
  intros (x & -> & [H1 H2] & _)%astype_int_nonneg_inv. simpl.
  rewrite bpow_IZR by lia.
  assert (1 <= IZR (2 ^ 63)) by (apply IZR_le; lia).
  apply Rabs_le. lra.
Qed.

(** The clamp. *)

Lemma fmax0_nonneg a : a <> NaN -> nonneg (fmax0 a).
Proof. destruct a; unfold fmax0; simpl; try done. intros _. apply Rmax_r. Qed.

Lemma fmax0_nonneg_or_nan a : nonneg_or_nan (fmax0 a).
Proof. destruct a; unfold fmax0; simpl; try done. apply Rmax_r. Qed.

Lemma fmax0_id x : 0 <= x -> fmax0 (Fin x) = Fin x.
Proof. intros Hx. unfold fmax0. by rewrite Rmax_left. Qed.

Lemma fmax0_neg x : x <= 0 -> fmax0 (Fin x) = Fin 0.
Proof. intros Hx. unfold fmax0. by rewrite Rmax_right. Qed.

(** Signs through the operations. *)

Lemma nonneg_weaken a : nonneg a -> nonneg_or_nan a.
Proof. by destruct a. Qed.

Lemma nonneg_or_nan_nonneg a : nonneg_or_nan a -> a <> NaN -> nonneg a.
Proof. by destruct a. Qed.

Lemma fadd_nonneg a b : nonneg a -> nonneg b -> nonneg (fadd a b).
Proof.
  destruct a as [x| | |], b as [y| | |]; unfold fadd; simpl; try done.
  intros Hx Hy. apply rnd_nonneg. lra.
Qed.

Lemma inf_times_nonneg_or_nan x : 0 <= x -> nonneg_or_nan (inf_times true x).
Proof. intros Hx. unfold inf_times. repeat case_decide; simpl; try done. lra. Qed.

Lemma fmul_nonneg_or_nan a b :
  nonneg_or_nan a -> nonneg_or_nan b -> nonneg_or_nan (fmul a b).
Proof.
  destruct a as [x| | |], b as [y| | |]; unfold fmul; simpl; try done;
    intros Hx Hy; try (by apply inf_times_nonneg_or_nan).
  apply nonneg_weaken, rnd_nonneg. by apply Rmult_le_pos.
Qed.




Lemma fexp_nonneg_or_nan a : nonneg_or_nan (fexp a).
Proof.
  destruct a as [x| | |]; unfold fexp; simpl; try done; try lra.
  apply nonneg_weaken, rnd_nonneg. left. apply exp_pos.
Qed.

Lemma exp_le_1 x : x <= 0 -> exp x <= 1.
Proof.
  intros [Hx| ->]; [|rewrite exp_0; lra].
  rewrite <- exp_0. left. by apply exp_increasing.
Qed.

Lemma exp_lt_1 x : x < 0 -> exp x < 1.
Proof. intros Hx. rewrite <- exp_0. by apply exp_increasing. Qed.

(** The exponential of what is not positive is a number of [0, 1]. *)
Lemma fexp_nonpos a :
  nonpos a -> exists e, fexp a = Fin e /\ 0 <= e <= 1 /\ is_float e.
Proof.
  destruct a as [x| | |]; simpl; try done.
  - intros Hx. unfold fexp. apply rnd_between; [apply is_float_0|apply is_float_1|].
    pose proof (exp_pos x). pose proof (exp_le_1 x Hx). lra.
  - intros _. exists 0. unfold fexp. split; [done|]. split; [lra|apply is_float_0].
Qed.

Lemma fexp_0 : fexp (Fin 0) = Fin 1.
Proof. unfold fexp. rewrite exp_0. apply rnd_1. Qed.

(** One minus a number of [0, 1] is a probability. *)
Lemma one_minus_unit e :
  0 <= e <= 1 -> exists p, fsub (Fin 1) (Fin e) = Fin p /\ 0 <= p <= 1.
Proof.
  intros He. unfold fsub.
  destruct (rnd_between (1 - e) 0 1 is_float_0 is_float_1) as (p & -> & Hp & _);
    [lra|]. by exists p.
Qed.

Lemma fmul_0_l x : fmul (Fin 0) (Fin x) = Fin 0.
Proof. unfold fmul. rewrite Rmult_0_l. apply rnd_0. Qed.

Lemma fmul_0_r x : fmul (Fin x) (Fin 0) = Fin 0.
Proof. unfold fmul. rewrite Rmult_0_r. apply rnd_0. Qed.

Lemma fmul_1_r x : is_float x -> fmul (Fin x) (Fin 1) = Fin x.
Proof. intros Hx. unfold fmul. rewrite Rmult_1_r. by apply rnd_float. Qed.

Lemma fmul_1_l x : is_float x -> fmul (Fin 1) (Fin x) = Fin x.
Proof. intros Hx. unfold fmul. rewrite Rmult_1_l. by apply rnd_float. Qed.

Lemma fadd_0_r x : is_float x -> fadd (Fin x) (Fin 0) = Fin x.
Proof. intros Hx. unfold fadd. rewrite Rplus_0_r. by apply rnd_float. Qed.

Lemma fadd_0_l x : is_float x -> fadd (Fin 0) (Fin x) = Fin x.
Proof. intros Hx. unfold fadd. rewrite Rplus_0_l. by apply rnd_float. Qed.

Lemma fsub_0_r x : is_float x -> fsub (Fin x) (Fin 0) = Fin x.
Proof. intros Hx. unfold fsub. rewrite Rminus_0_r. by apply rnd_float. Qed.

Lemma fsub_diag x : fsub (Fin x) (Fin x) = Fin 0.
Proof. unfold fsub. replace (x - x) with 0 by lra. apply rnd_0. Qed.

Lemma fdiv_diag x : x <> 0 -> fdiv (Fin x) (Fin x) = Fin 1.
Proof.
  intros Hx. unfold fdiv. rewrite decide_False by done.
  replace (x / x) with 1 by (by field). apply rnd_1.
Qed.

Lemma fdiv_0_l y : y <> 0 -> fdiv (Fin 0) (Fin y) = Fin 0.
Proof.
  intros Hy. unfold fdiv. rewrite decide_False by done.
  replace (0 / y) with 0 by (by field). apply rnd_0.
Qed.

(** A product with the number 0 is 0 or nan. *)
Lemma fmul_0_l_cases a : fmul (Fin 0) a = Fin 0 \/ fmul (Fin 0) a = NaN.
Proof.
  destruct a as [x| | |]; [left; apply fmul_0_l| | |]; right;
    unfold fmul, inf_times; try done; by rewrite decide_True.
Qed.

Lemma fmul_0_r_cases a : fmul a (Fin 0) = Fin 0 \/ fmul a (Fin 0) = NaN.
Proof.
  destruct a as [x| | |]; [left; apply fmul_0_r| | |]; right;
    unfold fmul, inf_times; try done; by rewrite decide_True.
Qed.

(** Whole numbers up to 2 ** 53 are computed with exactly. *)

Lemma fadd_int a b :
  (Z.abs (a + b) <= 2 ^ 53)%Z ->
  fadd (Fin (IZR a)) (Fin (IZR b)) = Fin (IZR (a + b)).
Proof. intros H. unfold fadd. rewrite <- plus_IZR. by apply rnd_IZR. Qed.

Lemma fsub_int a b :
  (Z.abs (a - b) <= 2 ^ 53)%Z ->
  fsub (Fin (IZR a)) (Fin (IZR b)) = Fin (IZR (a - b)).
Proof. intros H. unfold fsub. rewrite <- minus_IZR. by apply rnd_IZR. Qed.

Lemma fmul_int a b :
  (Z.abs (a * b) <= 2 ^ 53)%Z ->
  fmul (Fin (IZR a)) (Fin (IZR b)) = Fin (IZR (a * b)).
Proof. intros H. unfold fmul. rewrite <- mult_IZR. by apply rnd_IZR. Qed.


(** The rate of the demography: a number of [2 ** -13, 1]. *)
Lemma mu_value :
  exists m, mu = Fin m /\ 0 < m <= 1 /\ is_float m /\ bpow (- 13) <= m.
Proof.
  unfold mu, fdiv. rewrite decide_False by lra.
  destruct (rnd_between (1 / (80 * 52)) (bpow (- 13)) 1) as (m & -> & Hm & Hf).
  - by apply is_float_bpow.
  - apply is_float_1.
  - unfold bpow, powerRZ. simpl. lra.
  - exists m. split; [done|]. split; [|split; [done|lra]].
    pose proof (bpow_pos (- 13)). lra.
Qed.

(** The normal outcomes are numbers of the format. *)
Lemma MAX_FLOAT_float : is_float MAX_FLOAT.
Proof.
  unfold MAX_FLOAT. rewrite <- minus_IZR. apply is_float_dyadic; simpl; lia.
Qed.

Lemma to_float_float x : is_float (to_float x).
Proof.
  unfold to_float. set (y := Rmax _ _).
  assert (Rabs y <= MAX_FLOAT) as Hy.
  { unfold y. apply Rabs_le. split; [apply Rmax_l|].
    apply Rmax_lub; [|apply Rmin_r].
    pose proof MAX_FLOAT_float as H%is_float_bound.
    assert (0 <= MAX_FLOAT); [|lra].
    unfold MAX_FLOAT. apply Rmult_le_pos; [|left; apply bpow_pos].
    rewrite <- minus_IZR. by apply IZR_le. }
  by destruct (rnd_bounded y _ MAX_FLOAT_float Hy) as (_ & H & _).
Qed.

Lemma to_float_id x : is_float x -> to_float x = x.
Proof.
  intros Hx. unfold to_float.
  assert (Rabs x <= MAX_FLOAT) as Hb.
  { destruct Hx as (m & e & -> & Hm & He).
    rewrite Rabs_mult, Rabs_bpow. unfold MAX_FLOAT.
    apply Rmult_le_compat; [apply Rabs_pos|left; apply bpow_pos| |].
    - rewrite <- minus_IZR, <- abs_IZR. apply IZR_le. lia.
    - apply bpow_le. lia. }
  apply Rabs_le_inv in Hb.
  rewrite Rmin_left, Rmax_right by lra. by apply round_id, is_float_format.
Qed.

End Arith.
Export Arith.

(** ** The draws and the particles of a run *)

Module Facts.
Local Open Scope R_scope.

Lemma binomial_draw_bounds n p raw :
  (0 <= n)%Z -> (0 <= binomial_draw n p raw <= n)%Z.
Proof. intros Hn. unfold binomial_draw. repeat case_decide; lia. Qed.

Lemma binomial_draw_zero n raw : binomial_draw n 0 raw = 0%Z.
Proof. unfold binomial_draw. by rewrite decide_True. Qed.

Lemma binomial_draw_no_trials p raw : binomial_draw 0 p raw = 0%Z.
Proof. unfold binomial_draw. repeat case_decide; lia. Qed.

Lemma binomial_draw_inner n p raw :
  0 < p < 1 -> binomial_draw n p raw = Z.min (Z.of_nat raw) n.
Proof.
  intros Hp. unfold binomial_draw.
  rewrite decide_False by lra. rewrite decide_False by lra. done.
Qed.

Lemma poisson_draw_bounds lam raw : (0 <= poisson_draw lam raw <= 2 ^ 63 - 1)%Z.
Proof. unfold poisson_draw. case_decide; lia. Qed.

Lemma poisson_draw_nonneg lam raw : (0 <= poisson_draw lam raw)%Z.
Proof. apply poisson_draw_bounds. Qed.

Lemma poisson_draw_zero raw : poisson_draw 0 raw = 0%Z.
Proof. unfold poisson_draw. by rewrite decide_True. Qed.

Lemma poisson_draw_positive lam raw :
  0 < lam -> poisson_draw lam raw = Z.min (Z.of_nat raw) (2 ^ 63 - 1).
Proof. intros Hl. unfold poisson_draw. by rewrite decide_False by lra. Qed.

Lemma lookup_take_stream {A} n (f : nat -> A) i x :
  take_stream n f !! i = Some x <-> x = f i /\ (i < n)%nat.
Proof.
  unfold take_stream. rewrite list_lookup_fmap_Some. split.
  - intros (j & -> & Hj). apply lookup_seq in Hj as [-> ?]. done.
  - intros [-> Hi]. exists i. split; [done|]. by apply lookup_seq.
Qed.

Lemma lookup_normal_draws n f i x :
  normal_draws n f !! i = Some x <-> x = to_float (f i) /\ (i < n)%nat.
Proof.
  unfold normal_draws. rewrite list_lookup_fmap_Some. split.
  - intros (y & -> & [-> Hi]%lookup_take_stream). done.
  - intros [-> Hi]. exists (f i). split; [done|]. by apply lookup_take_stream.
Qed.

Lemma lookup_binomial_draws n p raws i y :
  binomial_draws n p raws !! i = Some y ->
  exists k q, n !! i = Some k /\ p !! i = Some q /\
              y = binomial_draw k (real_of q) (raws i).
Proof.
  unfold binomial_draws. intros H.
  apply lookup_zip_with_Some in H as ([k q] & raw & -> & Hz & Hr).
  apply lookup_zip_with_Some in Hz as (k' & q' & [= -> ->] & Hk & Hq).
  apply lookup_take_stream in Hr as [-> _]. eauto.
Qed.

Lemma lookup_binomial_scalar_draws n p raws i y :
  binomial_scalar_draws n p raws !! i = Some y ->
  exists k, n !! i = Some k /\ y = binomial_draw k (real_of p) (raws i).
Proof.
  unfold binomial_scalar_draws. intros H.
  apply lookup_zip_with_Some in H as (k & raw & -> & Hk & Hr).
  apply lookup_take_stream in Hr as [-> _]. eauto.
Qed.

Lemma lookup_poisson_draws lam raws i y :
  poisson_draws lam raws !! i = Some y ->
  exists l, lam !! i = Some l /\ y = poisson_draw (real_of l) (raws i).
Proof.
  unfold poisson_draws. intros H.
  apply lookup_zip_with_Some in H as (l & raw & -> & Hl & Hr).
  apply lookup_take_stream in Hr as [-> _]. eauto.
Qed.

Lemma particle_cons v a i row :
  particle (v :: a) i = Some row <->
  exists x rest, v !! i = Some x /\ particle a i = Some rest /\ row = x :: rest.
Proof.
  unfold particle. cbn. destruct (v !! i) as [x|]; cbn;
    [destruct (mapM _ a) as [rest|]; cbn|]; split;
    try (intros [= <-]; by eauto);
    try (intros (x' & rest' & Hx & Hr & ->); by simplify_eq);
    try (intros [=]).
Qed.

Ltac particles :=
  repeat match goal with
  | H : particle (_ :: _) _ = Some _ |- _ =>
      apply particle_cons in H as (? & ? & ? & H & ?)
  | H : particle [] _ = Some _ |- _ => injection H as <-
  end.

Ltac lookups :=
  repeat match goal with
  | H : zip_with _ _ _ !! _ = Some _ |- _ =>
      apply lookup_zip_with_Some in H as (? & ? & ? & ? & ?)
  | H : normal_draws _ _ !! _ = Some _ |- _ =>
      apply lookup_normal_draws in H as [? ?]
  | H : (_ <$> _) !! _ = Some _ |- _ =>
      apply list_lookup_fmap_Some in H as (? & ? & ?)
  | H : binomial_draws _ _ _ !! _ = Some _ |- _ =>
      apply lookup_binomial_draws in H as (? & ? & ? & ? & ?)
  | H : binomial_scalar_draws _ _ _ !! _ = Some _ |- _ =>
      apply lookup_binomial_scalar_draws in H as (? & ? & ?)
  | H : poisson_draws _ _ !! _ = Some _ |- _ =>
      apply lookup_poisson_draws in H as (? & ? & ?)
  | H : take_stream _ _ !! _ = Some _ |- _ =>
      apply lookup_take_stream in H as [? ?]
  end.

Lemma lookup_sir_P_SI S_ I_ R_ B dt i s ii r b :
  S_ !! i = Some s -> I_ !! i = Some ii -> R_ !! i = Some r ->
  B !! i = Some b ->
  sir_P_SI S_ I_ R_ B dt !! i = Some (prob_SI dt b ii (fadd (fadd s ii) r)).
Proof.
  intros Hs Hi Hr Hb. unfold sir_P_SI, zip_with3, vadd.
  rewrite !lookup_zip_with, Hs, Hi, Hr, Hb. done.
Qed.

Lemma lookup_sir_P_SI_inv S_ I_ R_ B dt i p :
  sir_P_SI S_ I_ R_ B dt !! i = Some p ->
  exists s ii r b,
    S_ !! i = Some s /\ I_ !! i = Some ii /\ R_ !! i = Some r /\
    B !! i = Some b /\ p = prob_SI dt b ii (fadd (fadd s ii) r).
Proof.
  unfold sir_P_SI, zip_with3, vadd. intros H. lookups. simplify_eq.
  eauto 10.
Qed.

(** What a SIR call that returned has checked for each particle. *)
Lemma sir_good_particle S_ I_ R_ NI B gamma dt i s ii r ni b :
  sir_good S_ I_ R_ B gamma dt ->
  particle [S_; I_; R_; NI; B] i = Some [s; ii; r; ni; b] ->
  valid_prob (prob_SI dt b ii (fadd (fadd s ii) r)) /\
  valid_prob (prob_rate gamma dt) /\
  (0 <= astype_int s)%Z /\ (0 <= astype_int ii)%Z.
Proof.
  intros [[Hp Hs] [Hq Hi]] Hin. particles. simplify_eq.
  match goal with
  | H1 : S_ !! i = Some ?s, H2 : I_ !! i = Some ?ii, H3 : R_ !! i = Some _,
    H4 : B !! i = Some _ |- _ =>
      pose proof (lookup_sir_P_SI _ _ _ _ dt _ _ _ _ _ H1 H2 H3 H4) as HP;
      eapply Forall_lookup_1 in Hp; [|exact HP];
      eapply (Forall_lookup_1 _ _ i (astype_int s)) in Hs;
        [|by rewrite list_lookup_fmap, H1];
      eapply (Forall_lookup_1 _ _ i (astype_int ii)) in Hi;
        [|by rewrite list_lookup_fmap, H2]
  end.
  done.
Qed.

Lemma sirs_good_particle S_ I_ R_ NI B gamma alpha dt i s ii r ni b :
  sirs_good S_ I_ R_ B gamma alpha dt ->
  particle [S_; I_; R_; NI; B] i = Some [s; ii; r; ni; b] ->
  valid_prob (prob_SI dt b ii (fadd (fadd s ii) r)) /\
  valid_prob (prob_rate gamma dt) /\ valid_prob (prob_rate alpha dt) /\
  (0 <= astype_int s)%Z /\ (0 <= astype_int ii)%Z /\ (0 <= astype_int r)%Z.
Proof.
  intros [Hsir [Hq Hr]] Hin.
  destruct (sir_good_particle _ _ _ _ _ _ _ _ _ _ _ _ _ Hsir Hin)
    as (H1 & H2 & H3 & H4).
  particles. simplify_eq.
  match goal with
  | H3 : R_ !! i = Some ?r |- _ =>
      eapply (Forall_lookup_1 _ _ i (astype_int r)) in Hr;
        [|by rewrite list_lookup_fmap, H3]
  end.
  done.
Qed.

(** A particle of the clamped SIR state, from the particle it was and the
    outcomes of its draws. *)
Lemma sir_row w S_ I_ R_ NI B gamma nu_beta dt i s ii r ni b row' :
  particle [S_; I_; R_; NI; B] i = Some [s; ii; r; ni; b] ->
  particle (maximum0 (sir_next w S_ I_ R_ B gamma nu_beta dt)) i = Some row' ->
  let Y_SI := binomial_draw (astype_int s)
                (real_of (prob_SI dt b ii (fadd (fadd s ii) r))) (ints w i) in
  let Y_IR := binomial_draw (astype_int ii) (real_of (prob_rate gamma dt))
                (ints w (length S_ + i)) in
  row' = [ fmax0 (fsub s (of_int Y_SI));
           fmax0 (fsub (fadd ii (of_int Y_SI)) (of_int Y_IR));
           fmax0 (fadd r (of_int Y_IR));
           fmax0 (of_int Y_SI);
           fmax0 (fmul b (walk_factor nu_beta dt (to_float (gauss w i)))) ].
Proof.
  intros Hin Hout.
  unfold maximum0, sir_next in Hout. rewrite !fmap_cons, fmap_nil in Hout.
  particles.
  unfold vmax0, vsub, vadd, vint, random_walk, sir_Y_SI, sir_Y_IR in *.
  lookups. simplify_eq.
  repeat match goal with
  | H : sir_P_SI _ _ _ _ _ !! _ = Some _ |- _ =>
      apply lookup_sir_P_SI_inv in H as (? & ? & ? & ? & ? & ? & ? & ? & ?)
  end.
  simplify_eq. unfold drop_stream. rewrite length_fmap. done.
Qed.

(** A particle of the clamped SIRS state. *)
Lemma sirs_row w S_ I_ R_ NI B gamma alpha nu_beta dt i s ii r ni b row' :
  particle [S_; I_; R_; NI; B] i = Some [s; ii; r; ni; b] ->
  particle (maximum0 (sirs_next w S_ I_ R_ B gamma alpha nu_beta dt)) i
    = Some row' ->
  let Y_SI := binomial_draw (astype_int s)
                (real_of (prob_SI dt b ii (fadd (fadd s ii) r))) (ints w i) in
  let Y_IR := binomial_draw (astype_int ii) (real_of (prob_rate gamma dt))
                (ints w (length S_ + i)) in
  let Y_RS := binomial_draw (astype_int r) (real_of (prob_rate alpha dt))
                (ints w (length S_ + (length I_ + i))) in
  row' =
    [ fmax0 (fadd (fadd (fsub s (of_int Y_SI))
                        (fmul (fmul mu (fsub (fadd (fadd s ii) r) s)) (Fin dt)))
                  (of_int Y_RS));
      fmax0 (fsub (fsub (fadd ii (of_int Y_SI)) (of_int Y_IR))
                  (fmul (fmul mu ii) (Fin dt)));
      fmax0 (fsub (fsub (fadd r (of_int Y_IR)) (fmul (fmul mu r) (Fin dt)))
                  (of_int Y_RS));
      fmax0 (of_int Y_SI);
      fmax0 (fmul b (walk_factor nu_beta dt (to_float (gauss w i)))) ].
Proof.
  intros Hin Hout.
  unfold maximum0, sirs_next in Hout. rewrite !fmap_cons, fmap_nil in Hout.
  particles.
  unfold vmax0, vsub, vadd, vint, vscale, vtimes, random_walk,
    sir_Y_SI, sir_Y_IR, sirs_Y_RS in *.
  lookups. simplify_eq.
  repeat match goal with
  | H : sir_P_SI _ _ _ _ _ !! _ = Some _ |- _ =>
      apply lookup_sir_P_SI_inv in H as (? & ? & ? & ? & ? & ? & ? & ? & ?)
  end.
  simplify_eq. unfold drop_stream. rewrite !length_fmap. done.
Qed.

Lemma lookup_dthp_means w lm C_I Rt obs omega_I nu_beta t N i l c r :
  particle [lm; C_I; Rt] i = Some [l; c; r] ->
  dthp_means w lm C_I Rt obs omega_I nu_beta t N !! i =
    Some (poisson_mean N c (perturb nu_beta r (to_float (gauss w i)))
            (intensity obs omega_I t)).
Proof.
  intros Hin. particles. simplify_eq.
  assert (i < length Rt)%nat as Hi by (by eapply lookup_lt_Some).
  unfold dthp_means, zip_with3, dthp_Rt, dthp_lm.
  rewrite !lookup_zip_with, list_lookup_fmap.
  repeat match goal with H : _ !! i = Some _ |- _ => rewrite H; clear H end.
  cbn. rewrite (proj2 (lookup_normal_draws _ _ _ _) (conj eq_refl Hi)). done.
Qed.

(** A particle of the state the Hawkes kernel returns. *)
Lemma dthp_row w lm C_I Rt obs omega_I nu_beta t N i l c r row' :
  particle [lm; C_I; Rt] i = Some [l; c; r] ->
  particle (dthp_out w lm C_I Rt obs omega_I nu_beta t N) i = Some row' ->
  let Rt_i := perturb nu_beta r (to_float (gauss w i)) in
  let mean := poisson_mean N c Rt_i (intensity obs omega_I t) in
  let draw := poisson_draw (real_of mean) (ints w i) in
  dthp_means w lm C_I Rt obs omega_I nu_beta t N !! i = Some mean /\
  row' = [ of_int draw; fadd c (of_int draw); Rt_i ].
Proof.
  intros Hin Hout. unfold dthp_out in Hout.
  pose proof (lookup_dthp_means w _ _ _ obs omega_I nu_beta t N _ _ _ _ Hin)
    as Hmean.
  cbn. split; [done|].
  particles. unfold vadd, vint, dthp_draws, dthp_Rt in *. lookups. simplify_eq.
  done.
Qed.

(** The arrays of a call that returned. *)

Lemma sir_ok_arrays w y theta names dt l w' yv out :
  run (stochastic_sir_model y theta names dt) w = (Ok l, w') ->
  heap w !! y = Some (Array2 yv) ->
  heap w' !! l = Some (Array2 out) ->
  exists S_ I_ R_ NI B gamma,
    yv = [S_; I_; R_; NI; B] /\
    dict_zip names theta !! "gamma" = Some gamma /\
    sir_good S_ I_ R_ B gamma dt /\
    out = maximum0 (sir_next w S_ I_ R_ B gamma
                      (get (dict_zip names theta) "nu_beta" nu_beta_default) dt).
Proof.
  intros Hrun Hy Hl.
  destruct (sir_ok_inv _ _ _ _ _ _ _ Hrun)
    as (S_ & I_ & R_ & NI & B & gamma & Hy' & Hg & Hgood & _ & _ & Hl').
  rewrite Hy in Hy'. injection Hy' as ->. rewrite Hl in Hl'. injection Hl' as ->.
  by exists S_, I_, R_, NI, B, gamma.
Qed.

Lemma sirs_ok_arrays w y theta names dt l w' yv out :
  run (stochastic_sirs_model y theta names dt) w = (Ok l, w') ->
  heap w !! y = Some (Array2 yv) ->
  heap w' !! l = Some (Array2 out) ->
  exists S_ I_ R_ NI B gamma nu_beta,
    yv = [S_; I_; R_; NI; B] /\
    dict_zip names theta !! "gamma" = Some gamma /\
    dict_zip names theta !! "nu_beta" = Some nu_beta /\
    sirs_good S_ I_ R_ B gamma (get (dict_zip names theta) "alpha" 0) dt /\
    out = maximum0 (sirs_next w S_ I_ R_ B gamma
                      (get (dict_zip names theta) "alpha" 0) nu_beta dt).
Proof.
  intros Hrun Hy Hl.
  destruct (sirs_ok_inv _ _ _ _ _ _ _ Hrun)
    as (S_ & I_ & R_ & NI & B & gamma & nu & Hy' & Hg & Hnu & Hgood & _ & _ & Hl').
  rewrite Hy in Hy'. injection Hy' as ->. rewrite Hl in Hl'. injection Hl' as ->.
  by exists S_, I_, R_, NI, B, gamma, nu.
Qed.

Lemma dthp_ok_arrays w state theta sn tn od t N df w' st out :
  run (dthp_model state theta sn tn od t N) w = (Ok df, w') ->
  heap w !! state = Some (Array2 st) ->
  heap w' !! values df = Some (Array2 out) ->
  exists lm C_I Rt omega_I,
    st = [lm; C_I; Rt] /\
    dict_zip tn theta !! "omega_I" = Some omega_I /\
    dthp_good w sn od t
      (dthp_means w lm C_I Rt (obs_values w od) omega_I
         (get (dict_zip tn theta) "nu_beta" nu_beta_default) t N) /\
    columns df = sn /\
    out = dthp_out w lm C_I Rt (obs_values w od) omega_I
            (get (dict_zip tn theta) "nu_beta" nu_beta_default) t N.
Proof.
  intros Hrun Hy Hl.
  destruct (dthp_ok_inv _ _ _ _ _ _ _ _ _ _ Hrun)
    as (lm & C_I & Rt & omega & Hy' & Hom & Hgood & Hcol & _ & _ & Hl').
  rewrite Hy in Hy'. injection Hy' as ->. rewrite Hl in Hl'. injection Hl' as ->.
  by exists lm, C_I, Rt, omega.
Qed.

(** A particle of a returned SIR state, with what the call has checked. *)
Lemma sir_ok_row w y theta names dt l w' yv out i s ii r ni b row' :
  run (stochastic_sir_model y theta names dt) w = (Ok l, w') ->
  heap w !! y = Some (Array2 yv) ->
  heap w' !! l = Some (Array2 out) ->
  particle yv i = Some [s; ii; r; ni; b] ->
  particle out i = Some row' ->
  exists gamma n1,
    dict_zip names theta !! "gamma" = Some gamma /\
    let nu_beta := get (dict_zip names theta) "nu_beta" nu_beta_default in
    let P_SI := prob_SI dt b ii (fadd (fadd s ii) r) in
    let Y_SI := binomial_draw (astype_int s) (real_of P_SI) (ints w i) in
    let Y_IR := binomial_draw (astype_int ii) (real_of (prob_rate gamma dt))
                  (ints w (n1 + i)) in
    valid_prob P_SI /\ valid_prob (prob_rate gamma dt) /\
    (0 <= astype_int s)%Z /\ (0 <= astype_int ii)%Z /\
    row' = [ fmax0 (fsub s (of_int Y_SI));
             fmax0 (fsub (fadd ii (of_int Y_SI)) (of_int Y_IR));
             fmax0 (fadd r (of_int Y_IR));
             fmax0 (of_int Y_SI);
             fmax0 (fmul b (walk_factor nu_beta dt (to_float (gauss w i)))) ].
Proof.
  intros Hrun Hy Hl Hin Hout.
  destruct (sir_ok_arrays _ _ _ _ _ _ _ _ _ Hrun Hy Hl)
    as (S_ & I_ & R_ & NI & B & gamma & -> & Hg & Hgood & ->).
  exists gamma, (length S_). split; [done|]. cbv zeta.
  destruct (sir_good_particle _ _ _ _ _ _ _ _ _ _ _ _ _ Hgood Hin)
    as (H1 & H2 & H3 & H4).
  repeat (split; [done|]).
  exact (sir_row _ _ _ _ _ _ _ _ _ _ _ _ _ _ _ _ Hin Hout).
Qed.

(** A particle of a returned SIRS state, with what the call has checked. *)
Lemma sirs_ok_row w y theta names dt l w' yv out i s ii r ni b row' :
  run (stochastic_sirs_model y theta names dt) w = (Ok l, w') ->
  heap w !! y = Some (Array2 yv) ->
  heap w' !! l = Some (Array2 out) ->
  particle yv i = Some [s; ii; r; ni; b] ->
  particle out i = Some row' ->
  exists gamma nu_beta n1 n2,
    dict_zip names theta !! "gamma" = Some gamma /\
    dict_zip names theta !! "nu_beta" = Some nu_beta /\
    let alpha := get (dict_zip names theta) "alpha" 0 in
    let P_SI := prob_SI dt b ii (fadd (fadd s ii) r) in
    let Y_SI := binomial_draw (astype_int s) (real_of P_SI) (ints w i) in
    let Y_IR := binomial_draw (astype_int ii) (real_of (prob_rate gamma dt))
                  (ints w (n1 + i)) in
    let Y_RS := binomial_draw (astype_int r) (real_of (prob_rate alpha dt))
                  (ints w (n1 + (n2 + i))) in
    valid_prob P_SI /\ valid_prob (prob_rate gamma dt) /\
    valid_prob (prob_rate alpha dt) /\
    (0 <= astype_int s)%Z /\ (0 <= astype_int ii)%Z /\ (0 <= astype_int r)%Z /\
    row' =
      [ fmax0 (fadd (fadd (fsub s (of_int Y_SI))
                          (fmul (fmul mu (fsub (fadd (fadd s ii) r) s)) (Fin dt)))
                    (of_int Y_RS));
        fmax0 (fsub (fsub (fadd ii (of_int Y_SI)) (of_int Y_IR))
                    (fmul (fmul mu ii) (Fin dt)));
        fmax0 (fsub (fsub (fadd r (of_int Y_IR)) (fmul (fmul mu r) (Fin dt)))
                    (of_int Y_RS));
        fmax0 (of_int Y_SI);
        fmax0 (fmul b (walk_factor nu_beta dt (to_float (gauss w i)))) ].
Proof.
  intros Hrun Hy Hl Hin Hout.
  destruct (sirs_ok_arrays _ _ _ _ _ _ _ _ _ Hrun Hy Hl)
    as (S_ & I_ & R_ & NI & B & gamma & nu & -> & Hg & Hnu & Hgood & ->).
  exists gamma, nu, (length S_), (length I_). split; [done|]. split; [done|].
  cbv zeta.
  destruct (sirs_good_particle _ _ _ _ _ _ _ _ _ _ _ _ _ _ Hgood Hin)
    as (H1 & H2 & H3 & H4 & H5 & H6).
  repeat (split; [done|]).
  exact (sirs_row _ _ _ _ _ _ _ _ _ _ _ _ _ _ _ _ _ Hin Hout).
Qed.

(** A particle of a returned Hawkes state, with what the call has
    checked. *)
Lemma dthp_ok_row w state theta sn tn od t N df w' st out i l c r row' :
  run (dthp_model state theta sn tn od t N) w = (Ok df, w') ->
  heap w !! state = Some (Array2 st) ->
  heap w' !! values df = Some (Array2 out) ->
  particle st i = Some [l; c; r] ->
  particle out i = Some row' ->
  exists omega_I,
    dict_zip tn theta !! "omega_I" = Some omega_I /\
    let nu_beta := get (dict_zip tn theta) "nu_beta" nu_beta_default in
    let Rt_i := perturb nu_beta r (to_float (gauss w i)) in
    let mean := poisson_mean N c Rt_i (intensity (obs_values w od) omega_I t) in
    let draw := poisson_draw (real_of mean) (ints w i) in
    valid_mean mean /\
    row' = [ of_int draw; fadd c (of_int draw); Rt_i ].
Proof.
  intros Hrun Hy Hl Hin Hout.
  destruct (dthp_ok_arrays _ _ _ _ _ _ _ _ _ _ _ _ Hrun Hy Hl)
    as (lm & C_I & Rt & omega & -> & Hom & (_ & Hvalid & _) & _ & ->).
  exists omega. split; [done|]. cbv zeta.
  destruct (dthp_row _ _ _ _ _ _ _ _ _ _ _ _ _ _ Hin Hout) as [Hmean Hrow].
  eapply Forall_lookup_1 in Hvalid; [|exact Hmean]. done.
Qed.

End Facts.
Export Facts.

(** ** Accepted and rejected parameters *)

Module Validity.
Local Open Scope R_scope.

Lemma fmul_nonpos_pos a y : nonpos a -> 0 < y -> nonpos (fmul a (Fin y)).
Proof.
  destruct a as [x| | |]; simpl; try done; intros Hx Hy; unfold fmul.
  - apply rnd_nonpos. nra.
  - unfold inf_times. rewrite decide_False by lra. by rewrite decide_True.
Qed.

Lemma fdiv_nonpos_pos a y : nonpos a -> 0 < y -> nonpos (fdiv a (Fin y)).
Proof.
  destruct a as [x| | |]; simpl; try done; intros Hx Hy; unfold fdiv.
  - rewrite decide_False by lra. apply rnd_nonpos.
    assert (0 < / y) by (by apply Rinv_0_lt_compat). unfold Rdiv. nra.
  - rewrite decide_True by lra. done.
Qed.

(** One minus the exponential of what is not positive is a probability. *)
Lemma valid_prob_of_nonpos a : nonpos a -> valid_prob (fsub (Fin 1) (fexp a)).
Proof.
  intros (e & -> & He & _)%fexp_nonpos.
  by destruct (one_minus_unit e He) as (p & -> & Hp).
Qed.

Lemma valid_prob_rate rate dt : 0 <= rate * dt -> valid_prob (prob_rate rate dt).
Proof.
  intros H. unfold prob_rate. apply valid_prob_of_nonpos.
  unfold fmul. apply rnd_nonpos. lra.
Qed.

Lemma valid_prob_SI dt b i n :
  0 <= b -> 0 <= i -> 0 < n -> 0 < dt ->
  valid_prob (prob_SI dt (Fin b) (Fin i) (Fin n)).
Proof.
  intros Hb Hi Hn Hdt. unfold prob_SI. apply valid_prob_of_nonpos.
  apply fmul_nonpos_pos; [|done]. apply fdiv_nonpos_pos; [|done].
  unfold fneg, fmul. apply rnd_nonpos. nra.
Qed.


Lemma prob_SI_no_transmission dt i n :
  n <> 0 -> prob_SI dt (Fin 0) (Fin i) (Fin n) = Fin 0.
Proof.
  intros Hn. unfold prob_SI, fneg. rewrite Ropp_0.
  rewrite fmul_0_l, fdiv_0_l, fmul_0_l, fexp_0 by done. apply fsub_diag.
Qed.

Lemma prob_SI_no_infected dt b n :
  n <> 0 -> prob_SI dt (Fin b) (Fin 0) (Fin n) = Fin 0.
Proof.
  intros Hn. unfold prob_SI, fneg.
  rewrite fmul_0_r, fdiv_0_l, fmul_0_l, fexp_0 by done. apply fsub_diag.
Qed.

Lemma walk_factor_zero dt z : walk_factor 0 dt z = Fin 1.
Proof. unfold walk_factor. by rewrite !fmul_0_l, fexp_0. Qed.

Lemma perturb_zero r z : is_float r -> perturb 0 (Fin r) z = Fin r.
Proof.
  intros Hr. unfold perturb. rewrite fmul_0_l, fexp_0. by apply fmul_1_r.
Qed.

Lemma valid_prob_finite p : valid_prob p -> exists x, p = Fin x /\ 0 <= x <= 1.
Proof. destruct p as [x| | |]; simpl; try done. eauto. Qed.

Lemma POISSON_LAM_MAX_large : 4611686018427387904 <= POISSON_LAM_MAX.
Proof.
  unfold POISSON_LAM_MAX.
  assert (sqrt (IZR (2 ^ 63 - 1)) <= IZR (2 ^ 32)) as Hs.
  { rewrite <- (sqrt_square (IZR (2 ^ 32))) by (apply IZR_le; lia).
    apply sqrt_le_1_alt. rewrite <- mult_IZR. apply IZR_le. lia. }
  assert (4611686018427387904 + IZR (2 ^ 32) * 10 <= IZR (2 ^ 63 - 1)).
  { rewrite <- (mult_IZR _ 10), <- plus_IZR. apply IZR_le. lia. }
  lra.
Qed.

Lemma valid_mean_fin x :
  0 <= x <= 4611686018427387904 -> valid_mean (Fin x).
Proof. pose proof POISSON_LAM_MAX_large. simpl. lra. Qed.

Lemma valid_mean_finite lam : valid_mean lam -> exists x, lam = Fin x /\ 0 <= x.
Proof. destruct lam as [x| | |]; simpl; try done. intros []. eauto. Qed.


(** The mean of a depleted particle, when it is a number, is 0. *)
Lemma poisson_mean_depleted N rt lm x :
  poisson_mean N (Fin N) rt lm = Fin x -> N <> 0 /\ x = 0.
Proof.
  unfold poisson_mean. destruct (decide (N = 0)) as [->|HN].
  - unfold fdiv. rewrite !decide_True by done.
    by destruct rt, lm.
  - rewrite fdiv_diag, fsub_diag by done.
    destruct (fmul_0_l_cases rt) as [-> | ->]; [|by destruct lm].
    destruct (fmul_0_l_cases lm) as [-> | ->]; [|done].
    intros [= <-]. done.
Qed.

Lemma poisson_mean_depleted_fin N rt lm :
  N <> 0 -> poisson_mean N (Fin N) (Fin rt) (Fin lm) = Fin 0.
Proof.
  intros HN. unfold poisson_mean.
  by rewrite fdiv_diag, fsub_diag, !fmul_0_l by done.
Qed.

(** Without intensity the mean, when it is a number, is 0. *)
Lemma poisson_mean_no_intensity N c rt x :
  poisson_mean N c rt (Fin 0) = Fin x -> x = 0.
Proof.
  unfold poisson_mean.
  destruct (fmul_0_r_cases (fmul (fsub (Fin 1) (fdiv c (Fin N))) rt))
    as [-> | ->]; [|done].
  by intros [= <-].
Qed.

(** A mean that is a number comes from a population that is not 0 and from
    numbers. *)
Lemma poisson_mean_finite_inv N c rt lm x :
  poisson_mean N c rt lm = Fin x ->
  N <> 0 /\ finite c /\ rt <> NaN /\ lm <> NaN.
Proof.
  unfold poisson_mean. intros H.
  assert (fmul (fmul (fsub (Fin 1) (fdiv c (Fin N))) rt) lm <> NaN) as Hn
    by (by rewrite H).
  apply fmul_nan_inv in Hn as [Hn Hlm].
  apply fmul_nan_inv in Hn as [Hn Hrt].
  split; [|split; [|done]].
  - intros ->. destruct c as [z| | |]; unfold fdiv in H;
      repeat case_decide; try lra; unfold fsub in H;
      destruct rt as [y| | |], lm as [u| | |]; unfold fmul, inf_times in H;
      repeat case_decide; simplify_eq.
  - destruct c as [z| | |]; [done| | |]; exfalso;
      unfold fdiv in H; repeat case_decide; unfold fsub in H;
      destruct rt as [y| | |], lm as [u| | |]; unfold fmul, inf_times in H;
      repeat case_decide; simplify_eq.
Qed.

End Validity.
Export Validity.

(** ** Dictionaries built by [dict(zip(...))] *)

Module DictFacts.

Lemma foldl_insert_lookup_None {V} (l : list (string * V))
    (d : gmap string V) (k : string) :
  d !! k = None -> k ∉ l.*1 ->
  foldl (fun d kv => <[kv.1 := kv.2]> d) d l !! k = None.
Proof.
  revert d. induction l as [|[k' v] l IH]; intros d Hd Hk; [done|].
  cbn in *. apply not_elem_of_cons in Hk as [Hne Hk].
  apply IH; [|done]. by rewrite lookup_insert_ne.
Qed.

(** A name that is not listed has no entry. *)
Lemma dict_zip_lookup_None {V} keys (values : list V) k :
  k ∉ keys -> dict_zip keys values !! k = None.
Proof.
  intros Hk. unfold dict_zip. apply foldl_insert_lookup_None; [done|].
  intros Hin. apply Hk. apply list_elem_of_fmap in Hin as ([k' v] & -> & Hin).
  by apply elem_of_zip_l in Hin.
Qed.

(** Only the first [min (length keys) (length values)] names and values
    enter the dictionary. *)
Lemma dict_zip_truncate {V} keys (values : list V) :
  let n := Nat.min (length keys) (length values) in
  dict_zip keys values = dict_zip (take n keys) (take n values).
Proof.
  intros n. unfold dict_zip, zip. f_equal.
  symmetry. apply zip_with_take_both'; lia.
Qed.

End DictFacts.
Export DictFacts.

(** ** What a run leaves untouched *)

Module Frame.

Lemma keeps_stable h0 {A} (m : M A) :
  (forall w, heap (run m w).2 = heap w) -> keeps h0 m.
Proof. intros H w Hw. by rewrite H. Qed.

Lemma keeps_ret h0 {A} (a : A) : keeps h0 (ret a).
Proof. by apply keeps_stable. Qed.

Lemma keeps_raise h0 {A} e : keeps h0 (raise (A:=A) e).
Proof. by apply keeps_stable. Qed.

Lemma keeps_bind h0 {A B} (m : M A) (k : A -> M B) :
  keeps h0 m -> (forall a, keeps h0 (k a)) -> keeps h0 (bind m k).
Proof.
  intros Hm Hk w Hw. specialize (Hm w Hw). unfold run, bind in *.
  destruct (m w) as [[a|e] w1]; simpl in *; [by apply Hk | done].
Qed.

(** What follows an allocation works on a reference outside [h0]. *)
Lemma keeps_bind_alloc h0 o {B} (k : loc -> M B) :
  (forall l, h0 !! l = None -> keeps h0 (k l)) -> keeps h0 (bind (alloc o) k).
Proof.
  intros Hk w Hw. unfold run, bind, alloc. simpl.
  assert (heap w !! fresh (dom (heap w)) = None) as Hf
    by apply not_elem_of_dom, is_fresh.
  apply Hk; [by eapply fresh_not_in|].
  simpl. etrans; [exact Hw|]. by apply insert_subseteq.
Qed.

Lemma keeps_alloc h0 o : keeps h0 (alloc o).
Proof.
  intros w Hw. unfold run, alloc. simpl. etrans; [exact Hw|].
  apply insert_subseteq, not_elem_of_dom, is_fresh.
Qed.

Lemma keeps_load_array h0 l : keeps h0 (load_array l).
Proof.
  apply keeps_stable. intros w. unfold run, load_array.
  by destruct (heap w !! l) as [[|]|].
Qed.

Lemma keeps_load_series h0 l : keeps h0 (load_series l).
Proof.
  apply keeps_stable. intros w. unfold run, load_series.
  by destruct (heap w !! l) as [[|]|].
Qed.

Lemma keeps_getitem h0 {V} (d : gmap string V) k : keeps h0 (getitem d k).
Proof. apply keeps_stable. intros w. unfold run, getitem. by destruct (d !! k). Qed.

Lemma keeps_iloc h0 s i : keeps h0 (iloc s i).
Proof. apply keeps_stable. intros w. unfold run, iloc. by destruct (s !! i). Qed.

Lemma keeps_read h0 v : keeps h0 (read v).
Proof.
  apply keeps_bind; [apply keeps_load_array|]. intros vars.
  destruct (vars !! row v); [apply keeps_ret | apply keeps_raise].
Qed.

(** An in-place update of an array outside [h0]. *)
Lemma keeps_update h0 v f : h0 !! base v = None -> keeps h0 (update v f).
Proof.
  intros Hv. apply keeps_bind; [apply keeps_load_array|]. intros vars.
  destruct (vars !! row v); [|apply keeps_raise].
  intros w Hw. unfold run. simpl. by apply insert_subseteq_r.
Qed.

Lemma keeps_binomial h0 n p : keeps h0 (binomial n p).
Proof. apply keeps_stable. intros w. unfold run, binomial. by case_decide. Qed.

Lemma keeps_binomial_scalar h0 n p : keeps h0 (binomial_scalar n p).
Proof.
  apply keeps_stable. intros w. unfold run, binomial_scalar. by case_decide.
Qed.

Lemma keeps_poisson h0 lam : keeps h0 (poisson lam).
Proof. apply keeps_stable. intros w. unfold run, poisson. by case_decide. Qed.

Lemma keeps_normal h0 k : keeps h0 (normal k).
Proof. by apply keeps_stable. Qed.

Lemma keeps_new_dataframe h0 a names : keeps h0 (new_dataframe a names).
Proof.
  apply keeps_stable. intros w. unfold run, new_dataframe. by case_decide.
Qed.

Lemma keeps_for_each h0 {A} (l : list A) body :
  (forall a, keeps h0 (body a)) -> keeps h0 (for_each l body).
Proof.
  intros Hb. induction l as [|a l IH]; [apply keeps_ret|].
  simpl. apply keeps_bind; [apply Hb | by intros _].
Qed.

Create HintDb keeps.

#[local] Hint Resolve keeps_ret keeps_raise keeps_alloc keeps_load_array
  keeps_load_series keeps_getitem keeps_iloc keeps_read keeps_update
  keeps_binomial keeps_binomial_scalar keeps_poisson keeps_normal
  keeps_new_dataframe : keeps.

Ltac keeps_steps :=
  repeat first
    [ apply keeps_bind_alloc; intros ? ?
    | apply keeps_bind; [solve [auto with keeps] | intros ?]
    | solve [auto with keeps] ].

Lemma sir_keeps h0 y theta names dt :
  keeps h0 (stochastic_sir_model y theta names dt).
Proof.
  unfold stochastic_sir_model.
  apply keeps_bind; [apply keeps_load_array|]. intros vars.
  destruct vars as [|S_ [|I_ [|R_ [|NI [|B [|]]]]]]; try apply keeps_raise.
  keeps_steps.
Qed.

Lemma sirs_keeps h0 y theta names dt :
  keeps h0 (stochastic_sirs_model y theta names dt).
Proof.
  unfold stochastic_sirs_model.
  apply keeps_bind; [apply keeps_load_array|]. intros vars.
  destruct vars as [|S_ [|I_ [|R_ [|NI [|B [|]]]]]]; try apply keeps_raise.
  keeps_steps.
Qed.

Lemma dthp_keeps h0 state theta sn tn od t N :
  keeps h0 (dthp_model state theta sn tn od t N).
Proof.
  unfold dthp_model.
  apply keeps_bind; [apply keeps_load_array|]. intros vars.
  apply keeps_bind_alloc. intros c Hc.
  destruct vars as [|lm [|C_I [|Rt [|]]]]; try apply keeps_raise.
  apply keeps_bind; [apply keeps_getitem|]. intros omega_I.
  apply keeps_bind; [by apply keeps_update|]. intros _.
  apply keeps_bind; [apply keeps_read|]. intros rt.
  apply keeps_bind; [apply keeps_normal|]. intros z.
  apply keeps_bind; [by apply keeps_update|]. intros _.
  apply keeps_bind.
  { apply keeps_for_each. intros ti. unfold obs_of.
    apply keeps_bind; [keeps_steps|]. intros obs.
    apply keeps_bind; [apply keeps_iloc|]. intros o.
    by apply keeps_update. }
  intros _. keeps_steps.
Qed.

End Frame.
Export Frame.

(** ** The decaying kernel *)

Module Kernels.
Local Open Scope R_scope.

Lemma fpow_one k : fpow (Fin 1) k = Fin 1.
Proof. destruct k; [done|]. unfold fpow. rewrite pow1. apply rnd_1. Qed.

Lemma fpow_zero k : fpow (Fin 0) (S k) = Fin 0.
Proof. unfold fpow. rewrite pow_i by lia. apply rnd_0. Qed.

(** With omega_I = 1 only the last observation counts. *)
Lemma kernel_value_one t ti :
  kernel_value 1 t ti =
  if decide (Z.to_nat (t - Z.of_nat ti - 1) = 0%nat) then Fin 1 else Fin 0.
Proof.
  unfold kernel_value. rewrite fsub_diag.
  destruct (Z.to_nat (t - Z.of_nat ti - 1)) as [|k].
  - rewrite decide_True by done. cbn [fpow]. apply fmul_1_l, is_float_1.
  - rewrite decide_False by done. by rewrite fpow_zero, fmul_0_r.
Qed.

(** With omega_I = 0 the kernel is silent. *)
Lemma kernel_value_zero t ti : kernel_value 0 t ti = Fin 0.
Proof.
  unfold kernel_value.
  rewrite (fsub_0_r 1 is_float_1), fpow_one. apply fmul_0_l.
Qed.




(** With a silent kernel the intensity is 0 whatever the history is. *)
Lemma foldl_conv_step_silent obs t (l : list nat) :
  foldl (conv_step obs 0 t) (Fin 0) l = Fin 0.
Proof.
  induction l as [|ti l IH]; [done|].
  simpl. unfold conv_step at 2.
  rewrite kernel_value_zero, fmul_0_r, (fadd_0_r 0 is_float_0). exact IH.
Qed.

Lemma intensity_silent obs t : intensity obs 0 t = Fin 0.
Proof. apply foldl_conv_step_silent. Qed.


End Kernels.
Export Kernels.

(** ** The example calls run *)

Module ExampleRuns.
Local Open Scope R_scope.

Lemma singleton_valid_prob p : valid_prob p -> Forall valid_prob [p].
Proof. by repeat constructor. Qed.

Lemma singleton_nonneg_counts k :
  (0 <= k < 2 ^ 63)%Z -> nonneg_counts [astype_int (Fin (IZR k))].
Proof. intros Hk. repeat constructor. rewrite astype_int_IZR; lia. Qed.

(** The scenario of the specification returns a state of one particle. *)
Lemma sir_example_run theta names gamma :
  dict_zip names theta !! "gamma" = Some gamma -> 0 <= gamma ->
  exists l w' out s' i' r' ni' b',
    run (stochastic_sir_model 1%positive theta names 1) sir_world = (Ok l, w') /\
    heap w' !! l = Some (Array2 out) /\
    particle out 0 = Some [s'; i'; r'; ni'; b'].
Proof.
  intros Hg Hpos.
  assert (sir_good [Fin 990] [Fin 10] [Fin 0] [Fin (1 / 4)] gamma 1) as Hgood.
  { split; (split; [|by apply singleton_nonneg_counts]).
    - apply singleton_valid_prob. cbn [fst snd].
      rewrite (fadd_int 990 10), (fadd_int (990 + 10) 0) by (simpl; lia).
      apply valid_prob_SI; try lra. by apply IZR_lt.
    - apply valid_prob_rate. lra. }
  destruct (sir_returns sir_world 1%positive theta names 1
              [Fin 990] [Fin 10] [Fin 0] [Fin 0] [Fin (1 / 4)] gamma
              eq_refl Hg Hgood)
    as (l & w' & Hrun).
  destruct (sir_ok_inv _ _ _ _ _ _ _ Hrun)
    as (S_ & I_ & R_ & NI & B & gamma' & Hy & Hg' & _ & _ & _ & Hout).
  injection Hy as <- <- <- <- <-.
  exists l, w'. eexists _, _, _, _, _, _. split; [done|]. split; [exact Hout|].
  reflexivity.
Qed.

(** The exponential of -1 is at most 1/2, so the probability of a rate 1
    over a unit step is at least 1/2. *)
Lemma exp_minus_1 : exp (- (1)) <= 1 / 2.
Proof.
  rewrite exp_Ropp. pose proof (exp_ineq1 1 ltac:(lra)) as H.
  apply Rle_trans with (/ 2); [|lra].
  apply Rinv_le_contravar; lra.
Qed.

Lemma prob_rate_unit : exists p, prob_rate 1 1 = Fin p /\ 1 / 2 <= p <= 1.
Proof.
  unfold prob_rate, fmul. rewrite Rmult_1_r.
  rewrite (rnd_float (- (1))) by apply is_float_opp, is_float_1.
  unfold fexp.
  destruct (rnd_between (exp (- (1))) 0 (1 / 2) is_float_0 is_float_half)
    as (e & -> & He & _).
  { split; [left; apply exp_pos|apply exp_minus_1]. }
  unfold fsub.
  destruct (rnd_between (1 - e) (1 / 2) 1 is_float_half is_float_1)
    as (p & -> & Hp & _); [lra|].
  by exists p.
Qed.

Lemma binomial_draw_all n p raw :
  0 < p -> (n <= Z.of_nat raw)%Z -> binomial_draw n p raw = n.
Proof.
  intros Hp Hn. unfold binomial_draw. rewrite decide_False by lra.
  case_decide; lia.
Qed.

(** The SIRS example returns: the infected individual recovers, and the
    death term [mu * I * dt] takes [I_next] below zero, where it is
    clamped. *)
Lemma sirs_example_run :
  exists l w' out s' i' r' ni' b' m,
    run (stochastic_sirs_model 1%positive [1; 0; 0]
           ["gamma"; "alpha"; "nu_beta"] 1) sirs_world = (Ok l, w') /\
    heap w' !! l = Some (Array2 out) /\
    particle out 0 = Some [s'; i'; r'; ni'; b'] /\
    mu = Fin m /\ s' = Fin m /\ i' = Fin 0 /\ r' = Fin 1.
Proof.
  assert (sirs_good [Fin 0] [Fin 1] [Fin 0] [Fin 1] 1 0 1) as Hgood.
  { split; [split|]; (split; [|by apply singleton_nonneg_counts]).
    - apply singleton_valid_prob. cbn [fst snd].
      rewrite (fadd_int 0 1), (fadd_int (0 + 1) 0) by (simpl; lia).
      apply valid_prob_SI; try lra. by apply IZR_lt.
    - apply valid_prob_rate. lra.
    - apply valid_prob_rate. lra. }
  destruct (sirs_returns sirs_world 1%positive [1; 0; 0]
              ["gamma"; "alpha"; "nu_beta"] 1
              [Fin 0] [Fin 1] [Fin 0] [Fin 0] [Fin 1] 1 0
              eq_refl eq_refl eq_refl Hgood)
    as (l & w' & Hrun).
  destruct (sirs_ok_inv _ _ _ _ _ _ _ Hrun)
    as (S_ & I_ & R_ & NI & B & gamma & nu_beta & Hy & Hg & Hnu & _ & _ & _ & Hout).
  injection Hy as <- <- <- <- <-. injection Hg as <-. injection Hnu as <-.
  assert (exists row, particle (maximum0
            (sirs_next sirs_world [Fin 0] [Fin 1] [Fin 0] [Fin 1] 1 0 0 1)) 0
            = Some row)
    as [row Hrow] by (eexists; reflexivity).
  pose proof (sirs_row sirs_world [Fin 0] [Fin 1] [Fin 0] [Fin 0] [Fin 1]
                1 0 0 1 0 (Fin 0) (Fin 1) (Fin 0) (Fin 0) (Fin 1) row
                eq_refl Hrow) as Hform.
  cbn [length Nat.add ints sirs_world] in Hform.
  rewrite !(astype_int_IZR 0), (astype_int_IZR 1) in Hform by lia.
  rewrite !binomial_draw_no_trials in Hform.
  destruct prob_rate_unit as (p & Hp & Hp1). rewrite Hp in Hform.
  cbn [real_of] in Hform. rewrite binomial_draw_all in Hform by (simpl; lra || lia).
  destruct mu_value as (m & Hm & Hm1 & Hmf & _). rewrite Hm in Hform.
  rewrite (of_int_exact 0), (of_int_exact 1) in Hform by (simpl; lia).
  rewrite (fadd_int 0 1), (fadd_int (0 + 1) 0) in Hform by (simpl; lia).
  change (IZR (0 + 1 + 0)) with 1 in Hform.
  change (IZR (0 + 1)) with 1 in Hform.
  rewrite !fsub_diag, !(fsub_0_r 1 is_float_1) in Hform.
  rewrite !(fmul_1_r m Hmf), !fmul_0_r, !fmul_0_l in Hform.
  rewrite (fadd_0_l m Hmf), (fadd_0_r m Hmf), (fadd_0_r 1 is_float_1) in Hform.
  rewrite ?(fsub_0_r 1 is_float_1), ?fsub_diag in Hform.
  assert (fsub (Fin 0) (Fin m) = Fin (- m)) as Hneg.
  { unfold fsub. replace (0 - m) with (- m) by lra.
    by apply rnd_float, is_float_opp. }
  rewrite Hneg in Hform.
  rewrite (fmax0_id m), (fmax0_neg (- m)), (fmax0_id 1) in Hform by lra.
  exists l, w'. eexists _, _, _, _, _, _, m. split; [done|]. split; [exact Hout|].
  split; [etrans; [exact Hrow|by rewrite Hform]|]. done.
Qed.

(** The Hawkes example: omega_I = 1 makes the intensity the observation,
    nu_beta = 0 keeps Rt. *)
Lemma hawkes_intensity obs : is_float obs -> intensity [obs] 1 1 = Fin obs.
Proof.
  intros Ho. unfold intensity. change (range 1) with [0%nat]. cbn [foldl].
  unfold conv_step. rewrite kernel_value_one, decide_True by done.
  cbn [lookup list_lookup default from_option].
  change (default 0 ([obs] !! 0%nat)) with obs.
  by rewrite fmul_1_r, fadd_0_l.
Qed.

Lemma hawkes_example_means C Rt obs :
  is_float Rt -> is_float obs ->
  dthp_means (hawkes_state C Rt obs) [Fin 0] [Fin C] [Fin Rt] [obs] 1 0 1 1
  = [poisson_mean 1 (Fin C) (Fin Rt) (Fin obs)].
Proof.
  intros HR Ho. unfold dthp_means, dthp_Rt, dthp_lm, zip_with3.
  rewrite hawkes_intensity by done. cbn.
  by rewrite perturb_zero.
Qed.

(** The Hawkes example returns whenever its mean is acceptable; the draw of
    its particle is the raw outcome 5, or 0 for a zero mean. *)
Lemma hawkes_example_run C Rt obs m :
  is_float Rt -> is_float obs ->
  poisson_mean 1 (Fin C) (Fin Rt) (Fin obs) = Fin m ->
  0 <= m <= 1000 ->
  exists df w' out l' c' r',
    run (dthp_model 1%positive hawkes_theta hawkes_names hawkes_theta_names
           hawkes_data 1 1)
      (hawkes_state C Rt obs) = (Ok df, w') /\
    heap w' !! values df = Some (Array2 out) /\
    particle out 0 = Some [l'; c'; r'] /\
    l' = of_int (poisson_draw m 5) /\ c' = fadd (Fin C) l' /\ r' = Fin Rt.
Proof.
  intros HR Ho Hmean Hm.
  assert (dthp_good (hawkes_state C Rt obs) hawkes_names hawkes_data 1
            (dthp_means (hawkes_state C Rt obs) [Fin 0] [Fin C] [Fin Rt] [obs]
               1 0 1 1)) as Hgood.
  { split; [|split; [|done]].
    - intros _. split; [by exists 2%positive, [obs]|].
      change (obs_values (hawkes_state C Rt obs) hawkes_data) with [obs].
      simpl. lia.
    - rewrite hawkes_example_means, Hmean by done.
      constructor; [|constructor]. apply valid_mean_fin. lra. }
  destruct (dthp_returns (hawkes_state C Rt obs) 1%positive hawkes_theta
              hawkes_names hawkes_theta_names hawkes_data 1 1
              [Fin 0] [Fin C] [Fin Rt] 1 eq_refl eq_refl Hgood)
    as (df & w' & Hrun).
  destruct (dthp_ok_inv _ _ _ _ _ _ _ _ _ _ Hrun)
    as (lm & C0 & Rt0 & omega & Hy & Hom & _ & _ & _ & _ & Hout).
  injection Hy as <- <- <-. injection Hom as <-.
  assert (exists row, particle
            (dthp_out (hawkes_state C Rt obs) [Fin 0] [Fin C] [Fin Rt] [obs]
               1 0 1 1) 0 = Some row) as [row Hrow] by (eexists; reflexivity).
  destruct (dthp_row (hawkes_state C Rt obs) [Fin 0] [Fin C] [Fin Rt] [obs]
              1 0 1 1 0 (Fin 0) (Fin C) (Fin Rt) row eq_refl Hrow)
    as [_ Hform].
  cbn [gauss ints hawkes_state] in Hform.
  rewrite hawkes_intensity, perturb_zero, Hmean in Hform by done.
  cbn [real_of] in Hform.
  exists df, w'. eexists _, _, _, _. split; [done|]. split; [exact Hout|].
  split; [etrans; [exact Hrow|by rewrite Hform]|]. done.
Qed.

(** The mean of the example for whole numbers. *)
Lemma poisson_mean_int k o :
  (Z.abs k <= 2 ^ 20)%Z -> (Z.abs o <= 2 ^ 20)%Z ->
  poisson_mean 1 (Fin (IZR k)) (Fin 1) (Fin (IZR o))
  = Fin (IZR ((1 - k) * o)).
Proof.
  intros Hk Ho. unfold poisson_mean.
  assert (fdiv (Fin (IZR k)) (Fin 1) = Fin (IZR k)) as ->.
  { unfold fdiv. rewrite decide_False by lra.
    replace (IZR k / 1) with (IZR k) by field. apply rnd_IZR. lia. }
  rewrite (fsub_int 1 k) by lia.
  rewrite fmul_1_r by (apply is_float_IZR; lia).
  apply fmul_int. nia.
Qed.

(** The example with C_I = 0 and one past observation: the mean is 1 and
    the draw 5. *)
Lemma hawkes_example_draw :
  exists df w' out r',
    run (dthp_model 1%positive hawkes_theta hawkes_names hawkes_theta_names
           hawkes_data 1 1)
      (hawkes_world 0 1) = (Ok df, w') /\
    heap w' !! values df = Some (Array2 out) /\
    particle out 0 = Some [Fin 5; Fin 5; r'].
Proof.
  destruct (hawkes_example_run 0 1 1 1 is_float_1 is_float_1
              (poisson_mean_int 0 1 ltac:(simpl; lia) ltac:(simpl; lia)))
    as (df & w' & out & l' & c' & r' & Hrun & Hout & Hrow & -> & -> & _);
    [lra|].
  rewrite poisson_draw_positive in Hrow by lra.
  change (Z.min (Z.of_nat 5) (2 ^ 63 - 1)) with 5%Z in Hrow.
  rewrite (of_int_exact 5), (fadd_int 0 5) in Hrow by (simpl; lia).
  by exists df, w', out, r'.
Qed.

End ExampleRuns.
Export ExampleRuns.
(** ** The rounding error of the SIRS update *)

Module Balance.
Local Open Scope R_scope.








End Balance.
Export Balance.

(** ** The properties of the specification *)

Module Claims.
Local Open Scope R_scope.

(** The particle of the input behind a particle of a returned SIR or SIRS
    state; the NI column of the input is not read. *)
Lemma sir_next_particle w S_ I_ R_ B gamma nu_beta dt i row' :
  particle (maximum0 (sir_next w S_ I_ R_ B gamma nu_beta dt)) i = Some row' ->
  exists s ii r b,
    particle [S_; I_; R_; S_; B] i = Some [s; ii; r; s; b].
Proof.
  intros Hout.
  unfold maximum0, sir_next in Hout. rewrite !fmap_cons, fmap_nil in Hout.
  particles.
  unfold vmax0, vsub, vadd, vint, random_walk in *. lookups.
  repeat match goal with
  | H : ?l !! i = Some ?x, H' : ?l !! i = Some ?y |- _ =>
      assert (x = y) by congruence; subst; clear H'
  end.
  match goal with
  | H1 : S_ !! i = Some ?s, H2 : I_ !! i = Some ?ii, H3 : R_ !! i = Some ?r,
    H4 : B !! i = Some ?b |- _ =>
      exists s, ii, r, b; unfold particle; cbn; by rewrite H1, H2, H3, H4
  end.
Qed.

Lemma sirs_next_particle w S_ I_ R_ B gamma alpha nu_beta dt i row' :
  particle (maximum0 (sirs_next w S_ I_ R_ B gamma alpha nu_beta dt)) i
    = Some row' ->
  exists s ii r b,
    particle [S_; I_; R_; S_; B] i = Some [s; ii; r; s; b].
Proof.
  intros Hout.
  unfold maximum0, sirs_next in Hout. rewrite !fmap_cons, fmap_nil in Hout.
  particles.
  unfold vmax0, vsub, vadd, vint, vscale, vtimes, random_walk in *. lookups.
  repeat match goal with
  | H : ?l !! i = Some ?x, H' : ?l !! i = Some ?y |- _ =>
      assert (x = y) by congruence; subst; clear H'
  end.
  match goal with
  | H1 : S_ !! i = Some ?s, H2 : I_ !! i = Some ?ii, H3 : R_ !! i = Some ?r,
    H4 : B !! i = Some ?b |- _ =>
      exists s, ii, r, b; unfold particle; cbn; by rewrite H1, H2, H3, H4
  end.
Qed.

(** An accepted probability of infection comes from a population and a
    rate that are not nan. *)
Lemma prob_SI_valid_inv dt b ii N :
  valid_prob (prob_SI dt b ii N) -> N <> NaN /\ ii <> NaN /\ b <> NaN.
Proof.
  intros Hv. assert (prob_SI dt b ii N <> NaN) as Hn
    by (by destruct (prob_SI dt b ii N)).
  unfold prob_SI in Hn.
  apply fsub_nan_inv in Hn as [_ Hn]. apply fexp_nan_inv in Hn.
  apply fmul_nan_inv in Hn as [Hn _]. apply fdiv_nan_inv in Hn as [Hn HN].
  apply fmul_nan_inv in Hn as [Hb Hi]. apply fneg_nan_inv in Hb. done.
Qed.

Lemma draw_bounded n p raw :
  (0 <= n < 2 ^ 63)%Z -> bounded (bpow 63) (of_int (binomial_draw n p raw)).
Proof.
  intros Hn. pose proof (binomial_draw_bounds n p raw ltac:(lia)).
  apply of_int_bounded; lia.
Qed.

Lemma astype_int_range a : (0 <= astype_int a)%Z -> (0 <= astype_int a < 2 ^ 63)%Z.
Proof.
  intros H. destruct (astype_int_nonneg_inv a H) as (x & _ & _ & Hr & ->). lia.
Qed.

(** The clamped compartments of a SIR particle are not negative. *)
Lemma sir_row_nonneg s ii r dt b (Y_SI Y_IR : Z) b5 :
  valid_prob (prob_SI dt b ii (fadd (fadd s ii) r)) ->
  (0 <= astype_int s)%Z -> (0 <= astype_int ii)%Z ->
  bounded (bpow 63) (of_int Y_SI) -> bounded (bpow 63) (of_int Y_IR) ->
  nonneg (fmax0 (fsub s (of_int Y_SI))) /\
  nonneg (fmax0 (fsub (fadd ii (of_int Y_SI)) (of_int Y_IR))) /\
  nonneg (fmax0 (fadd r (of_int Y_IR))) /\
  nonneg (fmax0 (of_int Y_SI)) /\
  nonneg_or_nan (fmax0 b5).
Proof.
  intros Hp Hs Hi H1 H2.
  apply prob_SI_valid_inv in Hp as (HN & _ & _).
  apply fadd_nan_inv in HN as [_ Hr].
  apply astype_int_bounded, bounded_finite in Hs, Hi.
  apply bounded_finite in H1 as F1. apply bounded_finite in H2 as F2.
  pose proof (finite_not_nan _ Hs). pose proof (finite_not_nan _ Hi).
  pose proof (finite_not_nan _ F1). pose proof (finite_not_nan _ F2).
  split; [|split; [|split; [|split; [|apply fmax0_nonneg_or_nan]]]];
    apply fmax0_nonneg; try done.
  - apply fsub_fin_not_nan; auto.
  - apply fsub_fin_not_nan; auto. apply fadd_fin_not_nan; auto.
  - apply fadd_fin_not_nan; auto.
Qed.

Lemma bpow_sum_le a b c : (a < c)%Z -> (b < c)%Z -> bpow a + bpow b <= bpow c.
Proof.
  intros Ha Hb. replace c with (c - 1 + 1)%Z by lia. rewrite bpow_plus_1.
  pose proof (bpow_le a (c - 1) ltac:(lia)).
  pose proof (bpow_le b (c - 1) ltac:(lia)). lra.
Qed.

(** The clamped compartments of a SIRS particle are not negative. *)
Lemma sirs_row_nonneg s ii r dt (Y_SI Y_IR Y_RS : Z) b5 :
  (0 <= astype_int s)%Z -> (0 <= astype_int ii)%Z -> (0 <= astype_int r)%Z ->
  bounded (bpow 63) (of_int Y_SI) -> bounded (bpow 63) (of_int Y_IR) ->
  bounded (bpow 63) (of_int Y_RS) ->
  nonneg (fmax0 (fadd (fadd (fsub s (of_int Y_SI))
                        (fmul (fmul mu (fsub (fadd (fadd s ii) r) s)) (Fin dt)))
                  (of_int Y_RS))) /\
  nonneg (fmax0 (fsub (fsub (fadd ii (of_int Y_SI)) (of_int Y_IR))
                  (fmul (fmul mu ii) (Fin dt)))) /\
  nonneg (fmax0 (fsub (fsub (fadd r (of_int Y_IR)) (fmul (fmul mu r) (Fin dt)))
                  (of_int Y_RS))) /\
  nonneg (fmax0 (of_int Y_SI)) /\
  nonneg_or_nan (fmax0 b5).
Proof.
  intros Hs Hi Hr H1 H2 H3.
  apply astype_int_bounded in Hs, Hi, Hr.
  destruct mu_value as (m & Hm & Hm1 & _ & _).
  assert (bounded 1 mu) as Hmu by (rewrite Hm; simpl; apply Rabs_le; lra).
  assert (forall e, (0 <= e <= 1023)%Z -> is_float (bpow e)) as Hf
    by (intros; apply is_float_bpow; lia).
  assert (bounded (bpow 64) (fadd s ii)) as B1.
  { eapply fadd_bounded; [done|done|by apply Hf|].
    by apply bpow_sum_le. }
  assert (bounded (bpow 65) (fadd (fadd s ii) r)) as B2.
  { eapply fadd_bounded; [done|done|by apply Hf|].
    by apply bpow_sum_le. }
  assert (bounded (bpow 66) (fsub (fadd (fadd s ii) r) s)) as B3.
  { eapply fsub_bounded; [done|done|by apply Hf|].
    by apply bpow_sum_le. }
  assert (forall a e, bounded (bpow e) a -> (0 <= e <= 1023)%Z ->
            fmul (fmul mu a) (Fin dt) <> NaN) as Hflow.
  { intros a e Ha He. apply fmul_fin_not_nan; [|done].
    eapply bounded_finite, (fmul_bounded 1 (bpow e) (bpow e));
      [done|done|by apply Hf|lra]. }
  assert (forall a c, bounded (bpow 63) a -> bounded (bpow 63) c ->
            bounded (bpow 64) (fadd a c) /\ bounded (bpow 64) (fsub a c)) as Hsum.
  { intros a c Ha Hc.
    split; [eapply fadd_bounded|eapply fsub_bounded]; try done;
      try (by apply Hf); by apply bpow_sum_le. }
  split; [|split; [|split; [|split; [|apply fmax0_nonneg_or_nan]]]];
    apply fmax0_nonneg.
  - apply fadd_fin_not_nan; [right; by eapply bounded_finite| |
      by eapply finite_not_nan, bounded_finite].
    apply fadd_fin_not_nan;
      [left; eapply bounded_finite, Hsum; done| |by eapply Hflow].
    eapply finite_not_nan, bounded_finite, Hsum; done.
  - apply fsub_fin_not_nan; [left| |by eapply Hflow].
    + eapply bounded_finite, (fsub_bounded (bpow 64) (bpow 63) (bpow 65));
        [by apply Hsum|done|by apply Hf|].
      by apply bpow_sum_le.
    + eapply finite_not_nan, bounded_finite,
        (fsub_bounded (bpow 64) (bpow 63) (bpow 65));
        [by apply Hsum|done|by apply Hf|].
      by apply bpow_sum_le.
  - apply fsub_fin_not_nan; [right; by eapply bounded_finite| |
      by eapply finite_not_nan, bounded_finite].
    apply fsub_fin_not_nan;
      [left; eapply bounded_finite, Hsum; done| |by eapply Hflow].
    eapply finite_not_nan, bounded_finite, Hsum; done.
  - eapply finite_not_nan, bounded_finite. done.
Qed.

(** A returned Hawkes particle keeps the sign of its C_I and of its Rt. *)
Lemma dthp_row_nonneg N c r nu_beta z lmv raw :
  valid_mean (poisson_mean N c (perturb nu_beta r z) lmv) ->
  let draw := poisson_draw (real_of (poisson_mean N c (perturb nu_beta r z) lmv))
                raw in
  nonneg (of_int draw) /\
  (nonneg c -> nonneg (fadd c (of_int draw))) /\
  (nonneg r -> nonneg (perturb nu_beta r z)).
Proof.
  intros Hv draw.
  assert (nonneg (of_int draw)) as Hd
    by apply of_int_nonneg, poisson_draw_nonneg.
  split; [done|]. split; [intros Hc; by apply fadd_nonneg|].
  intros Hr. apply valid_mean_finite in Hv as (x & Hx & _).
  apply poisson_mean_finite_inv in Hx as (_ & _ & Hrt & _).
  apply nonneg_or_nan_nonneg; [|done].
  unfold perturb. apply fmul_nonneg_or_nan; [by apply nonneg_weaken|].
  apply fexp_nonneg_or_nan.
Qed.

(** C1. Every compartment or count of a state returned by one of the three
    kernels is non-negative (a number that is not negative, or the positive
    infinity), whatever the input and the draws are: S, I, R and NI of every
    particle returned by the SIR and the SIRS kernel, whose B is
    non-negative or nan (nan when B was nan, or zero multiplied by an
    overflowed factor); and for the Hawkes kernel the drawn count lm_I, the
    counter C_I when it was non-negative on entry, and likewise Rt. *)
Theorem outputs_nonnegative :
  (forall w y theta names dt l w',
     run (stochastic_sir_model y theta names dt) w = (Ok l, w') ->
     exists out, heap w' !! l = Some (Array2 out) /\
       forall i s' i' r' ni' b',
         particle out i = Some [s'; i'; r'; ni'; b'] ->
         nonneg s' /\ nonneg i' /\ nonneg r' /\ nonneg ni' /\
         nonneg_or_nan b') /\
  (forall w y theta names dt l w',
     run (stochastic_sirs_model y theta names dt) w = (Ok l, w') ->
     exists out, heap w' !! l = Some (Array2 out) /\
       forall i s' i' r' ni' b',
         particle out i = Some [s'; i'; r'; ni'; b'] ->
         nonneg s' /\ nonneg i' /\ nonneg r' /\ nonneg ni' /\
         nonneg_or_nan b') /\
  (forall w state theta sn tn od t N df w' lm C_I Rt,
     heap w !! state = Some (Array2 [lm; C_I; Rt]) ->
     run (dthp_model state theta sn tn od t N) w = (Ok df, w') ->
     exists out, heap w' !! values df = Some (Array2 out) /\
       forall i l c r l' c' r',
         particle [lm; C_I; Rt] i = Some [l; c; r] ->
         particle out i = Some [l'; c'; r'] ->
         nonneg l' /\ (nonneg c -> nonneg c') /\ (nonneg r -> nonneg r')).
Proof.
  split; [|split].
  - intros w y theta names dt l w' Hrun.
    destruct (sir_ok_inv _ _ _ _ _ _ _ Hrun)
      as (S_ & I_ & R_ & NI & B & gamma & _ & _ & Hgood & _ & _ & Hout).
    eexists. split; [exact Hout|].
    intros i s' i' r' ni' b' Hrow.
    destruct (sir_next_particle _ _ _ _ _ _ _ _ _ _ Hrow)
      as (s & ii & r & b & Hin).
    destruct (sir_good_particle _ _ _ S_ _ _ _ _ _ _ _ _ _ Hgood Hin)
      as (Hp & _ & Hs & Hi).
    pose proof (sir_row _ _ _ _ _ _ _ _ _ _ _ _ _ _ _ _ Hin Hrow) as Hform.
    cbv zeta in Hform. injection Hform as -> -> -> -> ->.
    pose proof (astype_int_range _ Hs). pose proof (astype_int_range _ Hi).
    apply (sir_row_nonneg s ii r dt b); try done; by apply draw_bounded.
  - intros w y theta names dt l w' Hrun.
    destruct (sirs_ok_inv _ _ _ _ _ _ _ Hrun)
      as (S_ & I_ & R_ & NI & B & gamma & nu & _ & _ & _ & Hgood & _ & _ & Hout).
    eexists. split; [exact Hout|].
    intros i s' i' r' ni' b' Hrow.
    destruct (sirs_next_particle _ _ _ _ _ _ _ _ _ _ _ Hrow)
      as (s & ii & r & b & Hin).
    destruct (sirs_good_particle _ _ _ S_ _ _ _ _ _ _ _ _ _ _ Hgood Hin)
      as (_ & _ & _ & Hs & Hi & Hr).
    pose proof (sirs_row _ _ _ _ _ _ _ _ _ _ _ _ _ _ _ _ _ Hin Hrow) as Hform.
    cbv zeta in Hform. injection Hform as -> -> -> -> ->.
    pose proof (astype_int_range _ Hs). pose proof (astype_int_range _ Hi).
    pose proof (astype_int_range _ Hr).
    apply (sirs_row_nonneg s ii r dt); try done; by apply draw_bounded.
  - intros w state theta sn tn od t N df w' lm C_I Rt Hst Hrun.
    destruct (dthp_ok_inv _ _ _ _ _ _ _ _ _ _ Hrun)
      as (lm0 & C0 & Rt0 & omega & Hst' & _ & (_ & Hvalid & _) & _ & _ & _
          & Hout).
    rewrite Hst in Hst'. injection Hst' as <- <- <-.
    eexists. split; [exact Hout|].
    intros i l c r l' c' r' Hin Hrow.
    destruct (dthp_row _ _ _ _ _ _ _ _ _ _ _ _ _ _ Hin Hrow) as [Hmean Hform].
    eapply Forall_lookup_1 in Hvalid; [|exact Hmean].
    injection Hform as -> -> ->.
    by apply dthp_row_nonneg.
Qed.

Lemma outputs_nonnegative_witness :
  (exists l w' out s' i' r' ni' b',
     run (stochastic_sir_model 1%positive [1 / 8; 0] ["gamma"; "nu_beta"] 1)
       sir_world = (Ok l, w') /\
     heap w' !! l = Some (Array2 out) /\
     particle out 0 = Some [s'; i'; r'; ni'; b'] /\
     nonneg s' /\ nonneg i' /\ nonneg r' /\ nonneg ni' /\ nonneg_or_nan b') /\
  (exists l w' out s' i' r' ni' b',
     run (stochastic_sirs_model 1%positive [1; 0; 0]
            ["gamma"; "alpha"; "nu_beta"] 1) sirs_world = (Ok l, w') /\
     heap w' !! l = Some (Array2 out) /\
     particle out 0 = Some [s'; i'; r'; ni'; b'] /\
     nonneg s' /\ nonneg i' /\ nonneg r' /\ nonneg ni' /\ nonneg_or_nan b') /\
  (exists df w' out l' c' r',
     run (dthp_model 1%positive hawkes_theta hawkes_names hawkes_theta_names
           hawkes_data 1 1)
       (hawkes_world 0 1) = (Ok df, w') /\
     heap w' !! values df = Some (Array2 out) /\
     particle out 0 = Some [l'; c'; r'] /\
     nonneg l' /\ nonneg c' /\ nonneg r').
Proof.
  destruct outputs_nonnegative as (Hsir & Hsirs & Hdthp).
  split; [|split].
  - destruct (sir_example_run [1 / 8; 0] ["gamma"; "nu_beta"] (1 / 8) eq_refl)
      as (l & w' & out & s' & i' & r' & ni' & b' & Hrun & Hout & Hrow); [lra|].
    destruct (Hsir _ _ _ _ _ _ _ Hrun) as (out' & Hout' & Hnn).
    rewrite Hout in Hout'. injection Hout' as <-.
    exists l, w', out, s', i', r', ni', b'.
    split; [done|]. split; [done|]. split; [done|]. by apply (Hnn 0%nat).
  - destruct sirs_example_run
      as (l & w' & out & s' & i' & r' & ni' & b' & m & Hrun & Hout & Hrow & _).
    destruct (Hsirs _ _ _ _ _ _ _ Hrun) as (out' & Hout' & Hnn).
    rewrite Hout in Hout'. injection Hout' as <-.
    exists l, w', out, s', i', r', ni', b'.
    split; [done|]. split; [done|]. split; [done|]. by apply (Hnn 0%nat).
  - destruct (hawkes_example_run 0 1 1 1 is_float_1 is_float_1
                (poisson_mean_int 0 1 ltac:(simpl; lia) ltac:(simpl; lia)))
      as (df & w' & out & l' & c' & r' & Hrun & Hout & Hrow & _); [lra|].
    destruct (Hdthp (hawkes_world 0 1) 1%positive _ _ _ _ _ _ df w'
                [Fin 0] [Fin 0] [Fin 1] eq_refl Hrun)
      as (out' & Hout' & Hnn).
    rewrite Hout in Hout'. injection Hout' as <-.
    destruct (Hnn 0%nat (Fin 0) (Fin 0) (Fin 1) l' c' r' eq_refl Hrow)
      as (Hl & Hc & Hr).
    exists df, w', out, l', c', r'. split; [done|]. split; [done|].
    split; [done|]. split; [done|]. split.
    + apply Hc. simpl. lra.
    + apply Hr. simpl. lra.
Defined.

Lemma sum_3_2p53 :
  fadd (Fin 3) (Fin 9007199254740992) = Fin 9007199254740996.
Proof.
  unfold fadd.
  replace (3 + 9007199254740992) with (IZR (2 * 4503599627370497 + 1))
    by (rewrite plus_IZR, mult_IZR; lra).
  by rewrite rnd_tie by lia.
Qed.

Lemma sum_2p53_1 :
  fadd (Fin 9007199254740992) (Fin 1) = Fin 9007199254740992.
Proof.
  unfold fadd.
  replace (9007199254740992 + 1) with (IZR (2 * 4503599627370496 + 1))
    by (rewrite plus_IZR, mult_IZR; lra).
  by rewrite rnd_tie by lia.
Qed.

Lemma sum_2_2p53 :
  fadd (Fin 2) (Fin 9007199254740992) = Fin 9007199254740994.
Proof.
  unfold fadd.
  replace (2 + 9007199254740992) with (IZR (2 * 4503599627370497))
    by (rewrite mult_IZR; lra).
  rewrite rnd_float by (apply is_float_even; lia). done.
Qed.

(** C2, as the specification states it, fails: binary64 addition is
    rounded.  A particle S = 2, I = 1, R = 2 ** 53 whose infected individual
    recovers gets I_next = 0 and R_next = 2 ** 53 + 1 rounded to 2 ** 53:
    the sum drops from 2 ** 53 + 3 to 2 ** 53 + 2, and the two sums differ
    also when they are computed in binary64 (2 ** 53 + 4 before the step,
    2 ** 53 + 2 after it). *)
Lemma sir_population_not_conserved :
  exists l w' out s' i' r' ni' b',
    run (stochastic_sir_model 1%positive [1; 0] ["gamma"; "nu_beta"] 1)
      large_world = (Ok l, w') /\
    heap w' !! l = Some (Array2 out) /\
    particle out 0 = Some [Fin s'; Fin i'; Fin r'; ni'; b'] /\
    s' + i' + r' <> 2 + 1 + 9007199254740992 /\
    fadd (fadd (Fin s') (Fin i')) (Fin r')
    <> fadd (fadd (Fin 2) (Fin 1)) (Fin 9007199254740992).
Proof.
  assert (fadd (fadd (Fin 2) (Fin 1)) (Fin 9007199254740992)
          = Fin 9007199254740996) as Hbefore.
  { rewrite (fadd_int 2 1) by (simpl; lia). apply sum_3_2p53. }
  assert (sir_good [Fin 2] [Fin 1] [Fin 9007199254740992] [Fin 0] 1 1)
    as Hgood.
  { split; (split; [|by apply singleton_nonneg_counts]).
    - apply singleton_valid_prob. cbn [fst snd]. rewrite Hbefore.
      apply valid_prob_SI; lra.
    - apply valid_prob_rate. lra. }
  destruct (sir_returns large_world 1%positive [1; 0] ["gamma"; "nu_beta"] 1
              [Fin 2] [Fin 1] [Fin 9007199254740992] [Fin 0] [Fin 0] 1
              eq_refl eq_refl Hgood)
    as (l & w' & Hrun).
  destruct (sir_ok_inv _ _ _ _ _ _ _ Hrun)
    as (S_ & I_ & R_ & NI & B & gamma & Hy & Hg & _ & _ & _ & Hout).
  injection Hy as <- <- <- <- <-. injection Hg as <-.
  assert (exists row, particle (maximum0
            (sir_next large_world [Fin 2] [Fin 1] [Fin 9007199254740992]
               [Fin 0] 1
               (get (dict_zip ["gamma"; "nu_beta"] [1; 0]) "nu_beta"
                  nu_beta_default) 1)) 0 = Some row)
    as [row Hrow] by (eexists; reflexivity).
  pose proof (sir_row large_world [Fin 2] [Fin 1] [Fin 9007199254740992]
                [Fin 0] [Fin 0] 1 _ 1 0 (Fin 2) (Fin 1)
                (Fin 9007199254740992) (Fin 0) (Fin 0)
                row eq_refl Hrow) as Hform.
  cbn [length Nat.add ints large_world] in Hform.
  rewrite Hbefore, prob_SI_no_transmission in Hform by lra.
  rewrite (astype_int_IZR 2), (astype_int_IZR 1) in Hform by lia.
  cbn [real_of] in Hform. rewrite !binomial_draw_zero in Hform.
  destruct prob_rate_unit as (p & Hp & Hp1). rewrite Hp in Hform.
  cbn [real_of] in Hform.
  rewrite binomial_draw_all in Hform by (simpl; lra || lia).
  rewrite (of_int_exact 0), (of_int_exact 1) in Hform by (simpl; lia).
  rewrite (fadd_int 1 0), (fsub_int 2 0) in Hform by (simpl; lia).
  change (IZR (1 + 0)) with 1 in Hform. change (IZR (2 - 0)) with 2 in Hform.
  rewrite fsub_diag, sum_2p53_1 in Hform.
  rewrite (fmax0_id 0), (fmax0_id 2), (fmax0_id 9007199254740992) in Hform
    by lra.
  exists l, w'. eexists _, 2, 0, 9007199254740992, _, _.
  split; [done|]. split; [exact Hout|].
  split; [etrans; [exact Hrow|by rewrite Hform]|]. split; [lra|].
  rewrite Hbefore, (fadd_int 2 0) by (simpl; lia).
  change (IZR (2 + 0)) with 2. rewrite sum_2_2p53.
  intros [= H]. lra.
Qed.



(** C3. At full depletion infections stop: for a particle with C_I = N the
    Poisson mean (1 - C_I/N) * Rt * lm_I computed for it is 0 (as it is
    for all numbers Rt and lm_I), the lm_I returned for it is 0 and its C_I
    is returned unchanged.  (A call with N = 0 returns nothing: its means
    are nan and [poisson] raises.) *)
Theorem dthp_depletion_stops_infections w state theta sn tn od t N df w'
    lm C_I Rt out i l r l' c' r' :
  run (dthp_model state theta sn tn od t N) w = (Ok df, w') ->
  heap w !! state = Some (Array2 [lm; C_I; Rt]) ->
  heap w' !! values df = Some (Array2 out) ->
  particle [lm; C_I; Rt] i = Some [l; Fin N; r] ->
  is_float N ->
  particle out i = Some [l'; c'; r'] ->
  (forall rt lmv, poisson_mean N (Fin N) (Fin rt) (Fin lmv) = Fin 0) /\
  (exists omega_I,
     dict_zip tn theta !! "omega_I" = Some omega_I /\
     poisson_mean N (Fin N) r' (intensity (obs_values w od) omega_I t)
     = Fin 0) /\
  l' = Fin 0 /\ c' = Fin N.
Proof.
  intros Hrun Hst Hdf Hin HN Hout.
  destruct (dthp_ok_row _ _ _ _ _ _ _ _ _ _ _ _ _ _ _ _ _ Hrun Hst Hdf Hin Hout)
    as (omega & Hom & Hvalid & Hrow).
  cbv zeta in Hvalid, Hrow.
  destruct (valid_mean_finite _ Hvalid) as (x & Hx & _).
  destruct (poisson_mean_depleted _ _ _ _ Hx) as [HN0 ->].
  rewrite Hx in Hrow. cbn [real_of] in Hrow.
  rewrite poisson_draw_zero, of_int_0, fadd_0_r in Hrow by done.
  injection Hrow as -> -> ->.
  split; [intros; by apply poisson_mean_depleted_fin|].
  split; [by exists omega|done].
Qed.

Lemma dthp_depletion_stops_infections_witness :
  exists df w' out l' c' r',
    run (dthp_model 1%positive hawkes_theta hawkes_names hawkes_theta_names
           hawkes_data 1 1)
      (hawkes_world 1 1) = (Ok df, w') /\
    heap w' !! values df = Some (Array2 out) /\
    particle out 0 = Some [l'; c'; r'] /\
    (forall rt lmv, poisson_mean 1 (Fin 1) (Fin rt) (Fin lmv) = Fin 0) /\
    l' = Fin 0 /\ c' = Fin 1.
Proof.
  destruct (hawkes_example_run 1 1 1 0 is_float_1 is_float_1
              (poisson_mean_int 1 1 ltac:(simpl; lia) ltac:(simpl; lia)))
    as (df & w' & out & l' & c' & r' & Hrun & Hout & Hrow & _); [lra|].
  exists df, w', out, l', c', r'.
  split; [done|]. split; [done|]. split; [done|].
  destruct (dthp_depletion_stops_infections (hawkes_world 1 1) 1%positive
              hawkes_theta hawkes_names hawkes_theta_names hawkes_data 1 1
              df w' [Fin 0] [Fin 1] [Fin 1] out 0
              (Fin 0) (Fin 1) l' c' r' Hrun eq_refl Hout eq_refl is_float_1
              Hrow)
    as (H1 & _ & H2 & H3).
  done.
Defined.

Lemma conv_step_nan obs omega_I t ti : conv_step obs omega_I t NaN ti = NaN.
Proof. done. Qed.

(** The kernel value of an observation two steps back, for the decay
    -2 ** 600: the square of 1 + 2 ** 600 overflows. *)
Lemma kernel_value_overflow : kernel_value (- bpow 600) 3 0 = NInf.
Proof.
  unfold kernel_value. change (Z.to_nat (3 - Z.of_nat 0 - 1)) with 2%nat.
  pose proof (bpow_pos 600) as Hpos.
  unfold fsub.
  destruct (rnd_between (1 - - bpow 600) (bpow 600) (bpow 601))
    as (q & -> & Hq & _).
  { by apply is_float_bpow. }
  { by apply is_float_bpow. }
  { replace 601%Z with (600 + 1)%Z by lia. rewrite bpow_plus_1.
    assert (1 <= bpow 600); [|lra].
    rewrite bpow_IZR by lia. apply IZR_le. lia. }
  unfold fpow. rewrite rnd_overflow.
  - unfold fmul, inf_times. rewrite decide_False by lra.
    rewrite decide_False by lra. done.
  - apply Rle_trans with (bpow 600 * bpow 600).
    + rewrite <- bpow_add. by apply bpow_le.
    + simpl. rewrite Rmult_1_r. apply Rmult_le_compat; lra.
Qed.

(** C4, as the specification states it, fails: the kernel value can
    overflow.  With omega_I = -2 ** 600 and t = 3 the power
    (1 - omega_I) ** 2 is infinite, its product with the observation 0 is
    nan, the intensity of a history of zeros is nan and not 0, and the call
    raises instead of returning a state. *)
Lemma dthp_zero_history_overflow :
  obs_values silent_world hawkes_data = [0; 0; 0] /\
  intensity [0; 0; 0] (- bpow 600) 3 = NaN /\
  exists e w',
    run (dthp_model 1%positive [- bpow 600; 0] hawkes_names hawkes_theta_names
           hawkes_data 3 1) silent_world = (Raise e, w').
Proof.
  assert (intensity [0; 0; 0] (- bpow 600) 3 = NaN) as Hint.
  { unfold intensity. change (range 3) with [0; 1; 2]%nat. cbn [foldl].
    assert (conv_step [0; 0; 0] (- bpow 600) 3 (Fin 0) 0 = NaN) as ->.
    { unfold conv_step. rewrite kernel_value_overflow.
      change (default 0 ([0; 0; 0] !! 0%nat)) with 0.
      unfold fmul, inf_times. by rewrite decide_True. }
    by rewrite !conv_step_nan. }
  split; [done|]. split; [done|].
  apply (dthp_raises silent_world 1%positive [- bpow 600; 0] hawkes_names
           hawkes_theta_names hawkes_data 3 1 [Fin 0] [Fin 0] [Fin 1]
           (- bpow 600) eq_refl eq_refl).
  intros (_ & Hvalid & _).
  change (obs_values silent_world hawkes_data) with [0; 0; 0] in Hvalid.
  unfold dthp_means, dthp_lm, zip_with3 in Hvalid. rewrite Hint in Hvalid.
  cbn in Hvalid. apply Forall_cons in Hvalid as [Hv _].
  unfold poisson_mean in Hv.
  by destruct (fmul (fsub (Fin 1) (fdiv (Fin 0) (Fin 1))) _).
Qed.

(** Without intensity the mean of a particle with 0 <= C_I <= N and a
    perturbed Rt that is a number is 0. *)
Lemma poisson_mean_silent N x rt :
  0 < N -> 0 <= x <= N -> float rt -> finite rt ->
  poisson_mean N (Fin x) rt (Fin 0) = Fin 0.
Proof.
  intros HN Hx Hf Hfin. destruct rt as [y| | |]; try done. simpl in Hf.
  unfold poisson_mean, fdiv. rewrite decide_False by lra.
  destruct (rnd_between (x / N) 0 1 is_float_0 is_float_1) as (q & -> & Hq & _).
  { split; [apply Rmult_le_pos; [lra|left; by apply Rinv_0_lt_compat]|].
    apply (Rmult_le_reg_r N); [done|]. unfold Rdiv.
    rewrite Rmult_assoc, Rinv_l by lra. lra. }
  destruct (one_minus_unit q Hq) as (p & -> & Hp).
  assert (exists u, fmul (Fin p) (Fin y) = Fin u) as [u ->]; [|apply fmul_0_r].
  unfold fmul. destruct (Rle_dec 0 y) as [Hy|Hy].
  - destruct (rnd_between (p * y) 0 y is_float_0 Hf) as (u & -> & _); [nra|].
    by exists u.
  - destruct (rnd_between (p * y) y 0 Hf is_float_0) as (u & -> & _); [nra|].
    by exists u.
Qed.









(** C6. A call without a required parameter name never returns; on a
    well-formed ensemble it raises KeyError for that name: gamma for the SIR
    kernel, gamma or nu_beta for the SIRS kernel, omega_I for the Hawkes
    kernel. *)
Theorem missing_parameter_raises :
  (forall w y theta names dt S_ I_ R_ NI B,
     heap w !! y = Some (Array2 [S_; I_; R_; NI; B]) ->
     "gamma" ∉ names ->
     run (stochastic_sir_model y theta names dt) w
       = (Raise (KeyError "gamma"), w)) /\
  (forall w y theta names dt S_ I_ R_ NI B,
     heap w !! y = Some (Array2 [S_; I_; R_; NI; B]) ->
     "gamma" ∉ names \/ "nu_beta" ∉ names ->
     run (stochastic_sirs_model y theta names dt) w
       = (Raise (KeyError "gamma"), w) \/
     run (stochastic_sirs_model y theta names dt) w
       = (Raise (KeyError "nu_beta"), w)) /\
  (forall w state theta sn tn od t N lm C_I Rt,
     heap w !! state = Some (Array2 [lm; C_I; Rt]) ->
     "omega_I" ∉ tn ->
     exists w', run (dthp_model state theta sn tn od t N) w
                  = (Raise (KeyError "omega_I"), w')) /\
  (forall w y theta names dt l w',
     "gamma" ∉ names ->
     run (stochastic_sir_model y theta names dt) w <> (Ok l, w')) /\
  (forall w y theta names dt l w',
     "gamma" ∉ names \/ "nu_beta" ∉ names ->
     run (stochastic_sirs_model y theta names dt) w <> (Ok l, w')) /\
  (forall w state theta sn tn od t N df w',
     "omega_I" ∉ tn ->
     run (dthp_model state theta sn tn od t N) w <> (Ok df, w')).
Proof.
  repeat split.
  - intros w y theta names dt S_ I_ R_ NI B Hy Hk.
    apply (dict_zip_lookup_None names theta) in Hk.
    unfold run, stochastic_sir_model, bind, load_array, getitem.
    rewrite Hy. simpl. by rewrite Hk.
  - intros w y theta names dt S_ I_ R_ NI B Hy Hk.
    unfold run, stochastic_sirs_model, bind, load_array, getitem.
    rewrite Hy. simpl.
    destruct (dict_zip names theta !! "gamma") as [gamma|] eqn:Hg;
      [|by left]. right. simpl.
    destruct Hk as [Hk|Hk];
      apply (dict_zip_lookup_None names theta) in Hk; [congruence|].
    by rewrite Hk.
  - intros w state theta sn tn od t N lm C_I Rt Hst Hk.
    apply (dict_zip_lookup_None tn theta) in Hk.
    unfold run, dthp_model, bind, load_array, getitem, alloc.
    rewrite Hst. simpl. rewrite Hk. eauto.
  - intros w y theta names dt l w' Hk Hrun.
    apply sir_ok_shape in Hrun as (? & ? & ? & ? & ? & ? & _ & Hg).
    apply (dict_zip_lookup_None names theta) in Hk. congruence.
  - intros w y theta names dt l w' Hk Hrun.
    apply sirs_ok_shape in Hrun as (? & ? & ? & ? & ? & ? & ? & _ & Hg & Hnu).
    destruct Hk as [Hk|Hk];
      apply (dict_zip_lookup_None names theta) in Hk; congruence.
  - intros w state theta sn tn od t N df w' Hk Hrun.
    apply dthp_ok_shape in Hrun as (? & ? & ? & ? & _ & Hom).
    apply (dict_zip_lookup_None tn theta) in Hk. congruence.
Qed.

Lemma missing_parameter_raises_witness :
  run (stochastic_sir_model 1%positive [0] ["nu_beta"] 1) sir_world
    = (Raise (KeyError "gamma"), sir_world) /\
  (run (stochastic_sirs_model 1%positive [1] ["gamma"] 1) sirs_world
     = (Raise (KeyError "gamma"), sirs_world) \/
   run (stochastic_sirs_model 1%positive [1] ["gamma"] 1) sirs_world
     = (Raise (KeyError "nu_beta"), sirs_world)) /\
  (exists w', run (dthp_model 1%positive [1 / 8] hawkes_names ["nu_beta"]
                     hawkes_data 1 1) (hawkes_world 0 1)
                = (Raise (KeyError "omega_I"), w')).
Proof.
  destruct missing_parameter_raises as (Hsir & Hsirs & Hdthp & _).
  split; [|split].
  - apply (Hsir sir_world 1%positive [0] ["nu_beta"] 1
             [Fin 990] [Fin 10] [Fin 0] [Fin 0] [Fin (1 / 4)] eq_refl).
    apply not_elem_of_cons. split; [done|apply not_elem_of_nil].
  - apply (Hsirs sirs_world 1%positive [1] ["gamma"] 1
             [Fin 0] [Fin 1] [Fin 0] [Fin 0] [Fin 1] eq_refl).
    right. apply not_elem_of_cons. split; [done|apply not_elem_of_nil].
  - apply (Hdthp (hawkes_world 0 1) 1%positive [1 / 8] hawkes_names
             ["nu_beta"] hawkes_data 1%Z 1 [Fin 0] [Fin 0] [Fin 1] eq_refl).
    apply not_elem_of_cons. split; [done|apply not_elem_of_nil].
Defined.

(** C7, as the specification states it, fails in its bound: nothing keeps
    C_I below N.  With N = 1, C_I = 0, Rt = 1, one past observation 1 and
    omega_I = 1 the mean is 1, and the outcome 5 of the draw is returned as
    C_I = 5 > N. *)
Lemma dthp_cumulative_exceeds_population :
  exists df w' out l' c' r',
    run (dthp_model 1%positive hawkes_theta hawkes_names hawkes_theta_names
           hawkes_data 1 1)
      (hawkes_world 0 1) = (Ok df, w') /\
    heap w' !! values df = Some (Array2 out) /\
    particle out 0 = Some [l'; Fin c'; r'] /\
    0 <= 1 /\ ~ c' <= 1.
Proof.
  destruct hawkes_example_draw as (df & w' & out & r' & Hrun & Hout & Hrow).
  exists df, w', out, (Fin 5), 5, r'.
  split; [done|]. split; [done|]. split; [done|]. lra.
Qed.

(** C7, amended. The counter C_I never decreases: in a returned state the
    C_I of every particle is the binary64 sum of its C_I on entry and of
    the count drawn for it, which is the returned lm_I and is not negative;
    the sum is not below the C_I on entry.  It is not bounded by N. *)
Theorem dthp_cumulative_monotone w state theta sn tn od t N df w'
    lm C_I Rt out i l c r l' c' r' :
  run (dthp_model state theta sn tn od t N) w = (Ok df, w') ->
  heap w !! state = Some (Array2 [lm; C_I; Rt]) ->
  heap w' !! values df = Some (Array2 out) ->
  particle [lm; C_I; Rt] i = Some [l; c; r] ->
  float c ->
  particle out i = Some [l'; c'; r'] ->
  fle c c' /\ c' = fadd c l' /\ nonneg l'.
Proof.
  intros Hrun Hst Hdf Hin Hc Hout.
  destruct (dthp_ok_row _ _ _ _ _ _ _ _ _ _ _ _ _ _ _ _ _ Hrun Hst Hdf Hin Hout)
    as (omega & _ & Hvalid & Hrow).
  cbv zeta in Hvalid, Hrow. injection Hrow as -> -> _.
  destruct (valid_mean_finite _ Hvalid) as (x & Hx & _).
  apply poisson_mean_finite_inv in Hx as (_ & Hfc & _).
  set (draw := poisson_draw _ _).
  assert (0 <= draw)%Z as Hd by apply poisson_draw_nonneg. clearbody draw.
  split; [|split; [done|by apply of_int_nonneg]].
  destruct c as [z| | |]; try done. simpl in Hc.
  pose proof (of_int_nonneg draw Hd) as Hk.
  destruct (of_int draw) as [k| | |]; try done; simpl in Hk.
  unfold fadd. apply rnd_ge_float; [done|lra].
Qed.

Lemma dthp_cumulative_monotone_witness :
  exists df w' out l' c' r',
    run (dthp_model 1%positive hawkes_theta hawkes_names hawkes_theta_names
           hawkes_data 1 1)
      (hawkes_world 0 1) = (Ok df, w') /\
    heap w' !! values df = Some (Array2 out) /\
    particle out 0 = Some [l'; c'; r'] /\
    fle (Fin 0) c' /\ c' = fadd (Fin 0) l' /\ nonneg l'.
Proof.
  destruct hawkes_example_draw as (df & w' & out & r' & Hrun & Hout & Hrow).
  exists df, w', out, (Fin 5), (Fin 5), r'.
  split; [done|]. split; [done|]. split; [done|].
  exact (dthp_cumulative_monotone (hawkes_world 0 1) 1%positive
           hawkes_theta hawkes_names hawkes_theta_names hawkes_data 1 1
           df w' [Fin 0] [Fin 0] [Fin 1] out 0
           (Fin 0) (Fin 0) (Fin 1) (Fin 5) (Fin 5) r'
           Hrun eq_refl Hout eq_refl is_float_0 Hrow).
Defined.

(** C8. No kernel changes an object its caller holds: whatever a call
    returns or raises, every object of the store before the call (the input
    ensemble, the observed series, anything else) is in the store after it
    with the same content, and a returned state is an object that was not
    in the store before the call. *)
Theorem kernels_do_not_mutate_inputs :
  (forall w y theta names dt result w',
     run (stochastic_sir_model y theta names dt) w = (result, w') ->
     (forall ref o, heap w !! ref = Some o -> heap w' !! ref = Some o) /\
     (forall l, result = Ok l -> heap w !! l = None)) /\
  (forall w y theta names dt result w',
     run (stochastic_sirs_model y theta names dt) w = (result, w') ->
     (forall ref o, heap w !! ref = Some o -> heap w' !! ref = Some o) /\
     (forall l, result = Ok l -> heap w !! l = None)) /\
  (forall w state theta sn tn od t N result w',
     run (dthp_model state theta sn tn od t N) w = (result, w') ->
     (forall ref o, heap w !! ref = Some o -> heap w' !! ref = Some o) /\
     (forall df, result = Ok df -> heap w !! values df = None)).
Proof.
  split; [|split].
  - intros w y theta names dt result w' Hrun. split.
    + intros ref o Ho.
      pose proof (sir_keeps (heap w) y theta names dt w (reflexivity _)) as Hk.
      rewrite Hrun in Hk. by eapply lookup_weaken.
    + intros l ->.
      by destruct (sir_ok_inv _ _ _ _ _ _ _ Hrun)
        as (? & ? & ? & ? & ? & ? & _ & _ & _ & _ & Hf & _).
  - intros w y theta names dt result w' Hrun. split.
    + intros ref o Ho.
      pose proof (sirs_keeps (heap w) y theta names dt w (reflexivity _)) as Hk.
      rewrite Hrun in Hk. by eapply lookup_weaken.
    + intros l ->.
      by destruct (sirs_ok_inv _ _ _ _ _ _ _ Hrun)
        as (? & ? & ? & ? & ? & ? & ? & _ & _ & _ & _ & _ & Hf & _).
  - intros w state theta sn tn od t N result w' Hrun. split.
    + intros ref o Ho.
      pose proof (dthp_keeps (heap w) state theta sn tn od t N w
                    (reflexivity _)) as Hk.
      rewrite Hrun in Hk. by eapply lookup_weaken.
    + intros df ->.
      by destruct (dthp_ok_inv _ _ _ _ _ _ _ _ _ _ Hrun)
        as (? & ? & ? & ? & _ & _ & _ & _ & _ & Hf & _).
Qed.

Lemma kernels_do_not_mutate_inputs_witness :
  exists df w',
    run (dthp_model 1%positive hawkes_theta hawkes_names hawkes_theta_names
           hawkes_data 1 1)
      (hawkes_world 0 1) = (Ok df, w') /\
    heap w' !! 1%positive = Some (Array2 [[Fin 0]; [Fin 0]; [Fin 1]]) /\
    heap w' !! 2%positive = Some (Series [1]) /\
    heap (hawkes_world 0 1) !! values df = None.
Proof.
  destruct kernels_do_not_mutate_inputs as (_ & _ & Hdthp).
  destruct hawkes_example_draw as (df & w' & _ & _ & Hrun & _).
  destruct (Hdthp _ _ _ _ _ _ _ _ _ _ Hrun) as [Hkeep Hfresh].
  exists df, w'. split; [done|].
  split; [by apply Hkeep|]. split; [by apply Hkeep|]. by apply Hfresh.
Defined.

(** C9, as the specification states it, fails: with three values and two
    names the SIR kernel returns a state. *)
Lemma length_mismatch_accepted :
  length [1 / 8; 0; 7] <> length ["gamma"; "nu_beta"] /\
  exists l w',
    run (stochastic_sir_model 1%positive [1 / 8; 0; 7]
           ["gamma"; "nu_beta"] 1) sir_world = (Ok l, w').
Proof.
  split; [done|].
  destruct (sir_example_run [1 / 8; 0; 7] ["gamma"; "nu_beta"] (1 / 8) eq_refl)
    as (l & w' & _ & _ & _ & _ & _ & _ & Hrun & _); [lra|].
  by exists l, w'.
Qed.

(** C9, amended. No kernel compares the lengths of theta and theta_names:
    names and values are paired up to the shorter of the two lists, the rest
    of the longer one is ignored, and every kernel runs exactly as on the two
    lists cut to that length. *)
Theorem length_mismatch_truncates theta theta_names :
  let n := Nat.min (length theta) (length theta_names) in
  (forall y dt w,
     run (stochastic_sir_model y theta theta_names dt) w =
     run (stochastic_sir_model y (take n theta) (take n theta_names) dt) w) /\
  (forall y dt w,
     run (stochastic_sirs_model y theta theta_names dt) w =
     run (stochastic_sirs_model y (take n theta) (take n theta_names) dt) w) /\
  (forall state sn od t N w,
     run (dthp_model state theta sn theta_names od t N) w =
     run (dthp_model state (take n theta) sn (take n theta_names) od t N) w).
Proof.
  intros n.
  assert (dict_zip theta_names theta
          = dict_zip (take n theta_names) (take n theta)) as Hd.
  { unfold n. rewrite Nat.min_comm. apply dict_zip_truncate. }
  unfold stochastic_sir_model, stochastic_sirs_model, dthp_model.
  rewrite Hd. done.
Qed.

(** The mean of a particle with C_I = 2 in a population of 1, for an Rt
    and an intensity of 2 ** -600: the product underflows. *)
Lemma poisson_mean_underflow :
  poisson_mean 1 (Fin 2) (Fin (bpow (- 600))) (Fin (bpow (- 600))) = Fin 0.
Proof.
  unfold poisson_mean.
  assert (fdiv (Fin 2) (Fin 1) = Fin 2) as ->.
  { unfold fdiv. rewrite decide_False by lra.
    replace (2 / 1) with 2 by field. by apply rnd_IZR. }
  rewrite (fsub_int 1 2) by (simpl; lia).
  assert (fmul (Fin (IZR (1 - 2))) (Fin (bpow (- 600)))
          = Fin (- bpow (- 600))) as ->.
  { unfold fmul. change (IZR (1 - 2)) with (-1).
    replace (-1 * bpow (- 600)) with (- bpow (- 600)) by lra.
    by apply rnd_float, is_float_opp, is_float_bpow. }
  unfold fmul. apply rnd_underflow.
  replace (- bpow (- 600) * bpow (- 600)) with (- bpow (- 1200))
    by (rewrite <- Ropp_mult_distr_l, <- bpow_add; done).
  rewrite Rabs_Ropp, Rabs_bpow. by apply bpow_lt.
Qed.

(** C10, as the specification states it, fails in its sufficient condition:
    with C_I = 2 > N = 1 and Rt and the intensity both 2 ** -600 > 0, the
    product (1 - C_I/N) * Rt * lm_I, which is negative, underflows to
    zero: [poisson] accepts it and the call returns, with lm_I = 0 and C_I
    unchanged. *)
Lemma dthp_negative_mean_underflows :
  exists df w' out l' c' r',
    run (dthp_model 1%positive hawkes_theta hawkes_names hawkes_theta_names
           hawkes_data 1 1)
      (hawkes_state 2 (bpow (- 600)) (bpow (- 600))) = (Ok df, w') /\
    heap w' !! values df = Some (Array2 out) /\
    particle out 0 = Some [l'; c'; r'] /\
    1 < 2 /\ 0 < bpow (- 600) /\
    intensity [bpow (- 600)] 1 1 = Fin (bpow (- 600)) /\
    (1 - 2 / 1) * bpow (- 600) * bpow (- 600) < 0 /\
    l' = Fin 0 /\ c' = Fin 2 /\ r' = Fin (bpow (- 600)).
Proof.
  assert (is_float (bpow (- 600))) as Hf by (by apply is_float_bpow).
  pose proof (bpow_pos (- 600)) as Hpos.
  destruct (hawkes_example_run 2 (bpow (- 600)) (bpow (- 600)) 0 Hf Hf
              poisson_mean_underflow)
    as (df & w' & out & l' & c' & r' & Hrun & Hout & Hrow & -> & -> & ->);
    [lra|].
  rewrite poisson_draw_zero, of_int_0 in *.
  rewrite (fadd_0_r 2) in * by (by apply is_float_IZR).
  exists df, w', out, (Fin 0), (Fin 2), (Fin (bpow (- 600))).
  split; [done|]. split; [done|]. split; [done|]. split; [lra|].
  split; [done|]. split; [by apply hawkes_intensity|].
  split; [nra|done].
Qed.





End Claims.

(** ** More about parameter dictionaries *)

Module MoreDictFacts.
Local Open Scope R_scope.

Lemma foldl_insert_union {V} (l : list (string * V)) (d : gmap string V) :
  foldl (fun d kv => <[kv.1 := kv.2]> d) d l = list_to_map (reverse l) ∪ d.
Proof.
  revert d. induction l as [|[k v] l IH]; intros d; cbn [foldl fst snd].
  { rewrite reverse_nil. cbn. by rewrite (left_id_L ∅ (∪)). }
  rewrite IH, reverse_cons, list_to_map_app. cbn [list_to_map foldr fst snd].
  rewrite <- (assoc_L (∪)). f_equal.
  rewrite insert_empty. by rewrite <- insert_union_singleton_l.
Qed.

(** [dict(zip(keys, values))] is the map of the pairs read from the last
    one to the first. *)
Lemma dict_zip_list_to_map {V} keys (values : list V) :
  dict_zip keys values = list_to_map (reverse (zip keys values)).
Proof.
  unfold dict_zip. rewrite foldl_insert_union. by rewrite (right_id_L ∅ (∪)).
Qed.

Lemma fst_zip_take {A B} (l : list A) (k : list B) :
  (zip l k).*1 = take (length k) l.
Proof.
  revert k. induction l as [|a l IH]; intros [|b k]; cbn; [done..|].
  by rewrite IH.
Qed.

Lemma NoDup_fst_zip {A B} (l : list A) (k : list B) :
  NoDup l -> NoDup (zip l k).*1.
Proof.
  intros H. rewrite fst_zip_take. exact (sublist_NoDup _ _ H (sublist_take _ _)).
Qed.

Lemma dict_zip_permutation {V} names (theta : list V) names' theta' :
  NoDup names ->
  zip names theta ≡ₚ zip names' theta' ->
  dict_zip names theta = dict_zip names' theta'.
Proof.
  intros Hnd Hp. rewrite !dict_zip_list_to_map.
  apply list_to_map_proper.
  - rewrite fmap_reverse, reverse_Permutation. by apply NoDup_fst_zip.
  - by rewrite !reverse_Permutation.
Qed.

Lemma dict_zip_cons_ne {V} k (v : V) names theta k' :
  k' ∉ names ->
  dict_zip (k' :: names) (v :: theta) !! k = 
    if decide (k = k') then Some v else dict_zip names theta !! k.
Proof.
  intros Hk. rewrite !dict_zip_list_to_map. cbn [zip zip_with].
  rewrite reverse_cons, list_to_map_app. cbn [list_to_map foldr fst snd].
  rewrite insert_empty.
  case_decide as E.
  - subst. rewrite lookup_union_r.
    + by rewrite lookup_singleton_eq.
    + rewrite <- dict_zip_list_to_map. by apply dict_zip_lookup_None.
  - rewrite lookup_union_l; [done|]. by rewrite lookup_singleton_ne.
Qed.

Lemma dict_zip_cons_other {V} k k' (v : V) names theta :
  k' ∉ names -> k <> k' ->
  dict_zip (k' :: names) (v :: theta) !! k = dict_zip names theta !! k.
Proof. intros Hk Hne. rewrite dict_zip_cons_ne by done. by rewrite decide_False. Qed.

(** The value of a name is the last one paired with it. *)
Lemma dict_zip_snoc {V} names (theta : list V) k v :
  length names = length theta ->
  dict_zip (names ++ [k]) (theta ++ [v]) = <[k := v]> (dict_zip names theta).
Proof.
  intros Hlen. unfold dict_zip. rewrite (zip_with_app pair names [k] theta [v] Hlen).
  by rewrite foldl_app.
Qed.

Lemma dict_zip_lookup_Some {V} names (theta : list V) k v :
  NoDup names ->
  dict_zip names theta !! k = Some v <->
  exists i, names !! i = Some k /\ theta !! i = Some v.
Proof.
  intros Hnd. rewrite dict_zip_list_to_map.
  rewrite <- elem_of_list_to_map.
  2:{ rewrite fmap_reverse, reverse_Permutation. by apply NoDup_fst_zip. }
  rewrite elem_of_reverse, list_elem_of_lookup. split.
  - intros (i & Hi). exists i. unfold zip in Hi.
    apply lookup_zip_with_Some in Hi as (x & y & [= -> ->] & ? & ?). done.
  - intros (i & Hn & Ht). exists i. unfold zip.
    apply lookup_zip_with_Some. eauto.
Qed.

Lemma get_dict_zip_default {V} k (v : V) names theta :
  k ∉ names ->
  get (dict_zip (k :: names) (v :: theta)) k v = get (dict_zip names theta) k v.
Proof.
  intros Hk. unfold get. rewrite dict_zip_cons_ne by done.
  rewrite decide_True by done. by rewrite dict_zip_lookup_None.
Qed.

Lemma get_dict_zip_other {V} k k' (v d : V) names theta :
  k' ∉ names -> k <> k' ->
  get (dict_zip (k' :: names) (v :: theta)) k d = get (dict_zip names theta) k d.
Proof. intros Hk Hne. unfold get. by rewrite dict_zip_cons_other. Qed.

Lemma sir_params_ext y theta names theta' names' dt :
  dict_zip names theta !! "gamma" = dict_zip names' theta' !! "gamma" ->
  get (dict_zip names theta) "nu_beta" nu_beta_default
  = get (dict_zip names' theta') "nu_beta" nu_beta_default ->
  stochastic_sir_model y theta names dt = stochastic_sir_model y theta' names' dt.
Proof.
  intros Hg Hnu. unfold stochastic_sir_model, getitem.
  rewrite Hg, Hnu. done.
Qed.

Lemma sirs_params_ext y theta names theta' names' dt :
  dict_zip names theta !! "gamma" = dict_zip names' theta' !! "gamma" ->
  get (dict_zip names theta) "alpha" 0 = get (dict_zip names' theta') "alpha" 0 ->
  dict_zip names theta !! "nu_beta" = dict_zip names' theta' !! "nu_beta" ->
  stochastic_sirs_model y theta names dt
  = stochastic_sirs_model y theta' names' dt.
Proof.
  intros Hg Ha Hnu. unfold stochastic_sirs_model, getitem.
  rewrite Hg, Ha, Hnu. done.
Qed.

Lemma dthp_params_ext state theta tn theta' tn' sn od t N :
  dict_zip tn theta !! "omega_I" = dict_zip tn' theta' !! "omega_I" ->
  get (dict_zip tn theta) "nu_beta" nu_beta_default
  = get (dict_zip tn' theta') "nu_beta" nu_beta_default ->
  dthp_model state theta sn tn od t N = dthp_model state theta' sn tn' od t N.
Proof.
  intros Hg Hnu. unfold dthp_model, getitem.
  rewrite Hg, Hnu. done.
Qed.

End MoreDictFacts.
Export MoreDictFacts.

(** ** Shapes *)

Module ShapeFacts.
Local Open Scope R_scope.

Lemma particle_5 (a b c d e : list fval) i x1 x2 x3 x4 x5 :
  particle [a; b; c; d; e] i = Some [x1; x2; x3; x4; x5] <->
  a !! i = Some x1 /\ b !! i = Some x2 /\ c !! i = Some x3 /\
  d !! i = Some x4 /\ e !! i = Some x5.
Proof.
  split.
  - intros H. particles. by simplify_eq.
  - intros (Ha & Hb & Hc & Hd & He). unfold particle. cbn.
    by rewrite Ha, Hb, Hc, Hd, He.
Qed.

Lemma particle_3 (a b c : list fval) i x1 x2 x3 :
  particle [a; b; c] i = Some [x1; x2; x3] <->
  a !! i = Some x1 /\ b !! i = Some x2 /\ c !! i = Some x3.
Proof.
  split.
  - intros H. particles. by simplify_eq.
  - intros (Ha & Hb & Hc). unfold particle. cbn. by rewrite Ha, Hb, Hc.
Qed.

Lemma singleton_particle_5 (x1 x2 x3 x4 x5 : fval) i s ii r ni b :
  particle [[x1]; [x2]; [x3]; [x4]; [x5]] i = Some [s; ii; r; ni; b] ->
  s = x1 /\ ii = x2 /\ r = x3 /\ ni = x4 /\ b = x5.
Proof.
  intros Hp. apply particle_5 in Hp as (H1 & H2 & H3 & H4 & H5).
  destruct i as [|i]; cbn in *; by simplify_eq.
Qed.

Lemma particle_lt a i row v :
  particle a i = Some row -> v ∈ a -> (i < length v)%nat.
Proof.
  revert row. induction a as [|u a IH]; intros row Hrow Hv.
  { by apply elem_of_nil in Hv. }
  apply particle_cons in Hrow as (x & rest & Hx & Hrest & ->).
  apply elem_of_cons in Hv as [->|Hv]; [by eapply lookup_lt_Some|].
  by eapply IH.
Qed.


Lemma length_take_stream {A} n (f : nat -> A) : length (take_stream n f) = n.
Proof. unfold take_stream. by rewrite length_fmap, length_seq. Qed.

Lemma length_normal_draws n f : length (normal_draws n f) = n.
Proof. unfold normal_draws. by rewrite length_fmap, length_take_stream. Qed.

Lemma length_binomial_draws n p raws :
  length (binomial_draws n p raws) = Nat.min (length n) (length p).
Proof.
  unfold binomial_draws.
  rewrite !length_zip_with, length_take_stream. lia.
Qed.

Lemma length_binomial_scalar_draws n p raws :
  length (binomial_scalar_draws n p raws) = length n.
Proof.
  unfold binomial_scalar_draws.
  rewrite !length_zip_with, length_take_stream. lia.
Qed.

Lemma length_poisson_draws lam raws :
  length (poisson_draws lam raws) = length lam.
Proof.
  unfold poisson_draws. rewrite !length_zip_with, length_take_stream. lia.
Qed.

Ltac lengths :=
  unfold sir_Y_SI, sir_Y_IR, sirs_Y_RS, sir_P_SI, dthp_draws, dthp_means,
    dthp_Rt, dthp_lm, random_walk, zip_with3, vadd, vsub, vmul, vscale, vtimes,
    vint, vmax0;
  repeat first
    [ rewrite length_fmap | rewrite length_zip_with
    | rewrite length_binomial_draws | rewrite length_binomial_scalar_draws
    | rewrite length_poisson_draws | rewrite length_normal_draws
    | rewrite length_take_stream ];
  try lia.

Lemma has_shape_5 (a b c d e : list fval) n :
  has_shape [a; b; c; d; e] n 5 <->
  length a = n /\ length b = n /\ length c = n /\ length d = n /\ length e = n.
Proof.
  unfold has_shape. rewrite !Forall_cons, Forall_nil. cbn. tauto.
Qed.

Lemma has_shape_3 (a b c : list fval) n :
  has_shape [a; b; c] n 3 <-> length a = n /\ length b = n /\ length c = n.
Proof.
  unfold has_shape. rewrite !Forall_cons, Forall_nil. cbn. tauto.
Qed.

Lemma has_shape_5_inv a n :
  has_shape a n 5 -> exists S_ I_ R_ NI B, a = [S_; I_; R_; NI; B].
Proof.
  intros [Hlen _].
  destruct a as [|S_ [|I_ [|R_ [|NI [|B [|]]]]]]; try done. by eauto 6.
Qed.

Lemma maximum0_shape a n k : has_shape a n k -> has_shape (maximum0 a) n k.
Proof.
  intros [Hk Hn]. split; [unfold maximum0; by rewrite length_fmap|].
  unfold maximum0. apply Forall_fmap. eapply Forall_impl; [exact Hn|].
  intros v Hv. cbn. unfold vmax0. by rewrite length_fmap.
Qed.

Lemma sir_next_shape w S_ I_ R_ NI B gamma nu_beta dt n :
  has_shape [S_; I_; R_; NI; B] n 5 ->
  has_shape (sir_next w S_ I_ R_ B gamma nu_beta dt) n 5.
Proof.
  rewrite has_shape_5. intros (HS & HI & HR & HNI & HB).
  unfold sir_next. rewrite has_shape_5. repeat split; lengths.
Qed.

Lemma sirs_next_shape w S_ I_ R_ NI B gamma alpha nu_beta dt n :
  has_shape [S_; I_; R_; NI; B] n 5 ->
  has_shape (sirs_next w S_ I_ R_ B gamma alpha nu_beta dt) n 5.
Proof.
  rewrite has_shape_5. intros (HS & HI & HR & HNI & HB).
  unfold sirs_next. rewrite has_shape_5. repeat split; lengths.
Qed.

Lemma dthp_out_shape w lm C_I Rt obs omega_I nu_beta t N n :
  has_shape [lm; C_I; Rt] n 3 ->
  has_shape (dthp_out w lm C_I Rt obs omega_I nu_beta t N) n 3.
Proof.
  rewrite has_shape_3. intros (Hl & HC & HR).
  unfold dthp_out. rewrite has_shape_3. repeat split; lengths.
Qed.

(** Every particle below the number of rows can be read. *)
Lemma has_shape_particle a n k i :
  has_shape a n k -> (i < n)%nat ->
  exists row, particle a i = Some row /\ length row = k.
Proof.
  intros [Hk Hn] Hi. revert k Hk.
  induction Hn as [|v a Hv Hn IH]; intros k Hk.
  { exists []. by split. }
  destruct (IH _ eq_refl) as (rest & Hrest & Hlen).
  destruct (lookup_lt_is_Some_2 v i) as [x Hx]; [lia|].
  exists (x :: rest). split; [|cbn in *; lia].
  apply particle_cons. eauto.
Qed.

(** In an array of shape (n, 5) every entry of a variable belongs to a
    particle. *)
Lemma shape_5_particle (a b c d e : list fval) n i :
  has_shape [a; b; c; d; e] n 5 -> (i < n)%nat ->
  exists x1 x2 x3 x4 x5,
    particle [a; b; c; d; e] i = Some [x1; x2; x3; x4; x5].
Proof.
  rewrite has_shape_5. intros (Ha & Hb & Hc & Hd & He) Hi.
  destruct (lookup_lt_is_Some_2 a i) as [x1 H1]; [lia|].
  destruct (lookup_lt_is_Some_2 b i) as [x2 H2]; [lia|].
  destruct (lookup_lt_is_Some_2 c i) as [x3 H3]; [lia|].
  destruct (lookup_lt_is_Some_2 d i) as [x4 H4]; [lia|].
  destruct (lookup_lt_is_Some_2 e i) as [x5 H5]; [lia|].
  exists x1, x2, x3, x4, x5. by apply particle_5.
Qed.

Lemma shape_3_particle (a b c : list fval) n i :
  has_shape [a; b; c] n 3 -> (i < n)%nat ->
  exists x1 x2 x3, particle [a; b; c] i = Some [x1; x2; x3].
Proof.
  rewrite has_shape_3. intros (Ha & Hb & Hc) Hi.
  destruct (lookup_lt_is_Some_2 a i) as [x1 H1]; [lia|].
  destruct (lookup_lt_is_Some_2 b i) as [x2 H2]; [lia|].
  destruct (lookup_lt_is_Some_2 c i) as [x3 H3]; [lia|].
  exists x1, x2, x3. by apply particle_3.
Qed.

End ShapeFacts.
Export ShapeFacts.

(** ** The exceptions of the Hawkes kernel *)

Module RaiseFacts.
Local Open Scope R_scope.

(** The loop when [observed_data] has no ['obs']: its first turn raises
    [KeyError]. *)
Lemma wp_conv_loop_missing c od omega_I t C_I Rt h ig gs a l
    (Q : res unit -> world -> Prop) :
  od !! "obs" = None ->
  (l = [] -> Q (Ok tt) (at_copy c C_I Rt h ig gs a)) ->
  (l <> [] -> Q (Raise (KeyError "obs")) (at_copy c C_I Rt h ig gs a)) ->
  wp (for_each l (conv_body c od omega_I t)) Q (at_copy c C_I Rt h ig gs a).
Proof.
  intros Hna HOk HErr. destruct l as [|ti l]; [by apply wp_ret, HOk|].
  simpl. apply wp_bind. unfold conv_body at 1, obs_of.
  apply wp_bind, wp_bind, wp_getitem; unfold thru; [congruence|].
  intros _. by apply HErr.
Qed.

(** The loop when ['obs'] is not a series: its first turn raises
    [TypeError]. *)
Lemma wp_conv_loop_no_series c od omega_I t C_I Rt h ig gs a l s
    (Q : res unit -> world -> Prop) :
  h !! c = None ->
  od !! "obs" = Some s ->
  (forall vals, h !! s <> Some (Series vals)) ->
  (l = [] -> Q (Ok tt) (at_copy c C_I Rt h ig gs a)) ->
  (l <> [] -> Q (Raise TypeError) (at_copy c C_I Rt h ig gs a)) ->
  wp (for_each l (conv_body c od omega_I t)) Q (at_copy c C_I Rt h ig gs a).
Proof.
  intros Hc Hs Hns HOk HErr. destruct l as [|ti l]; [by apply wp_ret, HOk|].
  simpl. apply wp_bind. unfold conv_body at 1, obs_of.
  apply wp_bind, wp_bind, wp_getitem; unfold thru; [|congruence].
  intros ? [= <-]%(eq_trans (eq_sym Hs)).
  apply wp_load_series; [|by intros; apply HErr].
  intros vals Hv. exfalso. cbn in Hv.
  destruct (decide (s = c)) as [->|Hne].
  - by rewrite lookup_insert_eq in Hv.
  - rewrite lookup_insert_ne in Hv by done. by eapply Hns.
Qed.

(** Which exception a Hawkes call raises. *)
Lemma dthp_raise_spec w state theta sn tn od t N lm C_I Rt omega_I :
  heap w !! state = Some (Array2 [lm; C_I; Rt]) ->
  dict_zip tn theta !! "omega_I" = Some omega_I ->
  wp (dthp_model state theta sn tn od t N)
    (fun r _ =>
       match r with
       | Ok _ => True
       | Raise e =>
           (e = KeyError "obs" /\ (0 < t)%Z /\ od !! "obs" = None) \/
           (e = TypeError /\ (0 < t)%Z /\ is_Some (od !! "obs") /\
            ~ obs_available w od) \/
           (e = IndexError /\ obs_available w od /\
            (Z.of_nat (length (obs_values w od)) < t)%Z) \/
           (e = ValueError /\
            ((0 < t)%Z -> obs_available w od /\
                          (t <= Z.of_nat (length (obs_values w od)))%Z))
       end) w.
Proof.
  intros Hst Hom.
  set (nu_beta := get (dict_zip tn theta) "nu_beta" nu_beta_default).
  destruct w as [h ig gs]. cbn [heap] in Hst.
  unfold dthp_model.
  apply wp_bind, (wp_load_array_at _ [lm; C_I; Rt]); [done|]. unfold thru.
  apply wp_bind, wp_alloc. intros c Hc. cbn in Hc |- *.
  apply wp_bind, wp_getitem; [|congruence].
  intros ? [= <-]%(eq_trans (eq_sym Hom)). unfold thru.
  apply wp_bind. eapply wp_update_at; [apply lookup_insert_eq|done|].
  cbn. rewrite insert_insert_eq.
  apply wp_bind. eapply wp_read_at; [apply lookup_insert_eq|done|]. cbn.
  apply wp_bind, wp_normal. cbn.
  apply wp_bind. eapply wp_update_at; [apply lookup_insert_eq|done|].
  cbn. rewrite insert_insert_eq.
  set (Rt' := zip_with _ Rt _).
  set (gs' := drop_stream (length Rt) gs).
  set (Q := fun (r : res dataframe) (w' : world) => match r with
            | Ok _ => True | Raise e => _ end).
  (* what follows the loop raises nothing but [ValueError] *)
  assert (forall a : list fval,
    ((0 < t)%Z -> obs_available (World h ig gs) od /\
                  (t <= Z.of_nat (length (obs_values (World h ig gs) od)))%Z) ->
    wp (c_I <- read (View c 1);; rt <- read (View c 2);;
        lm0 <- read (View c 0);;
        lm_new <- poisson (zip_with3 (poisson_mean N) c_I rt lm0);;
        update (View c 1) (fun x => vadd x (vint lm_new));;
        c_I0 <- read (View c 1);; rt0 <- read (View c 2);;
        updated_state <- alloc (Array2 [vint lm_new; c_I0; rt0]);;
        new_dataframe updated_state sn) Q
      (at_copy c C_I Rt' h ig gs' a)) as HRest.
  { intros a Hobs. unfold at_copy.
    apply wp_bind. eapply wp_read_at; [apply lookup_insert_eq|done|]. cbn.
    apply wp_bind. eapply wp_read_at; [apply lookup_insert_eq|done|]. cbn.
    apply wp_bind. eapply wp_read_at; [apply lookup_insert_eq|done|]. cbn.
    apply wp_bind, wp_poisson; unfold thru.
    2:{ intros _. cbn. right. right. right. by split. }
    intros Hmeans. cbn.
    apply wp_bind. eapply wp_update_at; [apply lookup_insert_eq|done|].
    cbn. rewrite insert_insert_eq.
    apply wp_bind. eapply wp_read_at; [apply lookup_insert_eq|done|]. cbn.
    apply wp_bind. eapply wp_read_at; [apply lookup_insert_eq|done|]. cbn.
    apply wp_bind, wp_alloc. intros l2 Hl2. cbn.
    apply wp_new_dataframe; [done|].
    intros _. cbn. right. right. right. by split. }
  apply wp_bind.
  change (fun ti => (obs <- obs_of od ;; o <- iloc obs ti ;;
            update (View c 0) (fmap (fun x => fadd x (fmul (Fin o) (kernel_value omega_I t ti))))))
    with (conv_body c od omega_I t).
  change (World (<[c := Array2 [(fun _ : fval => Fin 0) <$> lm; C_I; Rt']]> h) ig gs')
    with (at_copy c C_I Rt' h ig gs' ((fun _ : fval => Fin 0) <$> lm)).
  assert (range t <> [] -> (0 < t)%Z) as Hpos.
  { unfold range. destruct (Z.to_nat t) eqn:E; [done|lia]. }
  assert (range t = [] -> (t <= 0)%Z) as Hnil.
  { unfold range. destruct (Z.to_nat t) eqn:E; [lia|done]. }
  destruct (od !! "obs") as [s|] eqn:Hs.
  - destruct (h !! s) as [[vars|vals]|] eqn:Hv.
    + eapply wp_conv_loop_no_series; [done|done|congruence| |]; unfold thru.
      * intros E. apply HRest. intros Ht. apply Hnil in E. lia.
      * intros E. cbn. right. left. split; [done|]. split; [by apply Hpos|].
        split; [done|]. intros (s' & vals & Hs' & Hv').
        cbn in Hv'. congruence.
    + assert (obs_values (World h ig gs) od = vals) as Hobs.
      { unfold obs_values. cbn. by rewrite Hs, Hv. }
      assert (obs_available (World h ig gs) od) as Hav by (by exists s, vals).
      eapply wp_conv_loop; [done|exact Hs|exact Hv| |]; unfold thru.
      * intros Hin. apply HRest. intros Ht. split; [done|].
        rewrite Hobs. by apply range_in_bounds.
      * intros Hin a. cbn. right. right. left. split; [done|]. split; [done|].
        rewrite Hobs. rewrite range_in_bounds in Hin. lia.
    + eapply wp_conv_loop_no_series; [done|done|congruence| |]; unfold thru.
      * intros E. apply HRest. intros Ht. apply Hnil in E. lia.
      * intros E. cbn. right. left. split; [done|]. split; [by apply Hpos|].
        split; [done|]. intros (s' & vals & Hs' & Hv').
        cbn in Hv'. congruence.
  - apply wp_conv_loop_missing; [done| |]; unfold thru.
    + intros E. apply HRest. intros Ht. apply Hnil in E. lia.
    + intros E. cbn. left. split; [done|]. split; [by apply Hpos|done].
Qed.

Lemma sir_next_streams w w2 S_ I_ R_ B gamma nu_beta dt :
  ints w = ints w2 -> gauss w = gauss w2 ->
  sir_next w S_ I_ R_ B gamma nu_beta dt
  = sir_next w2 S_ I_ R_ B gamma nu_beta dt.
Proof.
  intros Hi Hg. unfold sir_next, sir_Y_SI, sir_Y_IR. by rewrite Hi, Hg.
Qed.

Lemma sirs_next_streams w w2 S_ I_ R_ B gamma alpha nu_beta dt :
  ints w = ints w2 -> gauss w = gauss w2 ->
  sirs_next w S_ I_ R_ B gamma alpha nu_beta dt
  = sirs_next w2 S_ I_ R_ B gamma alpha nu_beta dt.
Proof.
  intros Hi Hg. unfold sirs_next, sir_Y_SI, sir_Y_IR, sirs_Y_RS.
  by rewrite Hi, Hg.
Qed.

Lemma obs_values_replace w state vars vars' od :
  heap w !! state = Some (Array2 vars) ->
  obs_values (set_heap (<[state := Array2 vars']> (heap w)) w) od
  = obs_values w od.
Proof.
  intros Hst. unfold obs_values. destruct (od !! "obs") as [s|]; [|done].
  cbn. destruct (decide (s = state)) as [->|Hne].
  - by rewrite lookup_insert_eq, Hst.
  - by rewrite lookup_insert_ne.
Qed.

Lemma obs_available_replace w state vars vars' od :
  heap w !! state = Some (Array2 vars) ->
  obs_available w od ->
  obs_available (set_heap (<[state := Array2 vars']> (heap w)) w) od.
Proof.
  intros Hst (s & vals & Hs & Hv). exists s, vals. split; [done|].
  cbn. rewrite lookup_insert_ne; [done|]. congruence.
Qed.

Lemma dthp_out_stale w w2 lm lm2 C_I Rt obs omega_I nu_beta t N :
  ints w2 = ints w -> gauss w2 = gauss w -> length lm2 = length lm ->
  dthp_means w2 lm2 C_I Rt obs omega_I nu_beta t N
  = dthp_means w lm C_I Rt obs omega_I nu_beta t N /\
  dthp_out w2 lm2 C_I Rt obs omega_I nu_beta t N
  = dthp_out w lm C_I Rt obs omega_I nu_beta t N.
Proof.
  intros Hi Hg Hlen.
  assert (dthp_lm lm2 obs omega_I t = dthp_lm lm obs omega_I t) as Hlm.
  { unfold dthp_lm.
    rewrite (const_fmap _ lm2 (intensity obs omega_I t)) by done.
    rewrite (const_fmap _ lm (intensity obs omega_I t)) by done.
    by rewrite Hlen. }
  unfold dthp_out, dthp_draws, dthp_means, dthp_Rt. by rewrite Hlm, Hi, Hg.
Qed.

End RaiseFacts.
Export RaiseFacts.

(** ** Special states and special parameters *)

Module DynamicsFacts.
Local Open Scope R_scope.

(** An accepted probability of infection of a particle without infected
    individuals is 0. *)
Lemma prob_SI_no_infected_valid dt b N :
  valid_prob (prob_SI dt b (Fin 0) N) -> prob_SI dt b (Fin 0) N = Fin 0.
Proof.
  unfold prob_SI. intros Hv.
  destruct (fmul_0_r_cases (fneg b)) as [E|E]; rewrite E in *; [|done].
  assert (fdiv (Fin 0) N = Fin 0 \/ fdiv (Fin 0) N = NaN) as [E'|E'].
  { destruct N as [n| | |]; [|by left|by left|by right].
    destruct (decide (n = 0)) as [->|Hn]; [right|left; by apply fdiv_0_l].
    unfold fdiv. by rewrite !decide_True. }
  - rewrite E' in *. by rewrite fmul_0_l, fexp_0, fsub_diag.
  - by rewrite E' in Hv.
Qed.

(** The SIR example without infected individuals returns. *)
Lemma recovered_example_run :
  exists l w' out s' i' r' ni' b',
    run (stochastic_sir_model 1%positive [1 / 8; 0] ["gamma"; "nu_beta"] 1)
      recovered_world = (Ok l, w') /\
    heap w' !! l = Some (Array2 out) /\
    particle out 0 = Some [s'; i'; r'; ni'; b'].
Proof.
  assert (sir_good [Fin 990] [Fin 0] [Fin 10] [Fin (1 / 4)] (1 / 8) 1) as Hgood.
  { split; (split; [|by apply singleton_nonneg_counts]).
    - apply singleton_valid_prob. cbn [fst snd].
      rewrite (fadd_int 990 0), (fadd_int (990 + 0) 10) by (simpl; lia).
      apply valid_prob_SI; try lra. by apply IZR_lt.
    - apply valid_prob_rate. lra. }
  destruct (sir_returns recovered_world 1%positive [1 / 8; 0]
              ["gamma"; "nu_beta"] 1
              [Fin 990] [Fin 0] [Fin 10] [Fin 7] [Fin (1 / 4)] (1 / 8)
              eq_refl eq_refl Hgood) as (l & w' & Hrun).
  destruct (sir_ok_inv _ _ _ _ _ _ _ Hrun)
    as (S_ & I_ & R_ & NI & B & gamma' & Hy & Hg' & _ & _ & _ & Hout).
  injection Hy as <- <- <- <- <-.
  exists l, w'. eexists _, _, _, _, _, _. split; [done|]. split; [exact Hout|].
  reflexivity.
Qed.

(** Without volatility the walk leaves a rate as it is. *)
Lemma fmul_one_r a : float a -> fmul a (Fin 1) = a.
Proof.
  destruct a as [x| | |]; simpl; intros Hf; [by apply fmul_1_r| | |done];
    unfold fmul, inf_times; rewrite decide_False by lra;
    by rewrite decide_True by lra.
Qed.

Lemma perturb_zero_any r z : float r -> perturb 0 r z = r.
Proof. intros Hr. unfold perturb. rewrite fmul_0_l, fexp_0. by apply fmul_one_r. Qed.

Lemma fmax0_nonneg_id a : nonneg a -> fmax0 a = a.
Proof.
  destruct a as [x| | |]; simpl; try done. intros Hx. by apply fmax0_id.
Qed.

(** With omega_I = 1 the turns before the last one add nothing. *)
Lemma foldl_conv_step_one obs (n k : nat) :
  (k <= n)%nat ->
  foldl (conv_step obs 1 (Z.of_nat (S n))) (Fin 0) (seq 0 k) = Fin 0.
Proof.
  induction k as [|k IH]; intros Hk; [done|].
  rewrite seq_S, foldl_app, IH by lia. cbn [foldl Nat.add].
  unfold conv_step. rewrite kernel_value_one, decide_False by lia.
  by rewrite fmul_0_r, (fadd_0_r 0 is_float_0).
Qed.

Lemma intensity_memoryless obs (n : nat) o :
  obs !! n = Some o -> is_float o ->
  intensity obs 1 (Z.of_nat (S n)) = Fin o.
Proof.
  intros Ho Hf. unfold intensity, range. rewrite Nat2Z.id.
  rewrite seq_S, foldl_app, foldl_conv_step_one by lia. cbn [foldl Nat.add].
  unfold conv_step. rewrite kernel_value_one, decide_True by lia.
  rewrite Ho. cbn [default from_option]. by rewrite fmul_1_r, fadd_0_l.
Qed.

End DynamicsFacts.
Export DynamicsFacts.

(** ** Further properties of the kernels *)

Module Extras.
Local Open Scope R_scope.

(** *** How the parameters are read *)

(** X5. Parameters are read by name.  Each kernel depends on theta and
    theta_names only through the entries it reads: gamma and nu_beta (SIR),
    gamma, alpha and nu_beta (SIRS), omega_I and nu_beta (Hawkes).  Two calls
    whose dictionaries agree on these give the same result and the same
    store; any other parameter is ignored. *)
Theorem parameters_are_read_by_name :
  (forall y theta names theta' names' dt w,
     dict_zip names theta !! "gamma" = dict_zip names' theta' !! "gamma" ->
     get (dict_zip names theta) "nu_beta" nu_beta_default
     = get (dict_zip names' theta') "nu_beta" nu_beta_default ->
     run (stochastic_sir_model y theta names dt) w
     = run (stochastic_sir_model y theta' names' dt) w) /\
  (forall y theta names theta' names' dt w,
     dict_zip names theta !! "gamma" = dict_zip names' theta' !! "gamma" ->
     get (dict_zip names theta) "alpha" 0
     = get (dict_zip names' theta') "alpha" 0 ->
     dict_zip names theta !! "nu_beta" = dict_zip names' theta' !! "nu_beta" ->
     run (stochastic_sirs_model y theta names dt) w
     = run (stochastic_sirs_model y theta' names' dt) w) /\
  (forall state theta tn theta' tn' sn od t N w,
     dict_zip tn theta !! "omega_I" = dict_zip tn' theta' !! "omega_I" ->
     get (dict_zip tn theta) "nu_beta" nu_beta_default
     = get (dict_zip tn' theta') "nu_beta" nu_beta_default ->
     run (dthp_model state theta sn tn od t N) w
     = run (dthp_model state theta' sn tn' od t N) w).
Proof.
  split; [|split]; intros.
  - by erewrite sir_params_ext.
  - by erewrite sirs_params_ext.
  - by erewrite dthp_params_ext.
Qed.

Lemma parameters_are_read_by_name_witness :
  run (stochastic_sir_model 1%positive [1 / 8; 0; 7]
         ["gamma"; "nu_beta"; "rho"] 1) sir_world
  = run (stochastic_sir_model 1%positive [0; 1 / 8]
           ["nu_beta"; "gamma"] 1) sir_world /\
  run (stochastic_sirs_model 1%positive [1; 0]
         ["gamma"; "nu_beta"] 1) sirs_world
  = run (stochastic_sirs_model 1%positive [1; 0; 0]
           ["gamma"; "alpha"; "nu_beta"] 1) sirs_world /\
  run (dthp_model 1%positive [1; 0; 3] hawkes_names
         ["omega_I"; "nu_beta"; "rho"] hawkes_data 1 1) (hawkes_world 0 1)
  = run (dthp_model 1%positive hawkes_theta hawkes_names hawkes_theta_names
           hawkes_data 1 1) (hawkes_world 0 1).
Proof.
  destruct parameters_are_read_by_name as (Hsir & Hsirs & Hdthp).
  split; [|split].
  - apply Hsir; reflexivity.
  - apply Hsirs; reflexivity.
  - apply Hdthp; reflexivity.
Defined.

(** X6. An optional parameter that is not listed takes its default: a call
    without nu_beta behaves as the same call with nu_beta = 0.1 (SIR and
    Hawkes kernels), and a call without alpha as the same call with
    alpha = 0 (SIRS kernel). *)
Theorem omitted_parameter_takes_default :
  (forall y theta names dt w,
     "nu_beta" ∉ names ->
     run (stochastic_sir_model y theta names dt) w
     = run (stochastic_sir_model y (nu_beta_default :: theta) ("nu_beta" :: names) dt) w) /\
  (forall y theta names dt w,
     "alpha" ∉ names ->
     run (stochastic_sirs_model y theta names dt) w
     = run (stochastic_sirs_model y (0 :: theta) ("alpha" :: names) dt) w) /\
  (forall state theta tn sn od t N w,
     "nu_beta" ∉ tn ->
     run (dthp_model state theta sn tn od t N) w
     = run (dthp_model state (nu_beta_default :: theta) sn ("nu_beta" :: tn) od t N) w).
Proof.
  split; [|split]; intros.
  - erewrite sir_params_ext; [done| |].
    + by rewrite dict_zip_cons_other.
    + by rewrite get_dict_zip_default.
  - erewrite sirs_params_ext; [done| | |].
    + by rewrite dict_zip_cons_other.
    + by rewrite get_dict_zip_default.
    + by rewrite dict_zip_cons_other.
  - erewrite dthp_params_ext; [done| |].
    + by rewrite dict_zip_cons_other.
    + by rewrite get_dict_zip_default.
Qed.

Lemma omitted_parameter_takes_default_witness :
  run (stochastic_sir_model 1%positive [1 / 8] ["gamma"] 1) sir_world
  = run (stochastic_sir_model 1%positive [nu_beta_default; 1 / 8]
           ["nu_beta"; "gamma"] 1) sir_world /\
  run (stochastic_sirs_model 1%positive [1; 0] ["gamma"; "nu_beta"] 1)
    sirs_world
  = run (stochastic_sirs_model 1%positive [0; 1; 0]
           ["alpha"; "gamma"; "nu_beta"] 1) sirs_world /\
  run (dthp_model 1%positive [1] hawkes_names ["omega_I"] hawkes_data 1 1)
    (hawkes_world 0 1)
  = run (dthp_model 1%positive [nu_beta_default; 1] hawkes_names
           ["nu_beta"; "omega_I"] hawkes_data 1 1) (hawkes_world 0 1).
Proof.
  destruct omitted_parameter_takes_default as (Hsir & Hsirs & Hdthp).
  split; [|split].
  - apply Hsir. by apply (bool_decide_unpack _).
  - apply Hsirs. by apply (bool_decide_unpack _).
  - apply Hdthp. by apply (bool_decide_unpack _).
Defined.

(** X7. The order of the parameters is irrelevant: when the names are
    distinct, listing the same (name, value) pairs in another order gives
    the same result and the same store, for each of the three kernels. *)
Theorem parameter_order_is_irrelevant :
  (forall y theta names theta' names' dt w,
     NoDup names -> zip names theta ≡ₚ zip names' theta' ->
     run (stochastic_sir_model y theta names dt) w
     = run (stochastic_sir_model y theta' names' dt) w) /\
  (forall y theta names theta' names' dt w,
     NoDup names -> zip names theta ≡ₚ zip names' theta' ->
     run (stochastic_sirs_model y theta names dt) w
     = run (stochastic_sirs_model y theta' names' dt) w) /\
  (forall state theta tn theta' tn' sn od t N w,
     NoDup tn -> zip tn theta ≡ₚ zip tn' theta' ->
     run (dthp_model state theta sn tn od t N) w
     = run (dthp_model state theta' sn tn' od t N) w).
Proof.
  split; [|split]; intros.
  - erewrite sir_params_ext; [done| |];
      by erewrite dict_zip_permutation.
  - erewrite sirs_params_ext; [done| | |];
      by erewrite dict_zip_permutation.
  - erewrite dthp_params_ext; [done| |];
      by erewrite dict_zip_permutation.
Qed.

Lemma parameter_order_is_irrelevant_witness :
  run (stochastic_sir_model 1%positive [1 / 8; 0] ["gamma"; "nu_beta"] 1)
    sir_world
  = run (stochastic_sir_model 1%positive [0; 1 / 8] ["nu_beta"; "gamma"] 1)
      sir_world /\
  run (stochastic_sirs_model 1%positive [1; 0] ["gamma"; "nu_beta"] 1)
    sirs_world
  = run (stochastic_sirs_model 1%positive [0; 1] ["nu_beta"; "gamma"] 1)
      sirs_world /\
  run (dthp_model 1%positive [1; 0] hawkes_names ["omega_I"; "nu_beta"]
         hawkes_data 1 1) (hawkes_world 0 1)
  = run (dthp_model 1%positive [0; 1] hawkes_names ["nu_beta"; "omega_I"]
           hawkes_data 1 1) (hawkes_world 0 1).
Proof.
  destruct parameter_order_is_irrelevant as (Hsir & Hsirs & Hdthp).
  split; [|split].
  - apply Hsir; [by apply (bool_decide_unpack _) | apply perm_swap].
  - apply Hsirs; [by apply (bool_decide_unpack _) | apply perm_swap].
  - apply Hdthp; [by apply (bool_decide_unpack _) | apply perm_swap].
Defined.

(** X8. What [dict(zip(theta_names, theta))] holds.  With distinct names a
    name has the value v exactly when v stands in theta at a position of
    the name in theta_names; and a name listed once more at the end is read
    with its last value. *)
Theorem parameter_lookup :
  (forall names (theta : list R) k v,
     NoDup names ->
     dict_zip names theta !! k = Some v <->
     exists i, names !! i = Some k /\ theta !! i = Some v) /\
  (forall names (theta : list R) k v w,
     length names = length theta ->
     run (getitem (dict_zip (names ++ [k]) (theta ++ [v])) k) w = (Ok v, w)).
Proof.
  split.
  - intros. by apply dict_zip_lookup_Some.
  - intros names theta k v w Hlen. unfold run, getitem.
    rewrite dict_zip_snoc by done. by rewrite lookup_insert_eq.
Qed.

Lemma parameter_lookup_witness :
  (dict_zip ["gamma"; "nu_beta"] [1 / 8; 0] !! "nu_beta" = Some 0 <->
   exists i, ["gamma"; "nu_beta"] !! i = Some "nu_beta" /\
             [1 / 8; 0] !! i = Some 0) /\
  run (getitem (dict_zip (["gamma"; "nu_beta"] ++ ["gamma"])
                  ([1 / 8; 0] ++ [1 / 5])) "gamma") sir_world
  = (Ok (1 / 5), sir_world).
Proof.
  destruct parameter_lookup as (Hiff & Hlast).
  split.
  - apply Hiff. by apply (bool_decide_unpack _).
  - apply Hlast. reflexivity.
Defined.

(** X9. The kernels keep the shape of the ensemble.  A state returned for
    an array of shape (n, 5) by the SIR or the SIRS kernel has shape
    (n, 5); the table returned by the Hawkes kernel for an array of shape
    (n, 3) holds an array of shape (n, 3), labelled with the three
    state_names. *)

(** *** The shape of the ensemble *)

(** X9. The kernels keep the shape of the ensemble.  A state returned for
    an array of shape (n, 5) by the SIR or the SIRS kernel has shape
    (n, 5); the table returned by the Hawkes kernel for an array of shape
    (n, 3) holds an array of shape (n, 3), labelled with the three
    state_names. *)
Theorem kernels_preserve_shape :
  (forall w y theta names dt l w' yv out n,
     run (stochastic_sir_model y theta names dt) w = (Ok l, w') ->
     heap w !! y = Some (Array2 yv) ->
     heap w' !! l = Some (Array2 out) ->
     has_shape yv n 5 -> has_shape out n 5) /\
  (forall w y theta names dt l w' yv out n,
     run (stochastic_sirs_model y theta names dt) w = (Ok l, w') ->
     heap w !! y = Some (Array2 yv) ->
     heap w' !! l = Some (Array2 out) ->
     has_shape yv n 5 -> has_shape out n 5) /\
  (forall w state theta sn tn od t N df w' st out n,
     run (dthp_model state theta sn tn od t N) w = (Ok df, w') ->
     heap w !! state = Some (Array2 st) ->
     heap w' !! values df = Some (Array2 out) ->
     has_shape st n 3 ->
     has_shape out n 3 /\ columns df = sn /\ length sn = 3%nat).
Proof.
  split; [|split].
  - intros w y theta names dt l w' yv out n Hrun Hy Hl Hsh.
    destruct (sir_ok_arrays _ _ _ _ _ _ _ _ _ Hrun Hy Hl)
      as (S_ & I_ & R_ & NI & B & gamma & -> & _ & _ & ->).
    by eapply maximum0_shape, sir_next_shape.
  - intros w y theta names dt l w' yv out n Hrun Hy Hl Hsh.
    destruct (sirs_ok_arrays _ _ _ _ _ _ _ _ _ Hrun Hy Hl)
      as (S_ & I_ & R_ & NI & B & gamma & nu & -> & _ & _ & _ & ->).
    by eapply maximum0_shape, sirs_next_shape.
  - intros w state theta sn tn od t N df w' st out n Hrun Hy Hl Hsh.
    destruct (dthp_ok_arrays _ _ _ _ _ _ _ _ _ _ _ _ Hrun Hy Hl)
      as (lm & C_I & Rt & omega & -> & _ & (_ & _ & Hlen) & Hcol & ->).
    split; [by apply dthp_out_shape|done].
Qed.

Lemma kernels_preserve_shape_witness :
  (exists l w' out,
     run (stochastic_sir_model 1%positive [1 / 8; 0] ["gamma"; "nu_beta"] 1)
       sir_world = (Ok l, w') /\
     heap w' !! l = Some (Array2 out) /\ has_shape out 1 5) /\
  (exists l w' out,
     run (stochastic_sirs_model 1%positive [1; 0; 0]
            ["gamma"; "alpha"; "nu_beta"] 1) sirs_world = (Ok l, w') /\
     heap w' !! l = Some (Array2 out) /\ has_shape out 1 5) /\
  (exists df w' out,
     run (dthp_model 1%positive hawkes_theta hawkes_names hawkes_theta_names
            hawkes_data 1 1) (hawkes_world 0 1) = (Ok df, w') /\
     heap w' !! values df = Some (Array2 out) /\
     has_shape out 1 3 /\ columns df = hawkes_names).
Proof.
  destruct kernels_preserve_shape as (Hsir & Hsirs & Hdthp).
  split; [|split].
  - destruct (sir_example_run [1 / 8; 0] ["gamma"; "nu_beta"] (1 / 8) eq_refl)
      as (l & w' & out & _ & _ & _ & _ & _ & Hrun & Hout & _); [lra|].
    exists l, w', out. split; [done|]. split; [done|].
    apply (Hsir sir_world 1%positive [1 / 8; 0] ["gamma"; "nu_beta"] 1 l w'
             [[Fin 990]; [Fin 10]; [Fin 0]; [Fin 0]; [Fin (1 / 4)]] out 1%nat Hrun eq_refl Hout).
    split; [reflexivity|by repeat constructor].
  - destruct sirs_example_run
      as (l & w' & out & _ & _ & _ & _ & _ & _ & Hrun & Hout & _).
    exists l, w', out. split; [done|]. split; [done|].
    apply (Hsirs sirs_world 1%positive [1; 0; 0]
             ["gamma"; "alpha"; "nu_beta"] 1 l w'
             [[Fin 0]; [Fin 1]; [Fin 0]; [Fin 0]; [Fin 1]] out 1%nat Hrun eq_refl Hout).
    split; [reflexivity|by repeat constructor].
  - destruct hawkes_example_draw as (df & w' & out & _ & Hrun & Hout & _).
    exists df, w', out. split; [done|]. split; [done|].
    destruct (Hdthp (hawkes_world 0 1) 1%positive hawkes_theta hawkes_names
                hawkes_theta_names hawkes_data 1%Z 1 df w' [[Fin 0]; [Fin 0]; [Fin 1]] out
                1%nat Hrun eq_refl Hout) as (Hsh & Hcol & _); [|done].
    split; [reflexivity|by repeat constructor].
Defined.

(** X10. An array with the wrong number of state variables is rejected:
    the unpacking of the SIR and SIRS kernels raises ValueError unless there
    are five, before any parameter is read and with the store untouched;
    the Hawkes kernel raises ValueError unless there are three, and the
    objects of the store are as they were. *)
Theorem wrong_column_count_raises :
  (forall w y theta names dt yv,
     heap w !! y = Some (Array2 yv) -> length yv <> 5%nat ->
     run (stochastic_sir_model y theta names dt) w = (Raise ValueError, w)) /\
  (forall w y theta names dt yv,
     heap w !! y = Some (Array2 yv) -> length yv <> 5%nat ->
     run (stochastic_sirs_model y theta names dt) w = (Raise ValueError, w)) /\
  (forall w state theta sn tn od t N st,
     heap w !! state = Some (Array2 st) -> length st <> 3%nat ->
     exists w',
       run (dthp_model state theta sn tn od t N) w = (Raise ValueError, w') /\
       heap w ⊆ heap w').
Proof.
  split; [|split].
  - intros w y theta names dt yv Hy Hlen.
    unfold run, stochastic_sir_model, bind, load_array. rewrite Hy.
    by destruct yv as [|S_ [|I_ [|R_ [|NI [|B [|]]]]]].
  - intros w y theta names dt yv Hy Hlen.
    unfold run, stochastic_sirs_model, bind, load_array. rewrite Hy.
    by destruct yv as [|S_ [|I_ [|R_ [|NI [|B [|]]]]]].
  - intros w state theta sn tn od t N st Hy Hlen.
    unfold run, dthp_model, bind, load_array. rewrite Hy. cbn.
    eexists. split.
    + by destruct st as [|lm [|C_I [|Rt [|]]]].
    + cbn. apply insert_subseteq, not_elem_of_dom, is_fresh.
Qed.

Lemma wrong_column_count_raises_witness :
  run (stochastic_sir_model 1%positive [1 / 8] ["gamma"] 1) (hawkes_world 0 1)
  = (Raise ValueError, hawkes_world 0 1) /\
  run (stochastic_sirs_model 1%positive [1 / 8] ["gamma"] 1) (hawkes_world 0 1)
  = (Raise ValueError, hawkes_world 0 1) /\
  exists w',
    run (dthp_model 1%positive hawkes_theta hawkes_names hawkes_theta_names
           hawkes_data 1 1) sir_world = (Raise ValueError, w') /\
    heap sir_world ⊆ heap w'.
Proof.
  destruct wrong_column_count_raises as (Hsir & Hsirs & Hdthp).
  split; [|split].
  - apply (Hsir (hawkes_world 0 1) 1%positive [1 / 8] ["gamma"] 1
             [[Fin 0]; [Fin 0]; [Fin 1]] eq_refl). cbn. lia.
  - apply (Hsirs (hawkes_world 0 1) 1%positive [1 / 8] ["gamma"] 1
             [[Fin 0]; [Fin 0]; [Fin 1]] eq_refl). cbn. lia.
  - apply (Hdthp sir_world 1%positive hawkes_theta hawkes_names
             hawkes_theta_names hawkes_data 1%Z 1
             [[Fin 990]; [Fin 10]; [Fin 0]; [Fin 0]; [Fin (1 / 4)]] eq_refl). cbn. lia.
Defined.

(** X11. The compartmental kernels return on every valid ensemble.  Given
    an array of shape (n, 5) whose particles have non-negative S, I, R and
    B and a population S + I + R > 0, a non-negative time step and a
    non-negative gamma, the SIR kernel returns; so does the SIRS kernel when
    nu_beta is supplied and alpha (supplied or defaulted) is not negative. *)

(** *** Errors and unread columns *)

(** X16. The exceptions of the Hawkes kernel, for a state of three
    variables and a supplied omega_I.  With t > 0 and no 'obs' in
    observed_data the call raises KeyError('obs'); with a history shorter
    than t it raises IndexError; both come before the draws, whatever N and
    state_names are.  With a history of at least t observations the only
    exception a call can raise is ValueError. *)
Theorem dthp_history_errors w state theta sn tn t N lm C_I Rt omega_I :
  heap w !! state = Some (Array2 [lm; C_I; Rt]) ->
  dict_zip tn theta !! "omega_I" = Some omega_I ->
  (forall od,
     (0 < t)%Z -> od !! "obs" = None ->
     exists w',
       run (dthp_model state theta sn tn od t N) w
       = (Raise (KeyError "obs"), w')) /\
  (forall od s obs,
     od !! "obs" = Some s -> heap w !! s = Some (Series obs) ->
     (Z.of_nat (length obs) < t)%Z ->
     exists w',
       run (dthp_model state theta sn tn od t N) w = (Raise IndexError, w')) /\
  (forall od s obs e w',
     od !! "obs" = Some s -> heap w !! s = Some (Series obs) ->
     (t <= Z.of_nat (length obs))%Z ->
     run (dthp_model state theta sn tn od t N) w = (Raise e, w') ->
     e = ValueError).
Proof.
  intros Hst Hom. split; [|split].
  - intros od Ht Hobs.
    destruct (wp_cases _ _ _
      (dthp_raise_spec w state theta sn tn od t N _ _ _ _ Hst Hom))
      as ([df|e] & w' & Hrun & H).
    + apply dthp_ok_inv in Hrun
        as (? & ? & ? & ? & _ & _ & (Hg & _) & _).
      destruct (Hg Ht) as [(s & vals & Hs & _) _]. congruence.
    + exists w'. destruct H as [(-> & _)|[(_ & _ & Hs & _)|[(_ & Hav & _)|(_ & Hg)]]].
      * done.
      * rewrite Hobs in Hs. by destruct Hs.
      * destruct Hav as (s & vals & Hs & _). congruence.
      * destruct (Hg Ht) as [(s & vals & Hs & _) _]. congruence.
  - intros od s obs Hs Hv Hlen.
    assert (obs_values w od = obs) as Hobs.
    { unfold obs_values. by rewrite Hs, Hv. }
    assert (obs_available w od) as Hav by (by exists s, obs).
    destruct (wp_cases _ _ _
      (dthp_raise_spec w state theta sn tn od t N _ _ _ _ Hst Hom))
      as ([df|e] & w' & Hrun & H).
    + apply dthp_ok_inv in Hrun
        as (? & ? & ? & ? & _ & _ & (Hg & _) & _).
      rewrite Hobs in Hg. lia.
    + exists w'. destruct H as [(_ & _ & Hn)|[(_ & _ & _ & Hna)|[(-> & _)|(_ & Hg)]]].
      * congruence.
      * done.
      * done.
      * rewrite Hobs in Hg. lia.
  - intros od s obs e w' Hs Hv Hlen Hrun.
    assert (obs_values w od = obs) as Hobs.
    { unfold obs_values. by rewrite Hs, Hv. }
    assert (obs_available w od) as Hav by (by exists s, obs).
    pose proof (dthp_raise_spec w state theta sn tn od t N _ _ _ _ Hst Hom) as H.
    unfold wp in H. rewrite Hrun in H. cbn in H.
    destruct H as [(_ & _ & Hn)|[(_ & _ & _ & Hna)|[(_ & _ & Hlt)|(-> & _)]]].
    + congruence.
    + done.
    + rewrite Hobs in Hlt. lia.
    + done.
Qed.

Lemma dthp_history_errors_witness :
  (exists w',
     run (dthp_model 1%positive hawkes_theta hawkes_names hawkes_theta_names
            ∅ 2 1) (hawkes_world 0 1) = (Raise (KeyError "obs"), w')) /\
  (exists w',
     run (dthp_model 1%positive hawkes_theta hawkes_names hawkes_theta_names
            hawkes_data 2 1) (hawkes_world 0 1) = (Raise IndexError, w')).
Proof.
  destruct (dthp_history_errors (hawkes_world 0 1) 1%positive hawkes_theta
              hawkes_names hawkes_theta_names 2 1 [Fin 0] [Fin 0] [Fin 1] 1
              eq_refl eq_refl) as (Hkey & Hidx & _).
  split.
  - apply Hkey; [lia|reflexivity].
  - apply (Hidx hawkes_data 2%positive [1]); [reflexivity|reflexivity|].
    cbn. lia.
Defined.

(** X18. Stale columns are ignored.  The NI column of the input of the SIR
    and SIRS kernels is never read, and the lm_I column of the input of the
    Hawkes kernel is overwritten before it is used: with the same random
    outcomes, a call on an ensemble that differs only in that column returns
    as well, and returns the same array. *)
Theorem stale_columns_are_ignored :
  (forall w w2 y y2 theta names dt S_ I_ R_ NI NI2 B l w' out,
     heap w !! y = Some (Array2 [S_; I_; R_; NI; B]) ->
     heap w2 !! y2 = Some (Array2 [S_; I_; R_; NI2; B]) ->
     ints w2 = ints w -> gauss w2 = gauss w ->
     run (stochastic_sir_model y theta names dt) w = (Ok l, w') ->
     heap w' !! l = Some (Array2 out) ->
     exists l2 w2',
       run (stochastic_sir_model y2 theta names dt) w2 = (Ok l2, w2') /\
       heap w2' !! l2 = Some (Array2 out)) /\
  (forall w w2 y y2 theta names dt S_ I_ R_ NI NI2 B l w' out,
     heap w !! y = Some (Array2 [S_; I_; R_; NI; B]) ->
     heap w2 !! y2 = Some (Array2 [S_; I_; R_; NI2; B]) ->
     ints w2 = ints w -> gauss w2 = gauss w ->
     run (stochastic_sirs_model y theta names dt) w = (Ok l, w') ->
     heap w' !! l = Some (Array2 out) ->
     exists l2 w2',
       run (stochastic_sirs_model y2 theta names dt) w2 = (Ok l2, w2') /\
       heap w2' !! l2 = Some (Array2 out)) /\
  (forall w state theta sn tn od t N lm lm2 C_I Rt df w' out,
     heap w !! state = Some (Array2 [lm; C_I; Rt]) ->
     length lm2 = length lm ->
     run (dthp_model state theta sn tn od t N) w = (Ok df, w') ->
     heap w' !! values df = Some (Array2 out) ->
     exists df2 w2',
       run (dthp_model state theta sn tn od t N)
         (set_heap (<[state := Array2 [lm2; C_I; Rt]]> (heap w)) w)
       = (Ok df2, w2') /\
       heap w2' !! values df2 = Some (Array2 out)).
Proof.
  split; [|split].
  - intros w w2 y y2 theta names dt S_ I_ R_ NI NI2 B l w' out
      Hy Hy2 Hi Hg Hrun Hl.
    destruct (sir_ok_arrays _ _ _ _ _ _ _ _ _ Hrun Hy Hl)
      as (S0 & I0 & R0 & NI0 & B0 & gamma & [= <- <- <- <- <-] & Hgam & Hgood & ->).
    destruct (sir_returns w2 y2 theta names dt _ _ _ _ _ _ Hy2 Hgam Hgood)
      as (l2 & w2' & Hrun2).
    exists l2, w2'. split; [done|].
    destruct (sir_ok_inv _ _ _ _ _ _ _ Hrun2)
      as (S0 & I0 & R0 & NI0 & B0 & gamma' & Hy2' & Hgam' & _ & _ & _ & Hl2).
    rewrite Hy2 in Hy2'. injection Hy2' as <- <- <- <- <-.
    rewrite Hgam in Hgam'. injection Hgam' as <-.
    rewrite Hl2. do 3 f_equal. by apply sir_next_streams.
  - intros w w2 y y2 theta names dt S_ I_ R_ NI NI2 B l w' out
      Hy Hy2 Hi Hg Hrun Hl.
    destruct (sirs_ok_arrays _ _ _ _ _ _ _ _ _ Hrun Hy Hl)
      as (S0 & I0 & R0 & NI0 & B0 & gamma & nu & [= <- <- <- <- <-] & Hgam
          & Hnu & Hgood & ->).
    destruct (sirs_returns w2 y2 theta names dt _ _ _ _ _ _ _ Hy2 Hgam Hnu Hgood)
      as (l2 & w2' & Hrun2).
    exists l2, w2'. split; [done|].
    destruct (sirs_ok_inv _ _ _ _ _ _ _ Hrun2)
      as (S0 & I0 & R0 & NI0 & B0 & gamma' & nu' & Hy2' & Hgam' & Hnu' & _ & _
          & _ & Hl2).
    rewrite Hy2 in Hy2'. injection Hy2' as <- <- <- <- <-.
    rewrite Hgam in Hgam'. injection Hgam' as <-.
    rewrite Hnu in Hnu'. injection Hnu' as <-.
    rewrite Hl2. do 3 f_equal. by apply sirs_next_streams.
  - intros w state theta sn tn od t N lm lm2 C_I Rt df w' out
      Hst Hlen Hrun Hl.
    destruct (dthp_ok_arrays _ _ _ _ _ _ _ _ _ _ _ _ Hrun Hst Hl)
      as (lm0 & C0 & Rt0 & omega & [= <- <- <-] & Hom & Hgood & _ & ->).
    set (w2 := set_heap (<[state := Array2 [lm2; C_I; Rt]]> (heap w)) w).
    assert (heap w2 !! state = Some (Array2 [lm2; C_I; Rt])) as Hst2
      by apply lookup_insert_eq.
    assert (obs_values w2 od = obs_values w od) as Hobs
      by (by eapply obs_values_replace).
    destruct (dthp_out_stale w w2 lm lm2 C_I Rt (obs_values w od) omega
                (get (dict_zip tn theta) "nu_beta" nu_beta_default) t N
                eq_refl eq_refl Hlen) as [Hmeans Hout].
    destruct (dthp_returns w2 state theta sn tn od t N _ _ _ _ Hst2 Hom)
      as (df2 & w2' & Hrun2).
    { rewrite Hobs, Hmeans. destruct Hgood as (Hh & Hv & Hn).
      split; [|done]. intros Ht. destruct (Hh Ht) as [Hav Hle].
      split; [by eapply obs_available_replace|]. by rewrite Hobs. }
    exists df2, w2'. split; [done|].
    destruct (dthp_ok_inv _ _ _ _ _ _ _ _ _ _ Hrun2)
      as (lm0 & C0 & Rt0 & omega' & Hst2' & Hom' & _ & _ & _ & _ & Hl2).
    rewrite Hst2 in Hst2'. injection Hst2' as <- <- <-.
    rewrite Hom in Hom'. injection Hom' as <-.
    rewrite Hl2, Hobs. by rewrite Hout.
Qed.

Lemma stale_columns_are_ignored_witness :
  exists l w' out l2 w2',
    run (stochastic_sir_model 1%positive [1 / 8; 0] ["gamma"; "nu_beta"] 1)
      sir_world = (Ok l, w') /\
    heap w' !! l = Some (Array2 out) /\
    run (stochastic_sir_model 1%positive [1 / 8; 0] ["gamma"; "nu_beta"] 1)
      stale_world = (Ok l2, w2') /\
    heap w2' !! l2 = Some (Array2 out).
Proof.
  destruct stale_columns_are_ignored as (Hsir & _ & _).
  destruct (sir_example_run [1 / 8; 0] ["gamma"; "nu_beta"] (1 / 8) eq_refl)
    as (l & w' & out & _ & _ & _ & _ & _ & Hrun & Hout & _); [lra|].
  destruct (Hsir sir_world
              stale_world
              1%positive 1%positive [1 / 8; 0] ["gamma"; "nu_beta"] 1
              [Fin 990] [Fin 10] [Fin 0] [Fin 0] [Fin 7] [Fin (1 / 4)] l w' out
              eq_refl eq_refl eq_refl eq_refl Hrun Hout)
    as (l2 & w2' & Hrun2 & Hout2).
  by exists l, w', out, l2, w2'.
Defined.

(** X2. The disease-free state is absorbing.  A particle without infected
    individuals gets no new infection: the SIR kernel returns it with the
    same S and R (binary64 numbers that are not negative), I = 0 and
    NI = 0, and the SIRS kernel returns it with I = 0 and NI = 0. *)
Theorem disease_free_is_absorbing :
  (forall w y theta names dt l w' yv out i s r ni b s' i' r' ni' b',
     run (stochastic_sir_model y theta names dt) w = (Ok l, w') ->
     heap w !! y = Some (Array2 yv) ->
     heap w' !! l = Some (Array2 out) ->
     particle yv i = Some [Fin s; Fin 0; Fin r; ni; b] ->
     is_float s -> is_float r -> 0 <= s -> 0 <= r ->
     particle out i = Some [s'; i'; r'; ni'; b'] ->
     s' = Fin s /\ i' = Fin 0 /\ r' = Fin r /\ ni' = Fin 0) /\
  (forall w y theta names dt l w' yv out i s r ni b s' i' r' ni' b',
     run (stochastic_sirs_model y theta names dt) w = (Ok l, w') ->
     heap w !! y = Some (Array2 yv) ->
     heap w' !! l = Some (Array2 out) ->
     particle yv i = Some [s; Fin 0; r; ni; b] ->
     particle out i = Some [s'; i'; r'; ni'; b'] ->
     i' = Fin 0 /\ ni' = Fin 0).
Proof.
  split.
  - intros w y theta names dt l w' yv out i s r ni b s' i' r' ni' b'
      Hrun Hy Hl Hin Hfs Hfr Hs Hr Hout.
    destruct (sir_ok_row _ _ _ _ _ _ _ _ _ _ _ _ _ _ _ _ Hrun Hy Hl Hin Hout)
      as (gamma & n1 & _ & Hrow).
    cbv zeta in Hrow. destruct Hrow as (Hp & _ & _ & _ & Hrow).
    rewrite (prob_SI_no_infected_valid _ _ _ Hp) in Hrow.
    cbn [real_of] in Hrow.
    rewrite binomial_draw_zero, (astype_int_IZR 0) in Hrow by lia.
    rewrite binomial_draw_no_trials, of_int_0 in Hrow.
    rewrite (fsub_0_r s Hfs), (fadd_0_r r Hfr), (fadd_0_r 0 is_float_0),
      fsub_diag in Hrow.
    rewrite (fmax0_id s), (fmax0_id r), (fmax0_id 0) in Hrow by lra.
    by injection Hrow as -> -> -> -> _.
  - intros w y theta names dt l w' yv out i s r ni b s' i' r' ni' b'
      Hrun Hy Hl Hin Hout.
    destruct (sirs_ok_row _ _ _ _ _ _ _ _ _ _ _ _ _ _ _ _ Hrun Hy Hl Hin Hout)
      as (gamma & nu & n1 & n2 & _ & _ & Hrow).
    cbv zeta in Hrow. destruct Hrow as (Hp & _ & _ & _ & _ & _ & Hrow).
    rewrite (prob_SI_no_infected_valid _ _ _ Hp) in Hrow.
    cbn [real_of] in Hrow.
    rewrite binomial_draw_zero, (astype_int_IZR 0) in Hrow by lia.
    rewrite binomial_draw_no_trials, of_int_0 in Hrow.
    destruct mu_value as (m & Hm & _). rewrite Hm in Hrow.
    rewrite (fadd_0_r 0 is_float_0), fmul_0_r, fmul_0_l, !fsub_diag in Hrow.
    rewrite (fmax0_id 0) in Hrow by lra.
    by injection Hrow as _ -> _ -> _.
Qed.

Lemma disease_free_is_absorbing_witness :
  exists l w' out s' i' r' ni' b',
    run (stochastic_sir_model 1%positive [1 / 8; 0] ["gamma"; "nu_beta"] 1)
      recovered_world = (Ok l, w') /\
    heap w' !! l = Some (Array2 out) /\
    particle out 0 = Some [s'; i'; r'; ni'; b'] /\
    s' = Fin 990 /\ i' = Fin 0 /\ r' = Fin 10 /\ ni' = Fin 0.
Proof.
  destruct disease_free_is_absorbing as [Hsir _].
  destruct recovered_example_run
    as (l & w' & out & s' & i' & r' & ni' & b' & Hrun & Hout & Hrow).
  exists l, w', out, s', i', r', ni', b'.
  split; [done|]. split; [done|]. split; [done|].
  apply (Hsir recovered_world 1%positive [1 / 8; 0] ["gamma"; "nu_beta"] 1
           l w' [[Fin 990]; [Fin 0]; [Fin 10]; [Fin 7]; [Fin (1 / 4)]] out
           0%nat 990 10 (Fin 7) (Fin (1 / 4)) s' i' r' ni' b'
           Hrun eq_refl Hout eq_refl);
    try (apply is_float_IZR; simpl; lia); try lra. done.
Defined.

(** X4. Without volatility the rates do not move: with nu_beta = 0 the SIR
    and SIRS kernels return a non-negative B unchanged and the Hawkes kernel
    returns Rt unchanged, whatever the normal outcomes are (B and Rt being
    binary64 values). *)
Theorem zero_volatility_freezes_rates :
  (forall w y theta names dt l w' yv out i s ii r ni b s' i' r' ni' b',
     run (stochastic_sir_model y theta names dt) w = (Ok l, w') ->
     heap w !! y = Some (Array2 yv) ->
     heap w' !! l = Some (Array2 out) ->
     particle yv i = Some [s; ii; r; ni; b] ->
     particle out i = Some [s'; i'; r'; ni'; b'] ->
     dict_zip names theta !! "nu_beta" = Some 0 ->
     float b -> nonneg b ->
     b' = b) /\
  (forall w y theta names dt l w' yv out i s ii r ni b s' i' r' ni' b',
     run (stochastic_sirs_model y theta names dt) w = (Ok l, w') ->
     heap w !! y = Some (Array2 yv) ->
     heap w' !! l = Some (Array2 out) ->
     particle yv i = Some [s; ii; r; ni; b] ->
     particle out i = Some [s'; i'; r'; ni'; b'] ->
     dict_zip names theta !! "nu_beta" = Some 0 ->
     float b -> nonneg b ->
     b' = b) /\
  (forall w state theta sn tn od t N df w' st out i l c r l' c' r',
     run (dthp_model state theta sn tn od t N) w = (Ok df, w') ->
     heap w !! state = Some (Array2 st) ->
     heap w' !! values df = Some (Array2 out) ->
     particle st i = Some [l; c; r] ->
     particle out i = Some [l'; c'; r'] ->
     dict_zip tn theta !! "nu_beta" = Some 0 ->
     float r ->
     r' = r).
Proof.
  split; [|split].
  - intros w y theta names dt l w' yv out i s ii r ni b s' i' r' ni' b'
      Hrun Hy Hl Hin Hout Hnu Hf Hb.
    destruct (sir_ok_row _ _ _ _ _ _ _ _ _ _ _ _ _ _ _ _ Hrun Hy Hl Hin Hout)
      as (gamma & n1 & _ & Hrow).
    cbv zeta in Hrow. destruct Hrow as (_ & _ & _ & _ & Hrow).
    unfold get in Hrow. rewrite Hnu in Hrow. cbn [default from_option] in Hrow.
    rewrite walk_factor_zero, (fmul_one_r b), (fmax0_nonneg_id b) in Hrow by done.
    by injection Hrow as _ _ _ _ ->.
  - intros w y theta names dt l w' yv out i s ii r ni b s' i' r' ni' b'
      Hrun Hy Hl Hin Hout Hnu Hf Hb.
    destruct (sirs_ok_row _ _ _ _ _ _ _ _ _ _ _ _ _ _ _ _ Hrun Hy Hl Hin Hout)
      as (gamma & nu & n1 & n2 & _ & Hnu' & Hrow).
    rewrite Hnu in Hnu'. injection Hnu' as <-.
    cbv zeta in Hrow. destruct Hrow as (_ & _ & _ & _ & _ & _ & Hrow).
    rewrite walk_factor_zero, (fmul_one_r b), (fmax0_nonneg_id b) in Hrow by done.
    by injection Hrow as _ _ _ _ ->.
  - intros w state theta sn tn od t N df w' st out i l c r l' c' r'
      Hrun Hst Hdf Hin Hout Hnu Hf.
    destruct (dthp_ok_row _ _ _ _ _ _ _ _ _ _ _ _ _ _ _ _ _ Hrun Hst Hdf Hin
                Hout) as (omega & _ & _ & Hrow).
    cbv zeta in Hrow. unfold get in Hrow. rewrite Hnu in Hrow.
    cbn [default from_option] in Hrow.
    rewrite perturb_zero_any in Hrow by done.
    by injection Hrow as _ _ ->.
Qed.

Lemma zero_volatility_freezes_rates_witness :
  (exists l w' out s' i' r' ni' b',
     run (stochastic_sir_model 1%positive [1 / 8; 0] ["gamma"; "nu_beta"] 1)
       sir_world = (Ok l, w') /\
     heap w' !! l = Some (Array2 out) /\
     particle out 0 = Some [s'; i'; r'; ni'; b'] /\ b' = Fin (1 / 4)) /\
  (exists l w' out s' i' r' ni' b',
     run (stochastic_sirs_model 1%positive [1; 0; 0]
            ["gamma"; "alpha"; "nu_beta"] 1) sirs_world = (Ok l, w') /\
     heap w' !! l = Some (Array2 out) /\
     particle out 0 = Some [s'; i'; r'; ni'; b'] /\ b' = Fin 1) /\
  (exists df w' out l' c' r',
     run (dthp_model 1%positive hawkes_theta hawkes_names hawkes_theta_names
            hawkes_data 1 1) (hawkes_world 0 1) = (Ok df, w') /\
     heap w' !! values df = Some (Array2 out) /\
     particle out 0 = Some [l'; c'; r'] /\ r' = Fin 1).
Proof.
  destruct zero_volatility_freezes_rates as (Hsir & Hsirs & Hdthp).
  split; [|split].
  - destruct (sir_example_run [1 / 8; 0] ["gamma"; "nu_beta"] (1 / 8) eq_refl)
      as (l & w' & out & s' & i' & r' & ni' & b' & Hrun & Hout & Hrow); [lra|].
    exists l, w', out, s', i', r', ni', b'.
    split; [done|]. split; [done|]. split; [done|].
    apply (Hsir sir_world 1%positive [1 / 8; 0] ["gamma"; "nu_beta"] 1 l w'
             [[Fin 990]; [Fin 10]; [Fin 0]; [Fin 0]; [Fin (1 / 4)]] out 0%nat
             (Fin 990) (Fin 10) (Fin 0) (Fin 0) (Fin (1 / 4))
             s' i' r' ni' b' Hrun eq_refl Hout eq_refl Hrow eq_refl).
    + apply is_float_quarter.
    + simpl. lra.
  - destruct sirs_example_run
      as (l & w' & out & s' & i' & r' & ni' & b' & m & Hrun & Hout & Hrow & _).
    exists l, w', out, s', i', r', ni', b'.
    split; [done|]. split; [done|]. split; [done|].
    apply (Hsirs sirs_world 1%positive [1; 0; 0]
             ["gamma"; "alpha"; "nu_beta"] 1 l w'
             [[Fin 0]; [Fin 1]; [Fin 0]; [Fin 0]; [Fin 1]] out 0%nat
             (Fin 0) (Fin 1) (Fin 0) (Fin 0) (Fin 1)
             s' i' r' ni' b' Hrun eq_refl Hout eq_refl Hrow eq_refl).
    + apply is_float_1.
    + simpl. lra.
  - destruct hawkes_example_draw as (df & w' & out & r' & Hrun & Hout & Hrow).
    exists df, w', out, (Fin 5), (Fin 5), r'.
    split; [done|]. split; [done|]. split; [done|].
    exact (Hdthp (hawkes_world 0 1) 1%positive hawkes_theta hawkes_names
             hawkes_theta_names hawkes_data 1%Z 1 df w'
             [[Fin 0]; [Fin 0]; [Fin 1]] out
             0%nat (Fin 0) (Fin 0) (Fin 1) (Fin 5) (Fin 5) r'
             Hrun eq_refl Hout eq_refl Hrow eq_refl is_float_1).
Defined.

(** X21. The extreme decays of the Hawkes kernel.  With omega_I = 1 the
    intensity is the last observation obs[t - 1] (a binary64 number); with
    omega_I = 0 the kernel is silent: every particle of a returned state
    has lm_I = 0 and its C_I (a binary64 value) unchanged. *)
Theorem kernel_decay_extremes :
  (forall obs t o,
     (0 < t)%Z -> obs !! Z.to_nat (t - 1) = Some o -> is_float o ->
     intensity obs 1 t = Fin o) /\
  (forall w state theta sn tn od t N df w' st out i l c r l' c' r',
     run (dthp_model state theta sn tn od t N) w = (Ok df, w') ->
     heap w !! state = Some (Array2 st) ->
     heap w' !! values df = Some (Array2 out) ->
     dict_zip tn theta !! "omega_I" = Some 0 ->
     particle st i = Some [l; c; r] ->
     float c ->
     particle out i = Some [l'; c'; r'] ->
     l' = Fin 0 /\ c' = c).
Proof.
  split.
  - intros obs t o Ht Ho Hf.
    replace t with (Z.of_nat (S (Z.to_nat (t - 1)))) by lia.
    by apply intensity_memoryless.
  - intros w state theta sn tn od t N df w' st out i l c r l' c' r'
      Hrun Hst Hdf Hom Hin Hc Hout.
    destruct (dthp_ok_row _ _ _ _ _ _ _ _ _ _ _ _ _ _ _ _ _ Hrun Hst Hdf Hin
                Hout) as (omega & Hom' & Hvalid & Hrow).
    rewrite Hom in Hom'. injection Hom' as <-.
    cbv zeta in Hvalid, Hrow. rewrite intensity_silent in Hvalid, Hrow.
    destruct (valid_mean_finite _ Hvalid) as (x & Hx & _).
    pose proof (poisson_mean_no_intensity _ _ _ _ Hx) as ->.
    apply poisson_mean_finite_inv in Hx as Hfin. destruct Hfin as (_ & Hfc & _).
    rewrite Hx in Hrow. cbn [real_of] in Hrow.
    rewrite poisson_draw_zero, of_int_0 in Hrow.
    destruct c as [z| | |]; try done. simpl in Hc.
    rewrite fadd_0_r in Hrow by done. by injection Hrow as -> -> _.
Qed.

Lemma kernel_decay_extremes_witness :
  intensity [4; 2] 1 2 = Fin 2 /\
  exists df w' out l' c' r',
    run (dthp_model 1%positive [0; 0] hawkes_names hawkes_theta_names
           hawkes_data 1 1) (hawkes_world 0 1) = (Ok df, w') /\
    heap w' !! values df = Some (Array2 out) /\
    particle out 0 = Some [l'; c'; r'] /\ l' = Fin 0 /\ c' = Fin 0.
Proof.
  destruct kernel_decay_extremes as (Hone & Hzero).
  split.
  { apply Hone; [lia|reflexivity|]. apply is_float_IZR. simpl. lia. }
  assert (dthp_good (hawkes_world 0 1) hawkes_names hawkes_data 1
            (dthp_means (hawkes_world 0 1) [Fin 0] [Fin 0] [Fin 1] [1]
               0 0 1 1)) as Hgood.
  { split; [|split; [|done]].
    - intros _. split; [by exists 2%positive, [1]|].
      change (obs_values (hawkes_world 0 1) hawkes_data) with [1].
      simpl. lia.
    - unfold dthp_means, dthp_lm, dthp_Rt, zip_with3.
      rewrite intensity_silent. cbn.
      rewrite (perturb_zero 1 _ is_float_1).
      rewrite (Claims.poisson_mean_silent 1 0 (Fin 1)); [|lra|lra|apply is_float_1|done].
      constructor; [|constructor]. apply valid_mean_fin. lra. }
  destruct (dthp_returns (hawkes_world 0 1) 1%positive [0; 0]
              hawkes_names hawkes_theta_names hawkes_data 1 1
              [Fin 0] [Fin 0] [Fin 1] 0 eq_refl eq_refl Hgood)
    as (df & w' & Hrun).
  destruct (dthp_ok_inv _ _ _ _ _ _ _ _ _ _ Hrun)
    as (lm & C0 & Rt0 & omega & Hy & Hom & _ & _ & _ & _ & Hout).
  injection Hy as <- <- <-. injection Hom as <-.
  assert (exists l' c' r', particle
            (dthp_out (hawkes_world 0 1) [Fin 0] [Fin 0] [Fin 1]
               (obs_values (hawkes_world 0 1) hawkes_data) 0
               (get (dict_zip hawkes_theta_names [0; 0]) "nu_beta"
                  nu_beta_default) 1 1) 0 = Some [l'; c'; r'])
    as (l' & c' & r' & Hrow) by (eexists _, _, _; reflexivity).
  exists df, w'. eexists _, l', c', r'. split; [done|]. split; [exact Hout|].
  split; [done|].
  exact (Hzero (hawkes_world 0 1) 1%positive [0; 0] hawkes_names
           hawkes_theta_names hawkes_data 1%Z 1 df w'
           [[Fin 0]; [Fin 0]; [Fin 1]] _ 0%nat (Fin 0) (Fin 0) (Fin 1)
           l' c' r' Hrun eq_refl Hout eq_refl eq_refl is_float_0 Hrow).
Defined.

End Extras.
